(** * EnumSetting (lib/pages/enum-setting.js): option normalisation and serialisation

    A shallow embedding of the [EnumSetting] class.  The class works on
    caller-supplied JavaScript objects, stores them without copying and
    rewrites their [name] property in place, so the embedding keeps an explicit
    object heap: a JavaScript value is a primitive or a reference into the heap,
    and every method is a state transformer that may complete normally or
    throw. *)

From Stdlib Require Import ZArith Ascii String List Lia.
From stdpp Require Import base tactics option list strings pretty sorting.

Set Warnings "-register-all".

Local Open Scope Z_scope.
Local Open Scope nat_scope.

(** ** Values, objects and the heap *)

Abbreviation loc := nat.

(** The values the class can be handed: JSON-like data.  Numbers are the
    integer-valued ones (the class never computes with a number; only
    [typeof], truthiness and string conversion look at it).  Functions,
    symbols, accessor properties, frozen or sealed objects and arrays with
    holes are outside the embedding. *)
Inductive value : Type :=
  | VUndef
  | VNull
  | VBool (b : bool)
  | VNum (n : Z)
  | VStr (s : string)
  | VRef (l : loc).

(** An object is a plain object, an array or a [String] wrapper
    ([new String(s)]).  [props] are its own enumerable string-keyed
    properties in enumeration order (see [enumeration_order]: for keys that
    are not array indices this is insertion order); the elements of an
    array are kept apart.  An array is dense: it holds a value at every
    index below its length, as an array literal without elisions or the
    result of [JSON.parse] does; a sparse array has no counterpart here, so
    what is proved of every array is proved of the dense ones. *)
Inductive kind : Type :=
  | KPlain
  | KArray (elems : list value)
  | KString (s : string).

Record object : Type := Obj { kind_of : kind; props : list (string * value) }.

Abbreviation heap := (list object).

#[global] Instance value_eq_dec : EqDecision value.
Proof. solve_decision. Defined.

#[global] Instance kind_eq_dec : EqDecision kind.
Proof. solve_decision. Defined.

#[global] Instance object_eq_dec : EqDecision object.
Proof. solve_decision. Defined.

(** ** The setting and the state the methods run in *)

Record Page : Type := { headers : value }.

Record PageSection : Type := { _page : Page }.

Record EnumSetting : Type := mkEnumSetting {
  _section : PageSection;
  _id : value;
  _type : value;
  _description : value;
  _multiple : value;
  _closeOnSelection : value;
  _groupedOptions : value;
  _options : value;
  _submitOnChange : value;
  _style : value }.

Record state : Type := State { this : EnumSetting; store : heap }.

Inductive exn : Type :=
  | TypeError (msg : string).

(** [Unmodelled] marks the few situations the embedding does not give a
    meaning to: a reference to a location outside the heap, the string
    conversion of a number that is not a safe integer, and a loop bound (a
    [length]) that is a string or an object. *)
Inductive completion (A : Type) : Type :=
  | Normal (a : A)
  | Throw (e : exn)
  | Unmodelled.

Arguments Normal {A} a.
Arguments Throw {A} e.
Arguments Unmodelled {A}.

Definition JS (A : Type) : Type := state -> completion A * state.

#[global] Instance JS_ret : MRet JS := fun _ a st => (Normal a, st).

#[global] Instance JS_bind : MBind JS := fun _ _ f m st =>
  match m st with
  | (Normal a, st') => f a st'
  | (Throw e, st') => (Throw e, st')
  | (Unmodelled, st') => (Unmodelled, st')
  end.

Definition throw {A} (e : exn) : JS A := fun st => (Throw e, st).

Definition unmodelled {A} : JS A := fun st => (Unmodelled, st).

Definition get_this : JS EnumSetting := fun st => (Normal (this st), st).

Definition set_this (f : EnumSetting -> EnumSetting) : JS unit :=
  fun st => (Normal tt, State (f (this st)) (store st)).

Definition get_heap : JS heap := fun st => (Normal (store st), st).

Definition set_heap (h : heap) : JS unit :=
  fun st => (Normal tt, State (this st) h).

(** Loops over a snapshot of the iterated sequence, threading the local
    variables of the loop ([values] in the source) as an accumulator. *)
Fixpoint for_acc {A B} (xs : list A) (acc : B) (body : B -> A -> JS B) : JS B :=
  match xs with
  | [] => mret acc
  | x :: rest => acc' ← body acc x; for_acc rest acc' body
  end.

Definition for_each {A} (xs : list A) (body : A -> JS unit) : JS unit :=
  for_acc xs tt (fun _ x => body x).

(** ** Own properties *)

Fixpoint lookup_prop (k : string) (ps : list (string * value)) : option value :=
  match ps with
  | [] => None
  | (k', v) :: rest => if decide (k = k') then Some v else lookup_prop k rest
  end.

Fixpoint set_prop (k : string) (v : value) (ps : list (string * value))
  : list (string * value) :=
  match ps with
  | [] => [(k, v)]
  | (k', v') :: rest =>
      if decide (k = k') then (k, v) :: rest else (k', v') :: set_prop k v rest
  end.

Fixpoint chars (s : string) : list value :=
  match s with
  | EmptyString => []
  | String c rest => VStr (String c EmptyString) :: chars rest
  end.

Definition indexed (vs : list value) : list (string * value) :=
  imap (fun i v => (pretty i, v)) vs.

(** Own enumerable properties in [for ... in] order: indices first. *)
Definition own_entries (o : object) : list (string * value) :=
  match kind_of o with
  | KPlain => props o
  | KArray es => indexed es ++ props o
  | KString s => indexed (chars s) ++ props o
  end.

Definition own_keys (o : object) : list string := (own_entries o).*1.

(** A canonical array index written as a property key. *)
Definition digit (c : ascii) : option nat :=
  let n := nat_of_ascii c in
  if (48 <=? n) && (n <=? 57) then Some (n - 48) else None.

Fixpoint parse_digits (s : string) (acc : nat) : option nat :=
  match s with
  | EmptyString => Some acc
  | String c rest => d ← digit c; parse_digits rest (10 * acc + d)
  end.

Definition parse_index (s : string) : option nat :=
  match s with
  | EmptyString => None
  | String c EmptyString => digit c
  | String c _ => if decide (c = "0"%char) then None else parse_digits s 0
  end.

(** The order in which an object lists its own string keys ([for ... in],
    [Object.keys]): the keys that are array indices (below [2^32 - 1]) in
    ascending numeric order, then the other keys in the order in which
    they were added. *)
Definition array_index (k : string) : option nat :=
  i ← parse_index k;
  if (Z.of_nat i <? 4294967295)%Z then Some i else None.

Definition index_le (a b : nat * (string * value)) : Prop := a.1 <= b.1.

#[global] Instance index_le_dec : RelDecision index_le.
Proof. intros a b. unfold index_le. apply _. Defined.

Definition indexed_entries (ins : list (string * value))
  : list (nat * (string * value)) :=
  omap (fun kv => i ← array_index kv.1; Some (i, kv)) ins.

Definition enumeration_order (ins : list (string * value))
  : list (string * value) :=
  (merge_sort index_le (indexed_entries ins)).*2
  ++ filter (fun kv => array_index kv.1 = None) ins.

(** The object an object literal with distinct keys (or [JSON.parse])
    builds from entries written in the order [ins]. *)
Definition object_literal (ins : list (string * value)) : object :=
  Obj KPlain (enumeration_order ins).

Definition indexed_elems (k : kind) : option (list value) :=
  match k with
  | KPlain => None
  | KArray es => Some es
  | KString s => Some (chars s)
  end.

(** [o[k]] for a string key: [length] and the indexed elements of arrays
    and strings, else an own property, else [undefined] (the prototypes
    define none of the keys the class reads). *)
Definition object_get (o : object) (k : string) : value :=
  match indexed_elems (kind_of o) with
  | Some es =>
      if decide (k = "length") then VNum (Z.of_nat (length es))
      else match parse_index k with
           | Some i => default VUndef (es !! i)
           | None => default VUndef (lookup_prop k (props o))
           end
  | None => default VUndef (lookup_prop k (props o))
  end.

(** [o[i]] for a numeric index. *)
Definition object_get_index (o : object) (i : nat) : value :=
  match indexed_elems (kind_of o) with
  | Some es => default VUndef (es !! i)
  | None => default VUndef (lookup_prop (pretty i) (props o))
  end.

(** ** Primitive operations of the language *)

Definition typeof (v : value) : string :=
  match v with
  | VUndef => "undefined"
  | VNull => "object"
  | VBool _ => "boolean"
  | VNum _ => "number"
  | VStr _ => "string"
  | VRef _ => "object"
  end.

Definition truthy (v : value) : bool :=
  match v with
  | VUndef | VNull => false
  | VBool b => b
  | VNum n => negb (n =? 0)%Z
  | VStr s => negb (String.eqb s "")
  | VRef _ => true
  end.

Definition is_array (h : heap) (v : value) : bool :=
  match v with
  | VRef l => match kind_of <$> h !! l with Some (KArray _) => true | _ => false end
  | _ => false
  end.

Definition is_object (h : heap) (v : value) : bool :=
  match v with
  | VRef l => bool_decide (is_Some (h !! l))
  | _ => false
  end.

Definition is_String_object (h : heap) (v : value) : bool :=
  match v with
  | VRef l => match kind_of <$> h !! l with Some (KString _) => true | _ => false end
  | _ => false
  end.

(** [Array.isArray(v)], [v instanceof Object], [v instanceof String]. *)
Definition Array_isArray (v : value) : JS bool :=
  fun st => (Normal (is_array (store st) v), st).

Definition instanceof_Object (v : value) : JS bool :=
  fun st => (Normal (is_object (store st) v), st).

Definition instanceof_String (v : value) : JS bool :=
  fun st => (Normal (is_String_object (store st) v), st).

(** A new object takes the next free location. *)
Definition New (k : kind) (ps : list (string * value)) : JS value :=
  fun st => (Normal (VRef (length (store st))),
             State (this st) (store st ++ [Obj k ps])).

Definition nullish_name (v : value) : string :=
  match v with VNull => "null" | _ => "undefined" end.

(** [v.k] and [v[k]] (the engine's wording of the error is not the
    program's; only its kind matters). *)
Definition Get (v : value) (k : string) : JS value :=
  fun st =>
    match v with
    | VUndef | VNull =>
        (Throw (TypeError ("Cannot read properties of " +:+ nullish_name v)), st)
    | VBool _ | VNum _ => (Normal VUndef, st)
    | VStr s => (Normal (object_get (Obj (KString s) []) k), st)
    | VRef l =>
        match store st !! l with
        | Some o => (Normal (object_get o k), st)
        | None => (Unmodelled, st)
        end
    end.

(** [v[i]] for a numeric [i]. *)
Definition GetIndex (v : value) (i : nat) : JS value :=
  fun st =>
    match v with
    | VUndef | VNull =>
        (Throw (TypeError ("Cannot read properties of " +:+ nullish_name v)), st)
    | VBool _ | VNum _ => (Normal VUndef, st)
    | VStr s => (Normal (object_get_index (Obj (KString s) []) i), st)
    | VRef l =>
        match store st !! l with
        | Some o => (Normal (object_get_index o i), st)
        | None => (Unmodelled, st)
        end
    end.

Definition put_prop (k : string) (w : value) (o : object) : object :=
  Obj (kind_of o) (set_prop k w (props o)).

(** [v.k = w] in strict mode (the file starts with ['use strict']): assigning
    to a property of a primitive throws.  The class assigns only to the
    fixed keys [name], [options], [multiple], ..., never to an index. *)
Definition Put (v : value) (k : string) (w : value) : JS unit :=
  fun st =>
    match v with
    | VUndef | VNull =>
        (Throw (TypeError ("Cannot set properties of " +:+ nullish_name v)), st)
    | VBool _ | VNum _ | VStr _ =>
        (Throw (TypeError ("Cannot create property '" +:+ k +:+ "' on " +:+ typeof v)), st)
    | VRef l =>
        match store st !! l with
        | Some _ => (Normal tt, State (this st) (alter (put_prop k w) l (store st)))
        | None => (Unmodelled, st)
        end
    end.

Definition push_elem (x : value) (o : object) : object :=
  match kind_of o with
  | KArray es => Obj (KArray (es ++ [x])) (props o)
  | _ => o
  end.

(** [a.push(x)]; only an array has the method. *)
Definition Push (a : value) (x : value) : JS unit :=
  fun st =>
    match a with
    | VRef l =>
        match store st !! l with
        | Some o =>
            match kind_of o with
            | KArray _ =>
                (Normal tt, State (this st) (alter (push_elem x) l (store st)))
            | _ => (Throw (TypeError "push is not a function"), st)
            end
        | None => (Unmodelled, st)
        end
    | VUndef | VNull =>
        (Throw (TypeError ("Cannot read properties of " +:+ nullish_name a)), st)
    | _ => (Throw (TypeError "push is not a function"), st)
    end.

(** The sequence a [for ... of] loop runs over. *)
Definition iterate (v : value) : JS (list value) :=
  fun st =>
    match v with
    | VStr s => (Normal (chars s), st)
    | VRef l =>
        match store st !! l with
        | Some o =>
            match indexed_elems (kind_of o) with
            | Some es => (Normal es, st)
            | None => (Throw (TypeError "object is not iterable"), st)
            end
        | None => (Unmodelled, st)
        end
    | _ => (Throw (TypeError (typeof v +:+ " is not iterable")), st)
    end.

(** The keys a [for ... in] loop guarded by [hasOwnProperty] runs over, and
    [Object.keys]: the own enumerable keys. *)
Definition own_keys_of (v : value) : JS (list string) :=
  fun st =>
    match v with
    | VRef l =>
        match store st !! l with
        | Some o => (Normal (own_keys o), st)
        | None => (Unmodelled, st)
        end
    | VStr s => (Normal (own_keys (Obj (KString s) [])), st)
    | _ => (Normal [], st)
    end.

Fixpoint indexOf (x : string) (l : list string) : option nat :=
  match l with
  | [] => None
  | y :: rest => if decide (x = y) then Some 0 else S <$> indexOf x rest
  end.

(** [values[index]] for the local array [values]; [index] is [None] for -1. *)
Definition at_index (values : list value) (index : option nat) : value :=
  match index with
  | Some i => default VUndef (values !! i)
  | None => VUndef
  end.

(** String conversion inside a template literal.  An array is joined with
    commas, [undefined] and [null] elements giving the empty string, and an
    array met again while it is being joined gives the empty string. *)
Fixpoint join (sep : string) (xs : list string) : string :=
  match xs with
  | [] => ""
  | [x] => x
  | x :: rest => x +:+ sep +:+ join sep rest
  end.

(** The integers JavaScript prints digit for digit: beyond them a number
    is printed rounded ([2**60] as [1152921504606847000]) or with an
    exponent ([1e21] as [1e+21]). *)
Definition safe_integer (n : Z) : bool :=
  (Z.abs n <=? 9007199254740991)%Z.

Fixpoint to_string (fuel : nat) (h : heap) (seen : list loc) (v : value)
  : option string :=
  match v with
  | VUndef => Some "undefined"
  | VNull => Some "null"
  | VBool b => Some (if b then "true" else "false")
  | VNum n => if safe_integer n then Some (pretty n) else None
  | VStr s => Some s
  | VRef l =>
      match kind_of <$> h !! l with
      | None => None
      | Some KPlain => Some "[object Object]"
      | Some (KString s) => Some s
      | Some (KArray es) =>
          if decide (l ∈ seen) then Some ""
          else match fuel with
               | 0 => None
               | S fuel' =>
                   join "," <$>
                     mapM (fun e => match e with
                                    | VUndef | VNull => Some ""
                                    | _ => to_string fuel' h (l :: seen) e
                                    end) es
               end
      end
  end.

(** Nested arrays being joined are pairwise distinct, so the depth never
    exceeds the size of the heap.  The conversion of a number that is not
    a safe integer is not modelled. *)
Definition ToString (v : value) : JS string :=
  fun st =>
    match to_string (S (length (store st))) (store st) [] v with
    | Some s => (Normal s, st)
    | None => (Unmodelled, st)
    end.

(** The number of rounds of [for (let g = 0; g < len; g++)]. *)
Definition loop_bound (len : value) : JS nat :=
  match len with
  | VNum n => mret (Z.to_nat n)
  | VUndef | VNull => mret 0
  | VBool b => mret (if b then 1 else 0)
  | VStr _ | VRef _ => unmodelled
  end.

Definition page_headers : JS value :=
  t ← get_this; mret (headers (_page (_section t))).

Definition with_groupedOptions (v : value) (t : EnumSetting) : EnumSetting :=
  mkEnumSetting (_section t) (_id t) (_type t) (_description t) (_multiple t)
    (_closeOnSelection t) v (_options t) (_submitOnChange t) (_style t).

Definition with_options (v : value) (t : EnumSetting) : EnumSetting :=
  mkEnumSetting (_section t) (_id t) (_type t) (_description t) (_multiple t)
    (_closeOnSelection t) (_groupedOptions t) v (_submitOnChange t) (_style t).

Definition with_multiple (v : value) (t : EnumSetting) : EnumSetting :=
  mkEnumSetting (_section t) (_id t) (_type t) (_description t) v
    (_closeOnSelection t) (_groupedOptions t) (_options t) (_submitOnChange t)
    (_style t).

Definition with_closeOnSelection (v : value) (t : EnumSetting) : EnumSetting :=
  mkEnumSetting (_section t) (_id t) (_type t) (_description t) (_multiple t)
    v (_groupedOptions t) (_options t) (_submitOnChange t) (_style t).

Definition with_submitOnChange (v : value) (t : EnumSetting) : EnumSetting :=
  mkEnumSetting (_section t) (_id t) (_type t) (_description t) (_multiple t)
    (_closeOnSelection t) (_groupedOptions t) (_options t) v (_style t).

Definition with_style (v : value) (t : EnumSetting) : EnumSetting :=
  mkEnumSetting (_section t) (_id t) (_type t) (_description t) (_multiple t)
    (_closeOnSelection t) (_groupedOptions t) (_options t) (_submitOnChange t) v.

(** ** The class *)

Section EnumSetting.

(** The collaborators the class calls but does not define:
    [this._section._page.i18nKey], the inherited [this.translate], and the
    fields the inherited [toJson] puts in the document it returns. *)
Variable i18nKey : string -> string.
Variable translate : value -> value.
Variable base_fields : EnumSetting -> list (string * value).

Definition super_toJson : JS value :=
  t ← get_this; New KPlain (base_fields t).

Definition multiple (v : value) : JS unit := set_this (with_multiple v).

Definition closeOnSelection (v : value) : JS unit :=
  set_this (with_closeOnSelection v).

Definition submitOnChange (v : value) : JS unit :=
  set_this (with_submitOnChange v).

Definition style (v : value) : JS unit := set_this (with_style v).

Definition i18nOptionKey (property : value) : JS value :=
  t ← get_this;
  id ← ToString (_id t);
  p ← ToString property;
  mret (VStr (i18nKey ("settings." +:+ id +:+ ".options." +:+ p +:+ ".name"))).

Definition i18nOptionGroupKey (property : value) : JS value :=
  t ← get_this;
  id ← ToString (_id t);
  p ← ToString property;
  mret (VStr (i18nKey ("settings." +:+ id +:+ ".groups." +:+ p +:+ ".name"))).

Definition i18nOptionGroupOptionKey (groupName property : value) : JS value :=
  t ← get_this;
  id ← ToString (_id t);
  g ← ToString groupName;
  p ← ToString property;
  mret (VStr (i18nKey ("settings." +:+ id +:+ ".groups." +:+ g +:+ ".options."
                         +:+ p +:+ ".name"))).

(** *** [groupedOptions(groups)] *)

(** [option.name = headers ? this.i18nOptionGroupOptionKey(groupName, option.name)
                           : option.name] *)
Definition groupedOptions_array_option (groupName : value) (option : value)
  : JS unit :=
  hd ← page_headers;
  name ← Get option "name";
  newName ← (if truthy hd then i18nOptionGroupOptionKey groupName name
             else mret name);
  Put option "name" newName.

(** One round of the loop over an array argument: the group's name is read
    into [groupName] before it is rewritten, and the group itself is pushed. *)
Definition groupedOptions_array_group (values : list value) (group : value)
  : JS (list value) :=
  isO ← instanceof_Object group;
  if isO : bool then
    groupName ← Get group "name";
    hd ← page_headers;
    name ← Get group "name";
    newName ← (if truthy hd then i18nOptionGroupKey name else mret name);
    Put group "name" newName;;
    opts ← Get group "options";
    its ← iterate opts;
    for_each its (groupedOptions_array_option groupName);;
    mret (values ++ [group])
  else
    throw (TypeError (typeof group +:+ " not valid for options group item")).

(** The callback of [propertyGroup.map]: [group.name] is read when the
    option is built, after the group's name was rewritten. *)
Definition groupedOptions_mapped_option (group : value) (mapped : list value)
  (name : value) : JS (list value) :=
  hd ← page_headers;
  newName ← (if truthy hd
             then groupName ← Get group "name";
                  i18nOptionGroupOptionKey groupName name
             else mret name);
  o ← New KPlain [("id", name); ("name", newName)];
  mret (mapped ++ [o]).

(** One round of the loop over the keys of [groups[property]]. *)
Definition groupedOptions_keyed_option (group : value) (propertyGroup : value)
  (target : value) (groupProperty : string) : JS unit :=
  v ← Get propertyGroup groupProperty;
  option ← New KPlain [("id", VStr groupProperty); ("name", v)];
  hd ← page_headers;
  newName ← (if truthy hd
             then groupName ← Get group "name";
                  i18nOptionGroupOptionKey groupName v
             else mret v);
  Put option "name" newName;;
  os ← Get target "options";
  Push os option.

(** One round of the loop over the keys of a mapping argument.
    [groups[property]], which the source writes out at each use, is read
    once into [propertyGroup]: the loop never assigns to [groups]. *)
Definition groupedOptions_mapping_entry (groups : value) (values : list value)
  (property : string) : JS (list value) :=
  keys ← own_keys_of groups;
  let index := indexOf property keys in
  empty ← New (KArray []) [];
  group ← New KPlain [("name", VStr property); ("options", empty)];
  hd ← page_headers;
  name ← Get group "name";
  newName ← (if truthy hd then i18nOptionGroupKey name else mret name);
  Put group "name" newName;;
  let values := values ++ [group] in
  propertyGroup ← Get groups property;
  isA ← Array_isArray propertyGroup;
  if isA : bool then
    its ← iterate propertyGroup;
    mapped ← for_acc its [] (groupedOptions_mapped_option group);
    arr ← New (KArray mapped) [];
    Put (at_index values index) "options" arr;;
    mret values
  else
    isO ← instanceof_Object propertyGroup;
    if isO : bool then
      ks ← own_keys_of propertyGroup;
      for_each ks
        (groupedOptions_keyed_option group propertyGroup (at_index values index));;
      mret values
    else mret values.

(** The loops that fill the local array [values]. *)
Definition groupedOptions_values (groups : value) : JS (list value) :=
  isA ← Array_isArray groups;
  if isA : bool then
    its ← iterate groups;
    for_acc its [] groupedOptions_array_group
  else
    isO ← instanceof_Object groups;
    if isO : bool then
      ks ← own_keys_of groups;
      for_acc ks [] (groupedOptions_mapping_entry groups)
    else
      throw (TypeError (typeof groups +:+ " not valid for options group")).

(** The local array [values] is shared with nobody until it is stored, so
    it is threaded as a list and becomes a heap array at the assignment
    [this._groupedOptions = values]. *)
Definition groupedOptions (groups : value) : JS unit :=
  values ← groupedOptions_values groups;
  arr ← New (KArray values) [];
  set_this (with_groupedOptions arr).

(** *** [options(options)] *)

Definition is_string (v : value) : bool := bool_decide (typeof v = "string").

Definition options_array_item (values : list value) (it : value)
  : JS (list value) :=
  isS ← instanceof_String it;
  it ← (if is_string it || isS
        then New KPlain [("id", it); ("name", it)]
        else mret it);
  hd ← page_headers;
  name ← Get it "name";
  newName ← (if truthy hd then i18nOptionKey name else mret name);
  Put it "name" newName;;
  mret (values ++ [it]).

Definition options_mapping_entry (opts : value) (values : list value)
  (property : string) : JS (list value) :=
  v ← Get opts property;
  option ← New KPlain [("id", VStr property); ("name", v)];
  hd ← page_headers;
  newName ← (if truthy hd then i18nOptionKey v else mret v);
  Put option "name" newName;;
  mret (values ++ [option]).

Definition options_values (opts : value) : JS (list value) :=
  isA ← Array_isArray opts;
  if isA : bool then
    its ← iterate opts;
    for_acc its [] options_array_item
  else
    isO ← instanceof_Object opts;
    if isO : bool then
      ks ← own_keys_of opts;
      for_acc ks [] (options_mapping_entry opts)
    else
      throw (TypeError (typeof opts +:+ " not valid for options")).

Definition options (opts : value) : JS unit :=
  values ← options_values opts;
  arr ← New (KArray values) [];
  set_this (with_options arr).

(** *** [toJson()] *)

(** The loops only assign to [name] properties, which leaves every
    [length] as it is: the bound read on entry is the bound at each test. *)
Definition toJson_option (result : value) (i g : nat) : JS unit :=
  t ← get_this;
  group ← GetIndex (_groupedOptions t) i;
  os ← Get group "options";
  option ← GetIndex os g;
  rgs ← Get result "groupedOptions";
  rg ← GetIndex rgs i;
  ros ← Get rg "options";
  target ← GetIndex ros g;
  name ← Get option "name";
  Put target "name" (translate name).

Definition toJson_group (result : value) (i : nat) : JS unit :=
  t ← get_this;
  group ← GetIndex (_groupedOptions t) i;
  rgs ← Get result "groupedOptions";
  target ← GetIndex rgs i;
  name ← Get group "name";
  Put target "name" (translate name);;
  g0 ← GetIndex (_groupedOptions t) i;
  os ← Get g0 "options";
  len ← Get os "length";
  n ← loop_bound len;
  for_each (seq 0 n) (toJson_option result i).

Definition toJson_flat (result : value) (i : nat) : JS unit :=
  t ← get_this;
  it ← GetIndex (_options t) i;
  ros ← Get result "options";
  target ← GetIndex ros i;
  name ← Get it "name";
  Put target "name" (translate name).

Definition toJson : JS value :=
  result ← super_toJson;
  t ← get_this;
  (if truthy (_multiple t) then Put result "multiple" (_multiple t)
   else mret tt);;
  (if truthy (_closeOnSelection t)
   then Put result "closeOnSelection" (_closeOnSelection t)
   else mret tt);;
  isG ← Array_isArray (_groupedOptions t);
  (if isG : bool then
     Put result "groupedOptions" (_groupedOptions t);;
     len ← Get (_groupedOptions t) "length";
     n ← loop_bound len;
     for_each (seq 0 n) (toJson_group result)
   else mret tt);;
  isF ← Array_isArray (_options t);
  (if isF : bool then
     Put result "options" (_options t);;
     len ← Get (_options t) "length";
     n ← loop_bound len;
     for_each (seq 0 n) (toJson_flat result)
   else mret tt);;
  (if truthy (_style t) then Put result "style" (_style t) else mret tt);;
  mret result.

End EnumSetting.

(** [new EnumSetting(section, id)]: the inherited constructor keeps the
    section and the id; the other fields start out undefined. *)
Definition new_EnumSetting (section : PageSection) (id : value) : EnumSetting :=
  mkEnumSetting section id (VStr "ENUM") (VStr "Tap to set")
    VUndef VUndef VUndef VUndef VUndef VUndef.

(** ** Reading structures back from the heap *)

(** The structure reachable from a value, down to a given depth: what a
    structural comparison of two documents compares. *)
Inductive tree : Type :=
  | TUndef
  | TNull
  | TBool (b : bool)
  | TNum (n : Z)
  | TStr (s : string)
  | TObj (fields : list (string * tree))
  | TArr (elems : list tree) (fields : list (string * tree))
  | TStringObj (s : string) (fields : list (string * tree))
  | TCut.

Fixpoint reify (fuel : nat) (h : heap) (v : value) : tree :=
  match v with
  | VUndef => TUndef
  | VNull => TNull
  | VBool b => TBool b
  | VNum n => TNum n
  | VStr s => TStr s
  | VRef l =>
      match fuel, h !! l with
      | S fuel', Some o =>
          let fields := map (fun kv => (kv.1, reify fuel' h kv.2)) (props o) in
          match kind_of o with
          | KPlain => TObj fields
          | KArray es => TArr (map (reify fuel' h) es) fields
          | KString s => TStringObj s fields
          end
      | _, _ => TCut
      end
  end.

(** ** Specifications of computations *)

(** A triple: from a state satisfying [P], [m] ends in a state satisfying
    [Q] of its result when it completes normally, and [E] otherwise. *)
Definition triple {A} (P : state -> Prop) (m : JS A)
  (Q : A -> state -> Prop) (E : state -> Prop) : Prop :=
  forall st, P st ->
    match m st with
    | (Normal a, st') => Q a st'
    | (_, st') => E st'
    end.

(** A computation that only reads: whatever it returns, the state is the
    one it started from. *)
Definition reads {A} (m : JS A) : Prop := forall st, (m st).2 = st.


(** [m] keeps the invariant [I], however it ends. *)
Definition keeps {A} (I : state -> Prop) (m : JS A) : Prop :=
  triple I m (fun _ => I) I.

(** ** Stored structures read back as data

    An option is read as its id with its display name, a group as its
    display name with its options. *)
Definition read_array (h : heap) (v : value) : option (list value) :=
  match v with
  | VRef l =>
      match kind_of <$> h !! l with
      | Some (KArray es) => Some es
      | _ => None
      end
  | _ => None
  end.

Definition read_option (h : heap) (v : value) : option (value * value) :=
  match v with
  | VRef l => o ← h !! l; Some (object_get o "id", object_get o "name")
  | _ => None
  end.

Definition read_options (h : heap) (v : value) : option (list (value * value)) :=
  es ← read_array h v; mapM (read_option h) es.

Definition read_group (h : heap) (v : value)
  : option (value * list (value * value)) :=
  match v with
  | VRef l =>
      o ← h !! l;
      os ← read_options h (object_get o "options");
      Some (object_get o "name", os)
  | _ => None
  end.

Definition read_groups (h : heap) (v : value)
  : option (list (value * list (value * value))) :=
  es ← read_array h v; mapM (read_group h) es.

(** What the setting stores, read as deep as the heap is large. *)
Definition stored (st : state) : tree * tree :=
  (reify (length (store st)) (store st) (_options (this st)),
   reify (length (store st)) (store st) (_groupedOptions (this st))).

(** The document a call returns, as it is when the call returns. *)
Definition returned_document (m : JS value) (st : state) : option tree :=
  match m st with
  | (Normal d, st') => Some (reify (length (store st')) (store st') d)
  | _ => None
  end.

(** A value that is not a reference. *)
Definition primitive (v : value) : Prop :=
  match v with VRef _ => False | _ => True end.

(** A primitive whose string conversion the embedding gives: any
    primitive but a number that is not a safe integer. *)
Definition printable (v : value) : Prop :=
  match v with
  | VRef _ => False
  | VNum n => safe_integer n = true
  | _ => True
  end.

(** The text a template literal gives for [v] in the heap [h], when the
    embedding gives one. *)
Definition text (h : heap) (v : value) : option string :=
  to_string (S (length h)) h [] v.

Definition convertible (h : heap) (v : value) : Prop := is_Some (text h v).

(** The text of a primitive, which does not depend on the heap (the empty
    string stands for a value that has none). *)
Definition prim_string (v : value) : string :=
  match v with
  | VRef _ => ""
  | _ => default "" (to_string 0 [] [] v)
  end.

(** ** Closed forms of the names the class stores *)

Definition localized (t : EnumSetting) : bool :=
  truthy (headers (_page (_section t))).

(** The keys minted for primitive names (the three template literals). *)
Definition option_key (i18nKey : string -> string) (t : EnumSetting)
  (name : value) : value :=
  VStr (i18nKey ("settings." +:+ prim_string (_id t) +:+ ".options."
                   +:+ prim_string name +:+ ".name")).

Definition group_key (i18nKey : string -> string) (t : EnumSetting)
  (name : value) : value :=
  VStr (i18nKey ("settings." +:+ prim_string (_id t) +:+ ".groups."
                   +:+ prim_string name +:+ ".name")).

Definition group_option_key (i18nKey : string -> string) (t : EnumSetting)
  (groupName name : value) : value :=
  VStr (i18nKey ("settings." +:+ prim_string (_id t) +:+ ".groups."
                   +:+ prim_string groupName +:+ ".options."
                   +:+ prim_string name +:+ ".name")).

(** What the mapping branch of [groupedOptions] stores for one key: the
    group's name, and for each option its id and name.  The option names
    are built from the group's name as it is after rewriting. *)
Definition mapping_group_name (i18nKey : string -> string) (t : EnumSetting)
  (property : string) : value :=
  if localized t then group_key i18nKey t (VStr property) else VStr property.

(** The key minted for an option whose name may be an object: its text is
    the one it has in the heap [h]. *)
Definition group_option_key_in (i18nKey : string -> string) (t : EnumSetting)
  (h : heap) (groupName name : value) : value :=
  VStr (i18nKey ("settings." +:+ prim_string (_id t) +:+ ".groups."
                   +:+ prim_string groupName +:+ ".options."
                   +:+ default "" (text h name) +:+ ".name")).

Definition mapping_option_name (i18nKey : string -> string) (t : EnumSetting)
  (h : heap) (property : string) (name : value) : value :=
  if localized t
  then group_option_key_in i18nKey t h (mapping_group_name i18nKey t property) name
  else name.

Definition mapping_options (i18nKey : string -> string) (t : EnumSetting)
  (h : heap) (property : string) (v : value) : list (value * value) :=
  match v with
  | VRef l =>
      match h !! l with
      | Some o =>
          match kind_of o with
          | KArray es =>
              map (fun e => (e, mapping_option_name i18nKey t h property e)) es
          | _ =>
              map (fun k => (VStr k,
                             mapping_option_name i18nKey t h property (object_get o k)))
                  (own_keys o)
          end
      | None => []
      end
  | _ => []
  end.

Definition mapping_group (i18nKey : string -> string) (t : EnumSetting)
  (h : heap) (groups : object) (property : string)
  : value * list (value * value) :=
  (mapping_group_name i18nKey t property,
   mapping_options i18nKey t h property (object_get groups property)).

(** The values of a mapping the closed form is proved for: a primitive, an
    array of primitives, or an object whose own values are primitives. *)
Definition simple_value (h : heap) (v : value) : Prop :=
  match v with
  | VRef l =>
      match h !! l with
      | Some o =>
          match kind_of o with
          | KArray es => Forall primitive es
          | _ => Forall (fun k => primitive (object_get o k)) (own_keys o)
          end
      | None => False
      end
  | _ => True
  end.

(** The same with values whose text the embedding gives. *)
Definition printable_value (h : heap) (v : value) : Prop :=
  match v with
  | VRef l =>
      match h !! l with
      | Some o =>
          match kind_of o with
          | KArray es => Forall printable es
          | _ => Forall (fun k => printable (object_get o k)) (own_keys o)
          end
      | None => False
      end
  | _ => True
  end.

(** The values of a mapping [groupedOptions] is proved to return for: any
    primitive, and any allocated object, provided that, when localization
    is enabled, the names to convert (the elements of an array, the own
    values of another object) have a text. *)
Definition mapping_value_ok (t : EnumSetting) (h : heap) (v : value) : Prop :=
  match v with
  | VRef l =>
      match h !! l with
      | Some o =>
          localized t = true ->
          match kind_of o with
          | KArray es => Forall (convertible h) es
          | _ => Forall (fun k => convertible h (object_get o k)) (own_keys o)
          end
      | None => False
      end
  | _ => True
  end.

(** The options a mapping value stands for, each with its id and the name
    given for it: an array element is both, a key of an object names its
    value. *)
Definition keyed_options (h : heap) (v : value) : list (value * value) :=
  match v with
  | VRef l =>
      match h !! l with
      | Some o =>
          match kind_of o with
          | KArray es => map (fun e => (e, e)) es
          | _ => map (fun k => (VStr k, object_get o k)) (own_keys o)
          end
      | None => []
      end
  | _ => []
  end.

(** The option [options] stores for an element of an array when names are
    left as they are: a string stands for both id and name, a record keeps
    its own id and name (a property it lacks reads as [undefined]). *)
Definition flat_option (h : heap) (it : value) : value * value :=
  if is_string it || is_String_object h it then (it, it)
  else match it with
       | VRef l =>
           match h !! l with
           | Some o => (object_get o "id", object_get o "name")
           | None => (VUndef, VUndef)
           end
       | _ => (VUndef, VUndef)
       end.

(** Every object of [h] is still there in [h'], of the same kind and with
    the same value for every property. *)
Definition same_objects (h h' : heap) : Prop :=
  forall l o, h !! l = Some o ->
    exists o', h' !! l = Some o' /\ kind_of o' = kind_of o /\
               forall k, object_get o' k = object_get o k.

(** ** The in-place rewriting of names, as heap transformers *)

Definition ref_loc (v : value) : option loc :=
  match v with VRef l => Some l | _ => None end.

(** The sequence a [for ... of] loop over [v] runs through, and that
    [v.length] and [v[i]] describe. *)
Definition iterable_of (h : heap) (v : value) : option (list value) :=
  match v with
  | VStr s => Some (chars s)
  | VRef l => o ← h !! l; indexed_elems (kind_of o)
  | _ => None
  end.

(** The locations of the options of the group at [l]. *)
Definition option_locs (h : heap) (l : loc) : option (list loc) :=
  o ← h !! l;
  es ← iterable_of h (object_get o "options");
  mapM ref_loc es.

(** [o.name = f(o.name)] for the object at [l]. *)
Definition rename (f : value -> value) (l : loc) (h : heap) : heap :=
  alter (fun o => put_prop "name" (f (object_get o "name")) o) l h.

Definition rename_all (f : value -> value) (ls : list loc) (h : heap) : heap :=
  foldl (fun h l => rename f l h) h ls.

(** The names the array branches assign when names are primitive. *)
Definition flat_name (i18nKey : string -> string) (t : EnumSetting)
  (name : value) : value :=
  if localized t then option_key i18nKey t name else name.

Definition group_name (i18nKey : string -> string) (t : EnumSetting)
  (name : value) : value :=
  if localized t then group_key i18nKey t name else name.

Definition group_option_name (i18nKey : string -> string) (t : EnumSetting)
  (groupName name : value) : value :=
  if localized t then group_option_key i18nKey t groupName name else name.

(** One round of the loop of [groupedOptions] over an array: the group's
    name as it was on entry goes into the names of its options. *)
Definition localize_group (i18nKey : string -> string) (t : EnumSetting)
  (h : heap) (l : loc) : heap :=
  match h !! l, option_locs h l with
  | Some o, Some os =>
      rename_all (group_option_name i18nKey t (object_get o "name")) os
        (rename (group_name i18nKey t) l h)
  | _, _ => h
  end.

Definition localize_groups (i18nKey : string -> string) (t : EnumSetting)
  (ls : list loc) (h : heap) : heap :=
  foldl (localize_group i18nKey t) h ls.

(** The objects whose name the loops over groups assign to, in order. *)
Definition visited (h : heap) (ls : list loc) : list loc :=
  concat (map (fun l => l :: default [] (option_locs h l)) ls).

(** A group the loops over groups go through without an exception: an
    object whose [options] can be iterated and holds allocated objects. *)
Definition group_ok (h : heap) (l : loc) : Prop :=
  exists os, option_locs h l = Some os /\ Forall (fun lo => lo < length h) os.

(** An allocated object whose name a template literal converts without
    looking at the heap: a primitive that has a text (which matters only
    when localization is on). *)
Definition name_ok (t : EnumSetting) (h : heap) (l : loc) : Prop :=
  exists o, h !! l = Some o /\
            (localized t = true -> printable (object_get o "name")).

(** A group whose names and whose options' names are such. *)
Definition group_names_ok (t : EnumSetting) (h : heap) (l : loc) : Prop :=
  name_ok t h l /\
  exists os, option_locs h l = Some os /\ Forall (name_ok t h) os.

(** ** What a call may change in the objects that were there before it *)

(** Every object of [h] is still there in [h'], of the same kind (so with
    the same elements), and with the same value for every property other
    than [name]. *)
Definition only_names_changed (h h' : heap) : Prop :=
  forall l o, h !! l = Some o ->
    exists o', h' !! l = Some o' /\ kind_of o' = kind_of o /\
               forall k, k <> "name" -> object_get o' k = object_get o k.

(** ** Well-formed stored structures *)

(** A stored array of option objects, and a stored array of groups. *)
Definition flat_ok (h : heap) (v : value) : Prop :=
  forall l, v = VRef l ->
    l < length h /\
    (is_array h v = true ->
     exists ps fls,
       h !! l = Some (Obj (KArray (map VRef fls)) ps) /\
       Forall (fun lo => lo < length h) fls).

Definition grouped_ok (h : heap) (v : value) : Prop :=
  forall l, v = VRef l ->
    l < length h /\
    (is_array h v = true ->
     exists ps gls,
       h !! l = Some (Obj (KArray (map VRef gls)) ps) /\
       Forall (group_ok h) gls).

Definition stored_ok (st : state) : Prop :=
  flat_ok (store st) (_options (this st)) /\
  grouped_ok (store st) (_groupedOptions (this st)).

(** ** The groups built by the mapping branch *)

(** A group allocated at or after [n0]: a plain object whose [options] is
    an array, itself allocated at or after [n0], of allocated objects. *)
Definition fresh_group (n0 : nat) (h : heap) (v : value) : Prop :=
  exists l ps a psa os,
    v = VRef l /\ n0 <= l /\ h !! l = Some (Obj KPlain ps) /\
    lookup_prop "options" ps = Some (VRef a) /\ n0 <= a /\
    h !! a = Some (Obj (KArray (map VRef os)) psa) /\
    Forall (fun lo => lo < length h) os.

(** The invariant of the loop over the keys of a mapping: the objects of
    the heap [h0] the call started from are untouched, and [values] holds
    groups allocated since. *)
Definition mapping_inv (h0 : heap) (values : list value) (st : state) : Prop :=
  take (length h0) (store st) = h0 /\
  Forall (fresh_group (length h0) (store st)) values.

Definition untouched (h0 : heap) (st : state) : Prop :=
  take (length h0) (store st) = h0.

Definition fresh_array (n0 : nat) (h : heap) (v : value) : Prop :=
  exists a psa os,
    v = VRef a /\ n0 <= a /\
    h !! a = Some (Obj (KArray (map VRef os)) psa) /\
    Forall (fun lo => lo < length h) os.

Definition fresh_obj (n0 : nat) (h : heap) (v : value) : Prop :=
  exists l, v = VRef l /\ n0 <= l /\ l < length h.

(** A value that refers to an allocated object, and one that refers to a
    group the loops over groups go through. *)
Definition allocated (h : heap) (v : value) : Prop :=
  exists l, v = VRef l /\ l < length h.

Definition group_value_ok (h : heap) (v : value) : Prop :=
  exists l, v = VRef l /\ group_ok h l.

(** The group at [l] has an [options] that iterates over [its]. *)
Definition options_iterate (h : heap) (l : loc) (its : list value) : Prop :=
  exists o, h !! l = Some o /\ iterable_of h (object_get o "options") = Some its.

(** ** The document [toJson] returns, and the objects it renames *)

(** [if (v) { result.k = v }] and
    [if (Array.isArray(v)) { result.k = v; ... }] on the fields of the
    document. *)
Definition put_if (k : string) (v : value) (ps : list (string * value))
  : list (string * value) :=
  if truthy v then set_prop k v ps else ps.

Definition put_array (h : heap) (k : string) (v : value)
  (ps : list (string * value)) : list (string * value) :=
  if is_array h v then set_prop k v ps else ps.

Definition document_fields (base_fields : EnumSetting -> list (string * value))
  (t : EnumSetting) (h : heap) : list (string * value) :=
  put_if "style" (_style t)
    (put_array h "options" (_options t)
       (put_array h "groupedOptions" (_groupedOptions t)
          (put_if "closeOnSelection" (_closeOnSelection t)
             (put_if "multiple" (_multiple t) (base_fields t))))).

(** The objects a stored array holds, and the objects whose name the
    loops of [toJson] assign to, in order: each group, then its options,
    and after the groups the flat options. *)
Definition array_locs (h : heap) (v : value) : list loc :=
  default [] (es ← read_array h v; mapM ref_loc es).

Definition translated (h : heap) (t : EnumSetting) : list loc :=
  visited h (array_locs h (_groupedOptions t)) ++ array_locs h (_options t).

(** An object whose name is left as it is by [f]. *)
Definition name_fixed (f : value -> value) (h : heap) (l : loc) : Prop :=
  forall o, h !! l = Some o -> put_prop "name" (f (object_get o "name")) o = o.

(** ** Concrete collaborators and inputs used in the examples *)

Definition page_with (hd : value) : PageSection := {| _page := {| headers := hd |} |}.

(** A page that prefixes every path with its own id. *)
Definition i18nKey_page (path : string) : string := "pages.main." +:+ path.

(** A translation table; anything it does not list is passed through. *)
Definition translate_fr (v : value) : value :=
  match v with
  | VStr s =>
      if decide (s = "bread") then VStr "pain"
      else if decide (s = "pain") then VStr "douleur"
      else v
  | _ => v
  end.

Definition translate_id (v : value) : value := v.

Definition base_id_type (t : EnumSetting) : list (string * value) :=
  [("id", _id t); ("type", _type t); ("description", _description t)].

(** [{Colors: ['red', 'blue']}] at location 1. *)
Definition heap_colors : heap :=
  [ Obj (KArray [VStr "red"; VStr "blue"]) [];
    Obj KPlain [("Colors", VRef 0)] ].

(** [['bread']] at location 0. *)
Definition heap_bread : heap := [ Obj (KArray [VStr "bread"]) [] ].

(** [[{id: 'a'}]] at location 1. *)
Definition heap_no_name : heap :=
  [ Obj KPlain [("id", VStr "a")]; Obj (KArray [VRef 0]) [] ].

(** [['x', {id: 'a'}]] at location 1. *)
Definition heap_mixed : heap :=
  [ Obj KPlain [("id", VStr "a")]; Obj (KArray [VStr "x"; VRef 0]) [] ].

(** [g = {name: 'G', options: [{id: 'o', name: 'O'}]}] at location 2, with
    [[g]] at location 3 and [[g, 1]] at location 4. *)
Definition heap_group : heap :=
  [ Obj KPlain [("id", VStr "o"); ("name", VStr "O")];
    Obj (KArray [VRef 0]) [];
    Obj KPlain [("name", VStr "G"); ("options", VRef 1)];
    Obj (KArray [VRef 2]) [];
    Obj (KArray [VRef 2; VNum 1]) [] ].

(** [[1, 2, 3]] at location 0, [{Misc: 7, Other: 'x'}] at location 1. *)
Definition heap_numbers : heap :=
  [ Obj (KArray [VNum 1; VNum 2; VNum 3]) [];
    Obj KPlain [("Misc", VNum 7); ("Other", VStr "x")] ].

Definition fresh_setting (hd : value) (h : heap) : state :=
  State (new_EnumSetting (page_with hd) (VStr "color")) h.

(** The state a computation ends in, and the way it completes. *)
Definition after {A} (m : JS A) (st : state) : state := (m st).2.

Definition outcome {A} (m : JS A) (st : state) : completion A := (m st).1.

(** ** Options built from strings and from the entries of a mapping *)

(** The object [options] builds for a string element or for an entry of a
    mapping: [{id: ..., name: ...}] with the name rewritten. *)
Definition fresh_option (i18nKey : string -> string) (t : EnumSetting)
  (p : value * value) : object :=
  Obj KPlain [("id", p.1); ("name", flat_name i18nKey t p.2)].

(** The heap after [options] built one object for each of [ps] and stored
    the array that holds them. *)
Definition fresh_options_heap (i18nKey : string -> string) (t : EnumSetting)
  (h : heap) (ps : list (value * value)) : heap :=
  h ++ map (fresh_option i18nKey t) ps
    ++ [Obj (KArray (map VRef (seq (length h) (length ps)))) []].

(** ** Structures with their names translated *)

Definition translate_option (f : value -> value) (p : value * value)
  : value * value :=
  (p.1, f p.2).

Definition translate_group (f : value -> value)
  (g : value * list (value * value)) : value * list (value * value) :=
  (f g.1, map (translate_option f) g.2).

(** ** Sequences of calls on a setting *)

(** What a caller does with a setting: it allocates an object (to build an
    argument), or calls a method; a call that throws is caught and the
    setting is used further. *)
Inductive call : Type :=
  | Allocate (o : object)
  | Multiple (v : value)
  | CloseOnSelection (v : value)
  | SubmitOnChange (v : value)
  | Style (v : value)
  | Options (v : value)
  | GroupedOptions (v : value)
  | ToJson.

Definition run_call (i18nKey : string -> string) (translate : value -> value)
  (base_fields : EnumSetting -> list (string * value)) (c : call) : JS unit :=
  match c with
  | Allocate o => New (kind_of o) (props o) ≫= fun _ => mret tt
  | Multiple v => multiple v
  | CloseOnSelection v => closeOnSelection v
  | SubmitOnChange v => submitOnChange v
  | Style v => style v
  | Options v => options i18nKey v
  | GroupedOptions v => groupedOptions i18nKey v
  | ToJson => toJson translate base_fields ≫= fun _ => mret tt
  end.

Definition after_calls (i18nKey : string -> string) (translate : value -> value)
  (base_fields : EnumSetting -> list (string * value)) (cs : list call)
  (st : state) : state :=
  foldl (fun st c => after (run_call i18nKey translate base_fields c) st) st cs.

(** ** Elements [options] cannot take *)

(** A primitive that is not a string: reading [name] from it throws
    ([undefined], [null]) or assigning [name] to it does (a boolean, a
    number). *)
Definition rejected_element (v : value) : Prop :=
  match v with
  | VUndef | VNull | VBool _ | VNum _ => True
  | VStr _ | VRef _ => False
  end.

(** ** Reading one field of the document [toJson] returns *)

(** [None] when [toJson] does not return a document, else the own
    property [k] of the document ([None] inside when it has none). *)
Definition document_field (translate : value -> value)
  (base_fields : EnumSetting -> list (string * value)) (st : state) (k : string)
  : option (option value) :=
  match toJson translate base_fields st with
  | (Normal (VRef d), st') => (fun o => lookup_prop k (props o)) <$> store st' !! d
  | _ => None
  end.

(** ** A further input used in the examples *)

(** [{Flavors: {tart: 'Tart', sweet: 'Sweet'}}] at location 1. *)
Definition heap_flavors : heap :=
  [ Obj KPlain [("tart", VStr "Tart"); ("sweet", VStr "Sweet")];
    Obj KPlain [("Flavors", VRef 0)] ].

(** [{b: ['x'], 1: ['y']}] at location 2: the key [1] is an array index
    and is listed before [b]. *)
Definition heap_ordered : heap :=
  [ Obj (KArray [VStr "x"]) [];
    Obj (KArray [VStr "y"]) [];
    object_literal [("b", VRef 0); ("1", VRef 1)] ].

(** [{Misc: 7, Recs: [{id: 'r', name: 'R'}]}] at location 2. *)
Definition heap_records : heap :=
  [ Obj KPlain [("id", VStr "r"); ("name", VStr "R")];
    Obj (KArray [VRef 0]) [];
    Obj KPlain [("Misc", VNum 7); ("Recs", VRef 1)] ].

(** [[new String('x')]] at location 1. *)
Definition heap_wrapper : heap :=
  [ Obj (KString "x") []; Obj (KArray [VRef 0]) [] ].
(** * Reasoning about the embedding *)

(** ** Stepping through a computation *)

Lemma bind_unfold {A B} (m : JS A) (f : A -> JS B) (st : state) :
  (m ≫= f) st =
  match m st with
  | (Normal a, st') => f a st'
  | (Throw e, st') => (Throw e, st')
  | (Unmodelled, st') => (Unmodelled, st')
  end.
Proof. reflexivity. Qed.

Lemma bind_normal {A B} (m : JS A) (f : A -> JS B) st a st' :
  m st = (Normal a, st') -> (m ≫= f) st = f a st'.
Proof. intros H. rewrite bind_unfold, H. reflexivity. Qed.

Lemma ret_unfold {A} (a : A) (st : state) : (mret a : JS A) st = (Normal a, st).
Proof. reflexivity. Qed.

Lemma triple_ret {A} (P : state -> Prop) (a : A) (Q : A -> state -> Prop) E :
  (forall st, P st -> Q a st) -> triple P (mret a) Q E.
Proof. intros H st HP. simpl. auto. Qed.

Lemma triple_bind {A B} P (m : JS A) (f : A -> JS B) Q1 Q E :
  triple P m Q1 E ->
  (forall a, triple (Q1 a) (f a) Q E) ->
  triple P (m ≫= f) Q E.
Proof.
  intros Hm Hf st HP. rewrite bind_unfold.
  specialize (Hm st HP). destruct (m st) as [[a | e |] st1]; auto.
  apply (Hf a st1 Hm).
Qed.

Lemma triple_conseq {A} (P P' : state -> Prop) (m : JS A)
  (Q Q' : A -> state -> Prop) (E E' : state -> Prop) :
  triple P' m Q' E' ->
  (forall st, P st -> P' st) ->
  (forall a st, Q' a st -> Q a st) ->
  (forall st, E' st -> E st) ->
  triple P m Q E.
Proof.
  intros Hm HP HQ HE st Hst. specialize (Hm st (HP st Hst)).
  destruct (m st) as [[a | e |] st1]; auto.
Qed.

Lemma triple_throw {A} P (e : exn) (Q : A -> state -> Prop) (E : state -> Prop) :
  (forall st, P st -> E st) -> triple P (throw e) Q E.
Proof. intros H st HP. simpl. auto. Qed.

Lemma triple_for_acc {A B} (I : B -> state -> Prop) (E : state -> Prop)
  (xs : list A) (body : B -> A -> JS B) :
  (forall acc x, x ∈ xs -> triple (I acc) (body acc x) I E) ->
  forall acc, triple (I acc) (for_acc xs acc body) I E.
Proof.
  induction xs as [| x xs IH]; intros Hbody acc.
  - apply triple_ret. auto.
  - simpl. eapply triple_bind.
    + apply Hbody. left.
    + intros acc'. apply IH. intros acc0 y Hy. apply Hbody. by right.
Qed.

Lemma triple_for_each {A} (I : state -> Prop) (E : state -> Prop)
  (xs : list A) (body : A -> JS unit) :
  (forall x, x ∈ xs -> triple I (body x) (fun _ => I) E) ->
  triple I (for_each xs body) (fun _ => I) E.
Proof.
  intros Hbody. unfold for_each.
  apply (triple_for_acc (fun _ => I) E xs (fun _ x => body x)).
  intros _ x Hx. apply Hbody, Hx.
Qed.

Lemma triple_reads {A} (P : state -> Prop) (m : JS A) :
  reads m ->
  triple P m (fun a st => P st /\ m st = (Normal a, st)) P.
Proof.
  intros Hr st HP. specialize (Hr st).
  destruct (m st) as [[a | e |] st1] eqn:Hm; simpl in Hr; subst; auto.
Qed.

Lemma reads_Get v k : reads (Get v k).
Proof. intros st. unfold Get. repeat case_match; reflexivity. Qed.

Lemma reads_GetIndex v i : reads (GetIndex v i).
Proof. intros st. unfold GetIndex. repeat case_match; reflexivity. Qed.

Lemma reads_iterate v : reads (iterate v).
Proof. intros st. unfold iterate. repeat case_match; reflexivity. Qed.

Lemma reads_own_keys_of v : reads (own_keys_of v).
Proof. intros st. unfold own_keys_of. repeat case_match; reflexivity. Qed.

Lemma reads_ToString v : reads (ToString v).
Proof. intros st. unfold ToString. case_match; reflexivity. Qed.

Lemma reads_loop_bound v : reads (loop_bound v).
Proof. intros st. destruct v as [| | [] | | |]; reflexivity. Qed.

Lemma reads_ret {A} (a : A) : reads (mret a).
Proof. intros st. reflexivity. Qed.

Lemma reads_throw {A} e : reads (@throw A e).
Proof. intros st. reflexivity. Qed.

Lemma reads_bind {A B} (m : JS A) (f : A -> JS B) :
  reads m -> (forall a, reads (f a)) -> reads (m ≫= f).
Proof.
  intros Hm Hf st. rewrite bind_unfold. specialize (Hm st).
  destruct (m st) as [[a | e |] st1]; simpl in *; subst; auto. apply Hf.
Qed.

Lemma reads_get_this : reads get_this.
Proof. intros st. reflexivity. Qed.

Lemma reads_page_headers : reads page_headers.
Proof. intros st. reflexivity. Qed.

Lemma reads_Array_isArray v : reads (Array_isArray v).
Proof. intros st. reflexivity. Qed.

Lemma reads_instanceof_Object v : reads (instanceof_Object v).
Proof. intros st. reflexivity. Qed.

Lemma reads_instanceof_String v : reads (instanceof_String v).
Proof. intros st. reflexivity. Qed.

Lemma reads_i18nOptionKey i18nKey v : reads (i18nOptionKey i18nKey v).
Proof.
  unfold i18nOptionKey.
  repeat (apply reads_bind; [ first [apply reads_get_this | apply reads_ToString] | intros ? ]).
  apply reads_ret.
Qed.

Lemma reads_i18nOptionGroupKey i18nKey v : reads (i18nOptionGroupKey i18nKey v).
Proof.
  unfold i18nOptionGroupKey.
  repeat (apply reads_bind; [ first [apply reads_get_this | apply reads_ToString] | intros ? ]).
  apply reads_ret.
Qed.

Lemma reads_i18nOptionGroupOptionKey i18nKey g v :
  reads (i18nOptionGroupOptionKey i18nKey g v).
Proof.
  unfold i18nOptionGroupOptionKey.
  repeat (apply reads_bind; [ first [apply reads_get_this | apply reads_ToString] | intros ? ]).
  apply reads_ret.
Qed.

(** ** The effect of each primitive *)

Lemma triple_read {A} (P : state -> Prop) (m : JS A) Q (E : state -> Prop) :
  reads m ->
  (forall st a, P st -> m st = (Normal a, st) -> Q a st) ->
  (forall st, P st -> E st) ->
  triple P m Q E.
Proof.
  intros Hr HQ HE st HP. specialize (Hr st).
  destruct (m st) as [[a | e |] st1] eqn:Hm; simpl in Hr; subst; eauto.
Qed.

Lemma triple_Put (P : state -> Prop) v k w (Q : unit -> state -> Prop) (E : state -> Prop) :
  (forall st, P st -> E st) ->
  (forall st l o, P st -> v = VRef l -> store st !! l = Some o ->
     Q tt (State (this st) (alter (put_prop k w) l (store st)))) ->
  triple P (Put v k w) Q E.
Proof.
  intros HE HQ st HP. unfold Put.
  destruct v as [| | b | n | s | l]; simpl; auto.
  destruct (store st !! l) as [o |] eqn:Hl; simpl; eauto.
Qed.

Lemma triple_New (P : state -> Prop) k ps (Q : value -> state -> Prop) (E : state -> Prop) :
  (forall st, P st ->
     Q (VRef (length (store st))) (State (this st) (store st ++ [Obj k ps]))) ->
  triple P (New k ps) Q E.
Proof. intros HQ st HP. simpl. auto. Qed.

Lemma triple_Push (P : state -> Prop) a x (Q : unit -> state -> Prop) (E : state -> Prop) :
  (forall st, P st -> E st) ->
  (forall st l es ps, P st -> a = VRef l -> store st !! l = Some (Obj (KArray es) ps) ->
     Q tt (State (this st) (alter (push_elem x) l (store st)))) ->
  triple P (Push a x) Q E.
Proof.
  intros HE HQ st HP. unfold Push.
  destruct a as [| | b | n | s | l]; simpl; auto.
  destruct (store st !! l) as [[[| es | s] ps] |] eqn:Hl; simpl; eauto.
Qed.

Lemma keeps_reads {A} I (m : JS A) : reads m -> keeps I m.
Proof. intros Hr. apply triple_read; auto. Qed.

Lemma keeps_bind {A B} I (m : JS A) (f : A -> JS B) :
  keeps I m -> (forall a, keeps I (f a)) -> keeps I (m ≫= f).
Proof. intros Hm Hf. eapply triple_bind; [exact Hm | exact Hf]. Qed.

Lemma keeps_ret {A} I (a : A) : keeps I (mret a).
Proof. apply triple_ret. auto. Qed.

Lemma keeps_throw {A} I e : keeps I (@throw A e).
Proof. apply triple_throw. auto. Qed.

Lemma keeps_if {A} I (b : bool) (m1 m2 : JS A) :
  keeps I m1 -> keeps I m2 -> keeps I (if b then m1 else m2).
Proof. destruct b; auto. Qed.

Lemma keeps_for_acc {A B} I (xs : list A) (body : B -> A -> JS B) acc :
  (forall acc x, x ∈ xs -> keeps I (body acc x)) -> keeps I (for_acc xs acc body).
Proof.
  intros Hbody.
  pose proof (triple_for_acc (fun _ => I) I xs body Hbody acc) as H.
  exact H.
Qed.

Lemma keeps_for_each {A} I (xs : list A) (body : A -> JS unit) :
  (forall x, x ∈ xs -> keeps I (body x)) -> keeps I (for_each xs body).
Proof. intros Hbody. apply triple_for_each, Hbody. Qed.

Lemma keeps_Put I v k w :
  (forall st l o, I st -> v = VRef l -> store st !! l = Some o ->
     I (State (this st) (alter (put_prop k w) l (store st)))) ->
  keeps I (Put v k w).
Proof. intros H. apply triple_Put; auto. Qed.

Lemma keeps_New I k ps :
  (forall st, I st -> I (State (this st) (store st ++ [Obj k ps]))) ->
  keeps I (New k ps).
Proof. intros H. apply triple_New; auto. Qed.

Lemma keeps_Push I a x :
  (forall st l es ps, I st -> a = VRef l -> store st !! l = Some (Obj (KArray es) ps) ->
     I (State (this st) (alter (push_elem x) l (store st)))) ->
  keeps I (Push a x).
Proof. intros H. apply triple_Push; auto. Qed.

Lemma keeps_elim {A} I (m : JS A) st r st' :
  keeps I m -> I st -> m st = (r, st') -> I st'.
Proof.
  intros Hk HI Hm. specialize (Hk st HI). rewrite Hm in Hk.
  destruct r; exact Hk.
Qed.

Lemma for_acc_app {A B} (xs ys : list A) (acc : B) (body : B -> A -> JS B) st :
  for_acc (xs ++ ys) acc body st =
  (acc' ← for_acc xs acc body; for_acc ys acc' body) st.
Proof.
  revert acc st. induction xs as [| x xs IH]; intros acc st.
  - reflexivity.
  - simpl. rewrite !bind_unfold. destruct (body acc x st) as [[acc1 | e |] st1]; auto.
Qed.

(** ** Simple computations keep simple invariants *)

Create HintDb js_reads.

#[local] Hint Resolve reads_Get reads_GetIndex reads_iterate reads_own_keys_of
  reads_ToString reads_loop_bound reads_ret reads_throw reads_get_this
  reads_page_headers reads_Array_isArray reads_instanceof_Object
  reads_instanceof_String reads_i18nOptionKey reads_i18nOptionGroupKey
  reads_i18nOptionGroupOptionKey : js_reads.

(** Breaks a [keeps] goal down to the assignments and allocations in it. *)
Ltac keeps_steps :=
  repeat first
    [ apply keeps_ret
    | apply keeps_throw
    | apply keeps_reads; solve [auto with js_reads]
    | apply keeps_bind; [| intros ?]
    | apply keeps_if
    | apply keeps_for_each; intros ? ?
    | apply keeps_for_acc; intros ? ? ?
    | match goal with
      | |- keeps _ (if ?b then _ else _) => destruct b
      | |- keeps _ (match ?v with _ => _ end) => destruct v
      end ].

(** ** Lists that grow at the end *)

Lemma lookup_app_len {A} (h : list A) x r : (h ++ x :: r) !! length h = Some x.
Proof. by apply list_lookup_middle. Qed.

Lemma lookup_app_plus {A} (h r : list A) k : (h ++ r) !! (length h + k) = r !! k.
Proof. rewrite lookup_app_r by lia. f_equal. lia. Qed.

Lemma alter_app_plus {A} (f : A -> A) (h r : list A) k :
  alter f (length h + k) (h ++ r) = h ++ alter f k r.
Proof. apply alter_app_r. Qed.

Lemma alter_app_len {A} (f : A -> A) (h : list A) x r :
  alter f (length h) (h ++ x :: r) = h ++ f x :: r.
Proof.
  replace (length h) with (length h + 0) at 1 by lia.
  by rewrite alter_app_plus.
Qed.

Lemma indexOf_app_fresh x (pre post : list string) :
  x ∉ pre -> indexOf x (pre ++ x :: post) = Some (length pre).
Proof.
  induction pre as [| y pre IH]; intros Hnin; simpl.
  - by rewrite decide_True.
  - apply not_elem_of_cons in Hnin as [Hne Hnin].
    rewrite decide_False by done. by rewrite IH.
Qed.


Lemma lookup_app_plus1 {A} (h : list A) x y r : (h ++ x :: y :: r) !! (length h + 1) = Some y.
Proof. by rewrite lookup_app_plus. Qed.

Lemma alter_app_plus1 {A} (f : A -> A) (h : list A) x y r :
  alter f (length h + 1) (h ++ x :: y :: r) = h ++ x :: f y :: r.
Proof. by rewrite alter_app_plus. Qed.

Lemma lookup_app_plus0 {A} (h : list A) x r : (h ++ x :: r) !! (length h + 0) = Some x.
Proof. by rewrite lookup_app_plus. Qed.

Lemma lookup_app_plus2_end {A} (h : list A) x y m z :
  (h ++ x :: y :: m ++ [z]) !! (length h + S (S (length m))) = Some z.
Proof. rewrite lookup_app_plus. simpl. apply lookup_app_len. Qed.

(** ** Own properties *)

Lemma lookup_prop_set_prop_eq k v ps : lookup_prop k (set_prop k v ps) = Some v.
Proof.
  induction ps as [| [k' v'] ps IH]; simpl.
  - by rewrite decide_True.
  - destruct (decide (k = k')) as [-> | Hne]; simpl.
    + by rewrite decide_True.
    + by rewrite decide_False.
Qed.

Lemma lookup_prop_set_prop_ne k k' v ps :
  k' <> k -> lookup_prop k' (set_prop k v ps) = lookup_prop k' ps.
Proof.
  intros Hne. induction ps as [| [k0 v0] ps IH]; simpl.
  - by rewrite decide_False.
  - destruct (decide (k = k0)) as [-> | Hne0]; simpl.
    + by rewrite !decide_False.
    + destruct (decide (k' = k0)); auto.
Qed.

Lemma set_prop_same k v ps : lookup_prop k ps = Some v -> set_prop k v ps = ps.
Proof.
  induction ps as [| [k0 v0] ps IH]; simpl; [discriminate |].
  destruct (decide (k = k0)) as [-> | Hne]; intros H.
  - by simplify_eq.
  - by rewrite IH.
Qed.

Lemma object_get_plain k ps :
  object_get (Obj KPlain ps) k = default VUndef (lookup_prop k ps).
Proof. reflexivity. Qed.

Lemma object_get_plain_first k v ps : object_get (Obj KPlain ((k, v) :: ps)) k = v.
Proof. rewrite object_get_plain. simpl. by rewrite decide_True. Qed.

Lemma object_get_plain_second k1 v1 k2 v2 ps :
  k2 <> k1 -> object_get (Obj KPlain ((k1, v1) :: (k2, v2) :: ps)) k2 = v2.
Proof.
  intros Hne. rewrite object_get_plain. simpl.
  rewrite decide_False by done. by rewrite decide_True.
Qed.

Lemma put_prop_first kd k v w ps :
  put_prop k w (Obj kd ((k, v) :: ps)) = Obj kd ((k, w) :: ps).
Proof. unfold put_prop. simpl. by rewrite decide_True. Qed.

Lemma put_prop_second kd k1 v1 k2 v2 w ps :
  k2 <> k1 ->
  put_prop k2 w (Obj kd ((k1, v1) :: (k2, v2) :: ps))
  = Obj kd ((k1, v1) :: (k2, w) :: ps).
Proof.
  intros Hne. unfold put_prop. simpl.
  rewrite decide_False by done. by rewrite decide_True.
Qed.

Lemma is_array_ref h l o :
  h !! l = Some o ->
  is_array h (VRef l) = match kind_of o with KArray _ => true | _ => false end.
Proof. intros H. simpl. by rewrite H. Qed.

Lemma is_object_ref h l o : h !! l = Some o -> is_object h (VRef l) = true.
Proof. intros H. simpl. apply bool_decide_eq_true. by rewrite H. Qed.

Lemma is_array_primitive h v : primitive v -> is_array h v = false.
Proof. by destruct v. Qed.

Lemma is_object_primitive h v : primitive v -> is_object h v = false.
Proof. by destruct v. Qed.

Lemma at_index_snoc values v : at_index (values ++ [v]) (Some (length values)) = v.
Proof. unfold at_index. by rewrite lookup_app_len. Qed.

Lemma object_get_put_name_eq w o : object_get (put_prop "name" w o) "name" = w.
Proof.
  unfold object_get, put_prop. simpl.
  destruct (indexed_elems (kind_of o)); simpl; by rewrite lookup_prop_set_prop_eq.
Qed.

Lemma object_get_put_prop_ne k k' w o :
  k' <> k -> object_get (put_prop k w o) k' = object_get o k'.
Proof.
  intros Hne. unfold object_get, put_prop. simpl.
  by rewrite lookup_prop_set_prop_ne.
Qed.

Lemma object_get_index_put_prop k w o es :
  indexed_elems (kind_of o) = Some es ->
  forall i, object_get_index (put_prop k w o) i = object_get_index o i.
Proof. intros Hes i. unfold object_get_index, put_prop. simpl. by rewrite Hes. Qed.

(** ** The setting's own fields change only at the final assignment *)

(** Discharges [keeps] for a method body, given how the invariant fares
    under one assignment, allocation or push. *)
Ltac keeps_prims tac :=
  keeps_steps;
  try first
    [ apply keeps_Put; intros; tac
    | apply keeps_New; intros; tac
    | apply keeps_Push; intros; tac ].

Section KeepsThis.

Variable i18nKey : string -> string.
Variable t : EnumSetting.

Let I : state -> Prop := fun st => this st = t.

Lemma keeps_this_groupedOptions_values groups :
  keeps I (groupedOptions_values i18nKey groups).
Proof.
  unfold groupedOptions_values, groupedOptions_array_group,
    groupedOptions_mapping_entry, groupedOptions_array_option,
    groupedOptions_mapped_option, groupedOptions_keyed_option.
  repeat (keeps_prims ltac:(unfold I in *; simpl; assumption)).
Qed.

Lemma keeps_this_options_values opts :
  keeps I (options_values i18nKey opts).
Proof.
  unfold options_values, options_array_item, options_mapping_entry.
  repeat (keeps_prims ltac:(unfold I in *; simpl; assumption)).
Qed.

End KeepsThis.

Lemma groupedOptions_failure_this i18nKey groups st r st' :
  groupedOptions i18nKey groups st = (r, st') ->
  r <> Normal tt -> this st' = this st.
Proof.
  unfold groupedOptions. rewrite bind_unfold.
  destruct (groupedOptions_values i18nKey groups st) as [[vs | e |] st1] eqn:Hv.
  - simpl. intros [= <- <-] Hr. by destruct Hr.
  - intros [= <- <-] _.
    eapply (keeps_elim _ _ _ _ _ (keeps_this_groupedOptions_values i18nKey (this st) groups));
      [reflexivity | exact Hv].
  - intros [= <- <-] _.
    eapply (keeps_elim _ _ _ _ _ (keeps_this_groupedOptions_values i18nKey (this st) groups));
      [reflexivity | exact Hv].
Qed.

Lemma options_failure_this i18nKey opts st r st' :
  options i18nKey opts st = (r, st') ->
  r <> Normal tt -> this st' = this st.
Proof.
  unfold options. rewrite bind_unfold.
  destruct (options_values i18nKey opts st) as [[vs | e |] st1] eqn:Hv.
  - simpl. intros [= <- <-] Hr. by destruct Hr.
  - intros [= <- <-] _.
    eapply (keeps_elim _ _ _ _ _ (keeps_this_options_values i18nKey (this st) opts));
      [reflexivity | exact Hv].
  - intros [= <- <-] _.
    eapply (keeps_elim _ _ _ _ _ (keeps_this_options_values i18nKey (this st) opts));
      [reflexivity | exact Hv].
Qed.

(** ** The two explicit [TypeError]s *)

Lemma options_values_not_object i18nKey v st :
  is_array (store st) v = false -> is_object (store st) v = false ->
  options_values i18nKey v st =
    (Throw (TypeError (typeof v +:+ " not valid for options")), st).
Proof.
  intros Ha Ho. unfold options_values.
  rewrite bind_unfold. simpl. rewrite Ha.
  rewrite bind_unfold. simpl. rewrite Ho. reflexivity.
Qed.

Lemma groupedOptions_values_not_object i18nKey v st :
  is_array (store st) v = false -> is_object (store st) v = false ->
  groupedOptions_values i18nKey v st =
    (Throw (TypeError (typeof v +:+ " not valid for options group")), st).
Proof.
  intros Ha Ho. unfold groupedOptions_values.
  rewrite bind_unfold. simpl. rewrite Ha.
  rewrite bind_unfold. simpl. rewrite Ho. reflexivity.
Qed.

Lemma groupedOptions_values_array i18nKey l es ps st :
  store st !! l = Some (Obj (KArray es) ps) ->
  groupedOptions_values i18nKey (VRef l) st =
    for_acc es [] (groupedOptions_array_group i18nKey) st.
Proof.
  intros Hl. unfold groupedOptions_values.
  rewrite bind_unfold. simpl. rewrite Hl. simpl.
  rewrite bind_unfold. unfold iterate. rewrite Hl. reflexivity.
Qed.

Lemma options_values_array i18nKey l es ps st :
  store st !! l = Some (Obj (KArray es) ps) ->
  options_values i18nKey (VRef l) st =
    for_acc es [] (options_array_item i18nKey) st.
Proof.
  intros Hl. unfold options_values.
  rewrite bind_unfold. simpl. rewrite Hl. simpl.
  rewrite bind_unfold. unfold iterate. rewrite Hl. reflexivity.
Qed.

Lemma groupedOptions_array_group_not_object i18nKey values group st :
  is_object (store st) group = false ->
  groupedOptions_array_group i18nKey values group st =
    (Throw (TypeError (typeof group +:+ " not valid for options group item")), st).
Proof.
  intros Ho. unfold groupedOptions_array_group.
  rewrite bind_unfold. simpl. rewrite Ho. reflexivity.
Qed.

(** The loop over an array argument allocates nothing. *)
Lemma keeps_length_groupedOptions_array_group i18nKey n values group :
  keeps (fun st => length (store st) = n)
    (groupedOptions_array_group i18nKey values group).
Proof.
  unfold groupedOptions_array_group, groupedOptions_array_option.
  repeat (keeps_prims ltac:(simpl; rewrite length_alter; assumption)).
Qed.

Lemma is_object_length h h' v :
  length h = length h' -> is_object h v = is_object h' v.
Proof.
  intros Hlen. destruct v as [| | | | | l]; simpl; auto.
  apply bool_decide_ext. rewrite !lookup_lt_is_Some. lia.
Qed.

Lemma groupedOptions_array_never_normal i18nKey bad es :
  bad ∈ es ->
  forall values st vs st',
    is_object (store st) bad = false ->
    for_acc es values (groupedOptions_array_group i18nKey) st <> (Normal vs, st').
Proof.
  induction es as [| x es IH]; intros Hin values st vs st' Hbad.
  - by apply elem_of_nil in Hin.
  - simpl. rewrite bind_unfold.
    destruct (groupedOptions_array_group i18nKey values x st) as [[acc | e |] st1] eqn:Hx;
      try discriminate.
    apply elem_of_cons in Hin as [<- | Hin].
    + rewrite groupedOptions_array_group_not_object in Hx by done. discriminate.
    + apply IH; [done |].
      rewrite <- Hbad. apply is_object_length.
      eapply (keeps_elim _ _ _ _ _
                (keeps_length_groupedOptions_array_group i18nKey (length (store st)) values x));
        [reflexivity | exact Hx].
Qed.

Lemma lookup_prop_NoDup k v ps :
  NoDup ps.*1 -> (k, v) ∈ ps -> lookup_prop k ps = Some v.
Proof.
  induction ps as [| [k0 v0] ps IH]; simpl; intros Hnd Hin.
  - by apply elem_of_nil in Hin.
  - apply NoDup_cons in Hnd as [Hnin Hnd].
    apply elem_of_cons in Hin as [[= -> ->] | Hin].
    + by rewrite decide_True.
    + rewrite decide_False; [by apply IH |].
      intros ->. apply Hnin. apply list_elem_of_fmap. by exists (k0, v).
Qed.

(** ** Running the primitives on a known state *)

Lemma New_run k ps t h :
  New k ps (State t h) = (Normal (VRef (length h)), State t (h ++ [Obj k ps])).
Proof. reflexivity. Qed.

Lemma Get_run l k o t h :
  h !! l = Some o -> Get (VRef l) k (State t h) = (Normal (object_get o k), State t h).
Proof. intros H. unfold Get. simpl. by rewrite H. Qed.

Lemma GetIndex_run l i o t h :
  h !! l = Some o ->
  GetIndex (VRef l) i (State t h) = (Normal (object_get_index o i), State t h).
Proof. intros H. unfold GetIndex. simpl. by rewrite H. Qed.

Lemma Put_run l k w o t h :
  h !! l = Some o ->
  Put (VRef l) k w (State t h) = (Normal tt, State t (alter (put_prop k w) l h)).
Proof. intros H. unfold Put. simpl. by rewrite H. Qed.

Lemma Push_run l x es ps t h :
  h !! l = Some (Obj (KArray es) ps) ->
  Push (VRef l) x (State t h) = (Normal tt, State t (alter (push_elem x) l h)).
Proof. intros H. unfold Push. simpl. by rewrite H. Qed.

Lemma page_headers_run t h :
  page_headers (State t h) = (Normal (headers (_page (_section t))), State t h).
Proof. reflexivity. Qed.

Lemma get_this_run t h : get_this (State t h) = (Normal t, State t h).
Proof. reflexivity. Qed.

Lemma Array_isArray_run v t h :
  Array_isArray v (State t h) = (Normal (is_array h v), State t h).
Proof. reflexivity. Qed.

Lemma instanceof_Object_run v t h :
  instanceof_Object v (State t h) = (Normal (is_object h v), State t h).
Proof. reflexivity. Qed.

Lemma instanceof_String_run v t h :
  instanceof_String v (State t h) = (Normal (is_String_object h v), State t h).
Proof. reflexivity. Qed.

Lemma own_keys_of_run l o t h :
  h !! l = Some o -> own_keys_of (VRef l) (State t h) = (Normal (own_keys o), State t h).
Proof. intros H. unfold own_keys_of. simpl. by rewrite H. Qed.

Lemma iterate_array_run l es ps t h :
  h !! l = Some (Obj (KArray es) ps) ->
  iterate (VRef l) (State t h) = (Normal es, State t h).
Proof. intros H. unfold iterate. simpl. by rewrite H. Qed.

Lemma printable_primitive v : printable v -> primitive v.
Proof. by destruct v. Qed.

Lemma text_printable h v : printable v -> text h v = Some (prim_string v).
Proof.
  unfold text. destruct v as [| | b | n | s | l]; try done; simpl.
  by intros ->.
Qed.

Lemma ToString_text v s t h :
  text h v = Some s -> ToString v (State t h) = (Normal s, State t h).
Proof. unfold ToString, text. simpl. by intros ->. Qed.

Lemma ToString_prim v st :
  printable v -> ToString v st = (Normal (prim_string v), st).
Proof.
  intros Hv. destruct st as [t h]. by apply ToString_text, text_printable.
Qed.

Lemma i18nOptionKey_prim i18nKey v t h :
  printable (_id t) -> printable v ->
  i18nOptionKey i18nKey v (State t h) = (Normal (option_key i18nKey t v), State t h).
Proof.
  intros Hid Hv. unfold i18nOptionKey.
  rewrite bind_unfold, get_this_run.
  rewrite bind_unfold, (ToString_prim _ _ Hid).
  rewrite bind_unfold, (ToString_prim _ _ Hv). reflexivity.
Qed.

Lemma i18nOptionGroupKey_prim i18nKey v t h :
  printable (_id t) -> printable v ->
  i18nOptionGroupKey i18nKey v (State t h) = (Normal (group_key i18nKey t v), State t h).
Proof.
  intros Hid Hv. unfold i18nOptionGroupKey.
  rewrite bind_unfold, get_this_run.
  rewrite bind_unfold, (ToString_prim _ _ Hid).
  rewrite bind_unfold, (ToString_prim _ _ Hv). reflexivity.
Qed.

Lemma i18nOptionGroupOptionKey_prim i18nKey g v t h :
  printable (_id t) -> printable g -> printable v ->
  i18nOptionGroupOptionKey i18nKey g v (State t h)
    = (Normal (group_option_key i18nKey t g v), State t h).
Proof.
  intros Hid Hg Hv. unfold i18nOptionGroupOptionKey.
  rewrite bind_unfold, get_this_run.
  rewrite bind_unfold, (ToString_prim _ _ Hid).
  rewrite bind_unfold, (ToString_prim _ _ Hg).
  rewrite bind_unfold, (ToString_prim _ _ Hv). reflexivity.
Qed.

(** ** Reading back is stable when the heap grows *)

Lemma read_array_app h e v es :
  read_array h v = Some es -> read_array (h ++ e) v = Some es.
Proof.
  destruct v as [| | | | | l]; simpl; try discriminate.
  destruct (h !! l) as [o |] eqn:Hl; simpl; [| discriminate].
  by rewrite (lookup_app_l_Some _ _ _ _ Hl).
Qed.

Lemma read_option_app h e v x :
  read_option h v = Some x -> read_option (h ++ e) v = Some x.
Proof.
  destruct v as [| | | | | l]; simpl; try discriminate.
  destruct (h !! l) as [o |] eqn:Hl; simpl; [| discriminate].
  by rewrite (lookup_app_l_Some _ _ _ _ Hl).
Qed.

Lemma mapM_mono {A B} (f g : A -> option B) (xs : list A) (ys : list B) :
  (forall x y, f x = Some y -> g x = Some y) ->
  mapM f xs = Some ys -> mapM g xs = Some ys.
Proof.
  intros Hfg. rewrite !mapM_Some. intros H.
  eapply Forall2_impl; [exact H |]. auto.
Qed.

Lemma read_options_app h e v xs :
  read_options h v = Some xs -> read_options (h ++ e) v = Some xs.
Proof.
  unfold read_options. intros H.
  destruct (read_array h v) as [es |] eqn:Hes; simpl in H; [| discriminate].
  rewrite (read_array_app _ e _ _ Hes). simpl.
  eapply mapM_mono; [| exact H]. intros. by apply read_option_app.
Qed.

Lemma read_group_app h e v x :
  read_group h v = Some x -> read_group (h ++ e) v = Some x.
Proof.
  destruct v as [| | | | | l]; simpl; try discriminate.
  destruct (h !! l) as [o |] eqn:Hl; simpl; [| discriminate].
  rewrite (lookup_app_l_Some _ _ _ _ Hl). simpl.
  destruct (read_options h (object_get o "options")) as [os |] eqn:Hos;
    simpl; [| discriminate].
  by rewrite (read_options_app _ e _ _ Hos).
Qed.

(** ** Symbolic execution *)

Create HintDb js_heap.

#[local] Hint Resolve lookup_app_l_Some lookup_app_len : js_heap.

(** One step of a computation whose next primitive is determined by what
    is known about the heap. *)
Ltac js_run_step :=
  first
    [ rewrite bind_unfold
    | rewrite ret_unfold
    | rewrite New_run
    | rewrite page_headers_run
    | rewrite get_this_run
    | rewrite Array_isArray_run
    | rewrite instanceof_Object_run
    | rewrite instanceof_String_run
    | erewrite Get_run by eauto with js_heap
    | erewrite GetIndex_run by eauto with js_heap
    | erewrite Put_run by eauto with js_heap
    | erewrite Push_run by eauto with js_heap
    | erewrite own_keys_of_run by eauto with js_heap
    | erewrite iterate_array_run by eauto with js_heap
    | rewrite i18nOptionKey_prim by first [done | eauto]
    | rewrite i18nOptionGroupKey_prim by first [done | eauto]
    | rewrite i18nOptionGroupOptionKey_prim by first [done | eauto] ];
  cbv beta iota.

(** Reads of the properties of an object literal. *)
Ltac js_get :=
  repeat first
    [ rewrite object_get_plain_first
    | rewrite object_get_plain_second by discriminate ].

(** Assignments to the object allocated last. *)
Ltac js_put :=
  repeat first
    [ rewrite alter_app_len
    | rewrite put_prop_first
    | rewrite put_prop_second by discriminate ].

Ltac js_run := repeat first [js_run_step | progress js_get | progress js_put].

(** Closed facts about concrete lists. *)
Ltac decide_closed :=
  match goal with |- ?P => apply (@bool_decide_unpack P _) end; vm_compute; exact I.

(** ** Texts are stable when the heap grows *)

Lemma to_string_app fuel :
  forall fuel' h e seen v s,
    fuel <= fuel' ->
    to_string fuel h seen v = Some s ->
    to_string fuel' (h ++ e) seen v = Some s.
Proof.
  induction fuel as [| f IH]; intros fuel' h e seen v s Hle Hs.
  all: destruct v as [| | b | n | str | l]; try (by destruct fuel').
  all: simpl in Hs; destruct (h !! l) as [o |] eqn:Hl; [| done].
  all: assert (forall g, to_string g (h ++ e) seen (VRef l)
                         = match kind_of o with
                           | KPlain => Some "[object Object]"
                           | KString s => Some s
                           | KArray es =>
                               if decide (l ∈ seen) then Some ""
                               else match g with
                                    | 0 => None
                                    | S g' =>
                                        join "," <$>
                                          mapM (fun e0 =>
                                                  match e0 with
                                                  | VUndef | VNull => Some ""
                                                  | _ => to_string g' (h ++ e) (l :: seen) e0
                                                  end) es
                                    end
                           end) as Hstep
      by (intros g; destruct g; simpl;
          by rewrite (lookup_app_l_Some _ _ _ _ Hl)).
  all: rewrite Hstep; simpl in Hs; destruct (kind_of o) as [| es | str];
    try done; destruct (decide (l ∈ seen)); try done.
  destruct fuel' as [| f']; [lia |].
  apply fmap_Some in Hs as (ss & Hss & ->).
  erewrite mapM_mono; [done | | exact Hss].
  intros x y Hx. destruct x; try done; (apply IH; [lia | done]).
Qed.

Lemma text_prefix h0 h v s :
  h0 `prefix_of` h -> text h0 v = Some s -> text h v = Some s.
Proof.
  intros [e ->]. unfold text. apply to_string_app. rewrite length_app. lia.
Qed.

Lemma i18nOptionGroupOptionKey_text i18nKey g v s t h :
  printable (_id t) -> printable g -> text h v = Some s ->
  i18nOptionGroupOptionKey i18nKey g v (State t h)
  = (Normal (VStr (i18nKey ("settings." +:+ prim_string (_id t) +:+ ".groups."
                              +:+ prim_string g +:+ ".options." +:+ s +:+ ".name"))),
     State t h).
Proof.
  intros Hid Hg Hv. unfold i18nOptionGroupOptionKey.
  rewrite bind_unfold, get_this_run.
  rewrite bind_unfold, (ToString_prim _ _ Hid).
  rewrite bind_unfold, (ToString_prim _ _ Hg).
  rewrite bind_unfold, (ToString_text _ _ _ _ Hv). reflexivity.
Qed.

Lemma Forall_under (P : Prop) {A} (Q : A -> Prop) (xs : list A) :
  (P -> Forall Q xs) -> Forall (fun x => P -> Q x) xs.
Proof.
  intros H. apply Forall_forall. intros x Hx HP.
  specialize (H HP). rewrite Forall_forall in H. by apply H.
Qed.

(** ** The mapping branch of [groupedOptions] *)

Lemma mapping_group_name_primitive i18nKey t property :
  primitive (mapping_group_name i18nKey t property).
Proof. unfold mapping_group_name. by destruct (localized t). Qed.

Lemma mapping_group_name_printable i18nKey t property :
  printable (mapping_group_name i18nKey t property).
Proof. unfold mapping_group_name. by destruct (localized t). Qed.

Section MappingBranch.

Variable i18nKey : string -> string.
Variable t : EnumSetting.
Hypothesis Hid : localized t = true -> printable (_id t).

(** The heap the call starts from, in which the names to convert have
    their text. *)
Variable h0 : heap.

#[local] Hint Resolve mapping_group_name_primitive mapping_group_name_printable : core.

Lemma mapping_option_name_run gn property (name : value) h :
  h0 `prefix_of` h ->
  gn = mapping_group_name i18nKey t property ->
  (localized t = true -> convertible h0 name) ->
  (if truthy (headers (_page (_section t)))
   then i18nOptionGroupOptionKey i18nKey gn name else mret name) (State t h)
  = (Normal (mapping_option_name i18nKey t h0 property name), State t h).
Proof.
  intros Hpre -> Hconv. unfold mapping_option_name.
  change (truthy (headers (_page (_section t)))) with (localized t).
  destruct (localized t) eqn:Hloc; [| done].
  destruct (Hconv eq_refl) as [s Hs].
  rewrite (i18nOptionGroupOptionKey_text _ _ _ s _ _ (Hid eq_refl)
             (mapping_group_name_printable _ _ _) (text_prefix _ _ _ _ Hpre Hs)).
  unfold group_option_key_in. by rewrite Hs.
Qed.

Lemma mapped_option_run lgrp gobj property mapped name h :
  h0 `prefix_of` h ->
  h !! lgrp = Some gobj ->
  object_get gobj "name" = mapping_group_name i18nKey t property ->
  (localized t = true -> convertible h0 name) ->
  groupedOptions_mapped_option i18nKey (VRef lgrp) mapped name (State t h)
  = (Normal (mapped ++ [VRef (length h)]),
     State t (h ++ [Obj KPlain [("id", name);
                                ("name", mapping_option_name i18nKey t h0 property name)]])).
Proof.
  intros Hpre Hg Hname Hconv. unfold groupedOptions_mapped_option.
  js_run.
  pose proof (mapping_option_name_run _ property name h Hpre Hname Hconv) as Hrun.
  destruct (truthy (headers (_page (_section t)))) eqn:Hhd.
  - js_run. rewrite Hrun. js_run. reflexivity.
  - rewrite Hrun. js_run. reflexivity.
Qed.

Lemma mapped_options_run lgrp gobj property es :
  Forall (fun e => localized t = true -> convertible h0 e) es ->
  object_get gobj "name" = mapping_group_name i18nKey t property ->
  forall mapped h,
    h0 `prefix_of` h ->
    h !! lgrp = Some gobj ->
    for_acc es mapped (groupedOptions_mapped_option i18nKey (VRef lgrp)) (State t h)
    = (Normal (mapped ++ map VRef (seq (length h) (length es))),
       State t (h ++ map (fun e =>
                  Obj KPlain [("id", e);
                              ("name", mapping_option_name i18nKey t h0 property e)]) es)).
Proof.
  intros Hes Hname. induction Hes as [| e es He Hes IH]; intros mapped h Hpre Hg.
  - simpl. by rewrite !app_nil_r.
  - simpl. rewrite bind_unfold.
    rewrite (mapped_option_run _ _ property _ _ _ Hpre Hg Hname He).
    rewrite IH by (by first [apply prefix_app_r | apply lookup_app_l_Some]).
    rewrite length_app. simpl.
    rewrite <- !app_assoc. simpl.
    by replace (length h + 1) with (S (length h)) by lia.
Qed.

Lemma keyed_option_run lgrp lopts property (lsrc : loc) src acc k h ps :
  h0 `prefix_of` h ->
  h !! lsrc = Some src ->
  (localized t = true -> convertible h0 (object_get src k)) ->
  h !! lgrp = Some (Obj KPlain [("name", mapping_group_name i18nKey t property);
                                ("options", VRef lopts)]) ->
  h !! lopts = Some (Obj (KArray acc) ps) ->
  groupedOptions_keyed_option i18nKey (VRef lgrp) (VRef lsrc) (VRef lgrp) k (State t h)
  = (Normal tt,
     State t (alter (push_elem (VRef (length h))) lopts
                (h ++ [Obj KPlain
                         [("id", VStr k);
                          ("name", mapping_option_name i18nKey t h0 property
                                     (object_get src k))]]))).
Proof.
  intros Hpre Hsrc Hconv Hg Ho. unfold groupedOptions_keyed_option.
  js_run.
  pose proof (mapping_option_name_run (mapping_group_name i18nKey t property)
                property (object_get src k)
                (h ++ [Obj KPlain [("id", VStr k); ("name", object_get src k)]])
                ltac:(by apply prefix_app_r) eq_refl Hconv) as Hrun.
  destruct (truthy (headers (_page (_section t)))) eqn:Hhd.
  - js_run. rewrite Hrun. js_run. reflexivity.
  - rewrite Hrun. js_run. reflexivity.
Qed.


Lemma keyed_options_run (pre : heap) gobj property (lsrc : loc) src ks :
  h0 `prefix_of` pre ->
  Forall (fun k => localized t = true -> convertible h0 (object_get src k)) ks ->
  pre !! lsrc = Some src ->
  gobj = Obj KPlain [("name", mapping_group_name i18nKey t property);
                     ("options", VRef (length pre))] ->
  forall opts,
    for_each ks
      (groupedOptions_keyed_option i18nKey (VRef (length pre + 1)) (VRef lsrc)
         (VRef (length pre + 1)))
      (State t (pre ++ Obj (KArray (map VRef (seq (length pre + 2) (length opts)))) []
                    :: gobj :: opts))
    = (Normal tt,
       State t (pre ++ Obj (KArray (map VRef (seq (length pre + 2)
                                               (length opts + length ks)))) []
                    :: gobj
                    :: (opts ++ map (fun k =>
                          Obj KPlain
                            [("id", VStr k);
                             ("name", mapping_option_name i18nKey t h0 property
                                        (object_get src k))]) ks))).
Proof.
  intros Hpre Hks Hsrc ->. induction Hks as [| k ks Hk Hks IH]; intros opts.
  - simpl. by rewrite Nat.add_0_r, app_nil_r.
  - unfold for_each in *. simpl. rewrite bind_unfold.
    erewrite (keyed_option_run (length pre + 1) (length pre) property lsrc src);
      [| by apply prefix_app_r | by apply lookup_app_l_Some | done | |].
    2:{ by rewrite lookup_app_plus. }
    2:{ apply lookup_app_len. }
    cbv beta iota.
    rewrite <- app_assoc. simpl app.
    rewrite alter_app_len. unfold push_elem at 1. simpl.
    specialize (IH (opts ++ [Obj KPlain
                               [("id", VStr k);
                                ("name", mapping_option_name i18nKey t h0 property
                                           (object_get src k))]])).
    rewrite length_app in IH. simpl in IH.
    rewrite length_app. simpl.
    rewrite seq_app, map_app in IH. simpl in IH.
    replace (length pre + 2 + length opts)
      with (length pre + S (S (length opts))) in IH by lia.
    replace (length opts + 1 + length ks)
      with (length opts + S (length ks)) in IH by lia.
    etrans; [exact IH |]. by rewrite <- !app_assoc.
Qed.


Lemma read_options_fresh (H : heap) (objs : list object) base n :
  n = length objs ->
  (forall j o, objs !! j = Some o -> H !! (base + j) = Some o) ->
  mapM (read_option H) (map VRef (seq base n))
  = Some (map (fun o => (object_get o "id", object_get o "name")) objs).
Proof.
  intros -> Hobjs. apply mapM_Some. apply Forall2_fmap.
  apply Forall2_same_length_lookup_2.
  - by rewrite length_seq.
  - intros i l o [-> _]%lookup_seq Ho. unfold read_option.
    by rewrite (Hobjs i o Ho).
Qed.

(** Normal form of a grown heap: the old heap followed by the new objects,
    locations written as offsets from the old length. *)
Ltac heap_norm :=
  rewrite <- ?app_assoc, ?length_app; cbn [app length];
  rewrite <- ?Nat.add_assoc; cbn [Nat.add].

#[local] Hint Resolve lookup_app_plus1 lookup_app_plus0 : js_heap.

Lemma mapping_entry_run (lg : loc) (og : object) :
  h0 !! lg = Some og ->
  forall (e : heap) (values : list value) (property : string),
    indexOf property (own_keys og) = Some (length values) ->
    mapping_value_ok t h0 (object_get og property) ->
    exists ext,
      groupedOptions_mapping_entry i18nKey (VRef lg) values property
        (State t (h0 ++ e))
      = (Normal (values ++ [VRef (length (h0 ++ e) + 1)]),
         State t ((h0 ++ e) ++ ext)) /\
      read_group ((h0 ++ e) ++ ext) (VRef (length (h0 ++ e) + 1))
      = Some (mapping_group i18nKey t h0 og property).
Proof.
  intros Hlg e values property Hidx Hsimple.
  set (h := h0 ++ e).
  assert (h0 `prefix_of` h) as Hpre by (by apply prefix_app_r).
  assert (h !! lg = Some og) as Hlg' by (by apply lookup_app_l_Some).
  unfold groupedOptions_mapping_entry.
  js_run. rewrite Hidx.
  assert (forall H : heap,
    (if truthy (headers (_page (_section t)))
     then i18nOptionGroupKey i18nKey (VStr property)
     else mret (VStr property)) (State t H)
    = (Normal (mapping_group_name i18nKey t property), State t H)) as Hname.
  { intros H. unfold mapping_group_name, localized.
    destruct (truthy (headers (_page (_section t)))) eqn:Hhd;
      [pose proof (Hid Hhd) |]; by js_run. }
  rewrite Hname.
  js_run. rewrite at_index_snoc.
  unfold mapping_group. unfold mapping_options.
  destruct (object_get og property) as [| | b | n | s | l] eqn:Hv.
  6:{ simpl in Hsimple.
      destruct (h0 !! l) as [[kd ps] |] eqn:Hl; [| done].
      assert (h !! l = Some (Obj kd ps)) as Hl' by (by apply lookup_app_l_Some).
      erewrite is_array_ref by eauto with js_heap.
      destruct kd as [| es | str]; cbn [kind_of] in *; cbv beta iota;
        apply Forall_under in Hsimple.
      2:{ (* an array *)
        js_run.
        erewrite (mapped_options_run _ _ property es Hsimple);
          [| by js_get | by repeat first [assumption | apply prefix_app_r]
           | apply lookup_app_len ].
        js_run. heap_norm.
        rewrite alter_app_plus1, put_prop_second by discriminate.
        eexists (_ :: _ :: _); split; [reflexivity |].
        unfold read_group. rewrite lookup_app_plus1.
        cbn [mbind option_bind]. js_get.
        unfold read_options, read_array. rewrite lookup_app_plus2_end.
        cbn [fmap option_fmap option_map kind_of mbind option_bind].
        match goal with
        | |- context [mapM (read_option ?H) (map VRef (seq ?b0 ?n0))] =>
            rewrite (read_options_fresh H
                       (map (fun e0 => Obj KPlain
                               [("id", e0);
                                ("name", mapping_option_name i18nKey t h0 property e0)])
                            es) b0 n0)
        end.
        - by rewrite map_map.
        - by rewrite length_map.
        - intros j o Hj. rewrite <- Nat.add_assoc, lookup_app_plus.
          simpl. by apply lookup_app_l_Some. }
      all: (* an object that is not an array *)
        js_run; (erewrite is_object_ref by eauto with js_heap);
        js_run; heap_norm;
        match type of Hl' with
        | _ = Some ?src =>
            pose proof (keyed_options_run h _ property l src
                          (own_keys src) Hpre Hsimple Hl' eq_refl []) as Hrun;
            cbn [length seq map app Nat.add] in Hrun;
            rewrite Hrun; cbv beta iota;
            eexists (_ :: _ :: _); split; [reflexivity |];
            unfold read_group; rewrite lookup_app_plus1;
            cbn [mbind option_bind]; js_get;
            unfold read_options, read_array; rewrite lookup_app_len;
            cbn [fmap option_fmap option_map kind_of mbind option_bind];
            match goal with
            | |- context [mapM (read_option ?H) (map VRef (seq ?b0 ?n0))] =>
                rewrite (read_options_fresh H
                           (map (fun k => Obj KPlain
                                   [("id", VStr k);
                                    ("name", mapping_option_name i18nKey t h0 property
                                               (object_get src k))])
                                (own_keys src)) b0 n0)
            end;
            [ by rewrite map_map
            | by rewrite length_map
            | intros j o Hj; rewrite <- Nat.add_assoc, lookup_app_plus; exact Hj ]
        end. }
  all: rewrite is_array_primitive by done; cbv beta iota; js_run.
  all: rewrite is_object_primitive by done; cbv beta iota; js_run.
  all: heap_norm; eexists [_; _]; split; [reflexivity |].
  all: unfold read_group; rewrite lookup_app_plus1.
  all: cbn [mbind option_bind]; js_get.
  all: unfold read_options, read_array; rewrite lookup_app_len; reflexivity.
Qed.


Lemma mapping_loop_run (lg : loc) (og : object) :
  h0 !! lg = Some og ->
  NoDup (own_keys og) ->
  Forall (fun k => mapping_value_ok t h0 (object_get og k)) (own_keys og) ->
  forall ks done values e,
    own_keys og = done ++ ks ->
    length values = length done ->
    mapM (read_group (h0 ++ e)) values
      = Some (map (mapping_group i18nKey t h0 og) done) ->
    exists values' ext,
      for_acc ks values (groupedOptions_mapping_entry i18nKey (VRef lg))
        (State t (h0 ++ e))
      = (Normal values', State t (h0 ++ ext)) /\
      mapM (read_group (h0 ++ ext)) values'
      = Some (map (mapping_group i18nKey t h0 og) (done ++ ks)).
Proof.
  intros Hlg Hnodup Hsimple ks.
  induction ks as [| k ks IH]; intros done values e Hkeys Hlen Hread.
  - exists values, e. by rewrite app_nil_r.
  - assert (k ∉ done) as Hfresh.
    { rewrite Hkeys in Hnodup. apply NoDup_app in Hnodup as (_ & Hdis & _).
      intros Hin. apply (Hdis k Hin). left. }
    assert (mapping_value_ok t h0 (object_get og k)) as Hk.
    { rewrite Forall_forall in Hsimple. apply Hsimple.
      rewrite Hkeys. apply elem_of_app. right. left. }
    destruct (mapping_entry_run lg og Hlg e values k) as (ext1 & Hrun & Hgrp);
      [ by rewrite Hkeys, Hlen, indexOf_app_fresh | exact Hk |].
    simpl. rewrite bind_unfold, Hrun.
    rewrite <- app_assoc in Hgrp |- *.
    destruct (IH (done ++ [k]) (values ++ [VRef (length (h0 ++ e) + 1)]) (e ++ ext1))
      as (values' & ext & Hloop & Hall).
    + by rewrite <- app_assoc.
    + rewrite !length_app. simpl. lia.
    + apply mapM_Some. rewrite map_app. apply Forall2_app.
      * apply mapM_Some in Hread. eapply Forall2_impl; [exact Hread |].
        intros v g Hv. rewrite app_assoc. by apply read_group_app.
      * simpl. by constructor.
    + exists values', ext. split; [exact Hloop |].
      by rewrite <- app_assoc in Hall.
Qed.

(** The mapping branch as a whole: the call succeeds, only adds objects to
    the heap, and stores the groups of the closed form, in key order. *)
Lemma groupedOptions_mapping_run (lg : loc) (og : object) :
  h0 !! lg = Some og ->
  is_array h0 (VRef lg) = false ->
  NoDup (own_keys og) ->
  Forall (fun k => mapping_value_ok t h0 (object_get og k)) (own_keys og) ->
  exists arr ext,
    groupedOptions i18nKey (VRef lg) (State t h0)
    = (Normal tt, State (with_groupedOptions arr t) (h0 ++ ext)) /\
    read_groups (h0 ++ ext) arr
    = Some (map (mapping_group i18nKey t h0 og) (own_keys og)).
Proof.
  intros Hlg Harr Hnodup Hsimple.
  destruct (mapping_loop_run lg og Hlg Hnodup Hsimple (own_keys og) [] [] [])
    as (values & ext & Hloop & Hall); [done | done | done |].
  rewrite app_nil_r in Hloop.
  exists (VRef (length (h0 ++ ext))), (ext ++ [Obj (KArray values) []]).
  split.
  - unfold groupedOptions, groupedOptions_values.
    js_run. rewrite Harr. js_run.
    erewrite is_object_ref by eauto. js_run.
    rewrite Hloop. js_run. unfold set_this. simpl.
    by rewrite <- app_assoc.
  - unfold read_groups, read_array. rewrite app_assoc, lookup_app_len.
    simpl. eapply mapM_mono; [| exact Hall].
    intros v g Hv. by apply read_group_app.
Qed.

End MappingBranch.

Lemma mapping_options_keyed i18nKey t h property v :
  mapping_options i18nKey t h property v
  = map (fun p => (p.1, mapping_option_name i18nKey t h property p.2))
        (keyed_options h v).
Proof.
  unfold mapping_options, keyed_options.
  destruct v as [| | | | | l]; try done.
  destruct (h !! l) as [[[| es | s] ps] |]; simpl; try done;
    by rewrite map_map.
Qed.

(** ** Renaming leaves the structure alone *)

Lemma length_rename f l h : length (rename f l h) = length h.
Proof. apply length_alter. Qed.

Lemma length_rename_all f ls h : length (rename_all f ls h) = length h.
Proof.
  revert h. induction ls as [| l ls IH]; intros h; simpl; [done |].
  unfold rename_all in *. simpl. by rewrite IH, length_rename.
Qed.

Lemma rename_lookup_eq f l h o :
  h !! l = Some o ->
  rename f l h !! l = Some (put_prop "name" (f (object_get o "name")) o).
Proof. intros H. unfold rename. by rewrite list_lookup_alter_eq, H. Qed.

Lemma rename_lookup_ne f l l' h : l <> l' -> rename f l h !! l' = h !! l'.
Proof. intros H. unfold rename. by rewrite list_lookup_alter_ne. Qed.

Lemma rename_lookup f l l' h :
  rename f l h !! l'
  = (fun o => if decide (l = l') then put_prop "name" (f (object_get o "name")) o
              else o) <$> h !! l'.
Proof.
  destruct (decide (l = l')) as [-> | Hne].
  - unfold rename. rewrite list_lookup_alter_eq. by destruct (h !! l').
  - rewrite rename_lookup_ne by done. by destruct (h !! l').
Qed.

Lemma rename_kind f l l' h : kind_of <$> rename f l h !! l' = kind_of <$> h !! l'.
Proof. rewrite rename_lookup. destruct (h !! l'); simpl; [| done]. by case_decide. Qed.

Lemma rename_get f l l' h k :
  k <> "name" ->
  (fun o => object_get o k) <$> rename f l h !! l'
  = (fun o => object_get o k) <$> h !! l'.
Proof.
  intros Hk. rewrite rename_lookup. destruct (h !! l') as [o |]; simpl; [| done].
  case_decide; [| done]. by rewrite object_get_put_prop_ne.
Qed.

Lemma Put_name_rename f l o h :
  h !! l = Some o ->
  alter (put_prop "name" (f (object_get o "name"))) l h = rename f l h.
Proof.
  intros H. unfold rename. apply list_alter_ext; [| done].
  intros o' Ho'. by simplify_eq.
Qed.

Lemma iterable_of_rename f l h v : iterable_of (rename f l h) v = iterable_of h v.
Proof.
  destruct v as [| | | | | a]; simpl; try done.
  pose proof (rename_kind f l a h) as Hk.
  destruct (rename f l h !! a), (h !! a); simplify_eq/=; by try rewrite Hk.
Qed.

Lemma option_locs_rename f l h l' : option_locs (rename f l h) l' = option_locs h l'.
Proof.
  unfold option_locs.
  pose proof (rename_get f l l' h "options" ltac:(discriminate)) as Hget.
  destruct (rename f l h !! l') as [o1 |], (h !! l') as [o2 |]; simplify_eq/=;
    try done.
  by rewrite Hget, iterable_of_rename.
Qed.

Lemma option_locs_rename_all f ls h l' :
  option_locs (rename_all f ls h) l' = option_locs h l'.
Proof.
  revert h. induction ls as [| l ls IH]; intros h; [done |].
  unfold rename_all in *. simpl. by rewrite IH, option_locs_rename.
Qed.

Lemma rename_all_lookup_notin f ls h l :
  l ∉ ls -> rename_all f ls h !! l = h !! l.
Proof.
  revert h. induction ls as [| l0 ls IH]; intros h Hnin; [done |].
  apply not_elem_of_cons in Hnin as [Hne Hnin].
  unfold rename_all in *. simpl. rewrite IH by done.
  by apply rename_lookup_ne.
Qed.

Lemma rename_all_lookup_in f ls h l o :
  NoDup ls -> l ∈ ls -> h !! l = Some o ->
  rename_all f ls h !! l = Some (put_prop "name" (f (object_get o "name")) o).
Proof.
  revert h. induction ls as [| l0 ls IH]; intros h Hnd Hin Hl.
  - by apply elem_of_nil in Hin.
  - apply NoDup_cons in Hnd as [Hnin Hnd].
    unfold rename_all in *. simpl.
    apply elem_of_cons in Hin as [-> | Hin].
    + fold (rename_all f ls (rename f l0 h)).
      rewrite rename_all_lookup_notin by done. by apply rename_lookup_eq.
    + apply IH; [done | done |].
      rewrite rename_lookup_ne; [done |]. intros ->. by apply Hnin.
Qed.

Lemma rename_all_app f ls1 ls2 h :
  rename_all f (ls1 ++ ls2) h = rename_all f ls2 (rename_all f ls1 h).
Proof. unfold rename_all. by rewrite foldl_app. Qed.

Lemma rename_app_l f l h e :
  l < length h -> rename f l (h ++ e) = rename f l h ++ e.
Proof. intros Hl. unfold rename. by rewrite alter_app_l. Qed.

Lemma rename_all_app_l f ls h e :
  Forall (fun l => l < length h) ls ->
  rename_all f ls (h ++ e) = rename_all f ls h ++ e.
Proof.
  revert h. induction ls as [| l ls IH]; intros h Hls; [done |].
  apply Forall_cons in Hls as [Hl Hls].
  unfold rename_all in *. simpl. rewrite rename_app_l by done.
  apply IH. eapply Forall_impl; [exact Hls |].
  intros l' Hl'. by rewrite length_rename.
Qed.

(** ** The array branch of [groupedOptions] *)

Lemma mapM_ref_loc es os : mapM ref_loc es = Some os -> es = map VRef os.
Proof.
  rewrite mapM_Some. induction 1 as [| e o es os He Hrest IH]; [done |].
  destruct e; by simplify_eq/=.
Qed.

Lemma iterate_run v es t h :
  iterable_of h v = Some es -> iterate v (State t h) = (Normal es, State t h).
Proof.
  unfold iterate, iterable_of. destruct v as [| | | | s | l]; simpl; try done.
  - by intros [= ->].
  - destruct (h !! l) as [o |]; simpl; [| done]. by intros ->.
Qed.

Section ArrayBranch.

Variable i18nKey : string -> string.
Variable t : EnumSetting.
Hypothesis Hid : localized t = true -> printable (_id t).

Lemma name_ok_rename f l l' h :
  (forall n, localized t = true -> printable (f n)) ->
  name_ok t h l' -> name_ok t (rename f l h) l'.
Proof.
  intros Hf (o & Hl' & Hname). unfold name_ok.
  rewrite rename_lookup, Hl'. simpl.
  eexists. split; [reflexivity |]. case_decide; [| done].
  intros Hon. rewrite object_get_put_name_eq. by apply Hf.
Qed.

Lemma name_ok_rename_all f ls l' h :
  (forall n, localized t = true -> printable (f n)) ->
  name_ok t h l' -> name_ok t (rename_all f ls h) l'.
Proof.
  intros Hf. revert h. induction ls as [| l ls IH]; intros h Hok; [done |].
  unfold rename_all in *. simpl. apply IH. by apply name_ok_rename.
Qed.

Lemma group_name_printable n : localized t = true -> printable (group_name i18nKey t n).
Proof. intros Hon. unfold group_name. by rewrite Hon. Qed.

Lemma group_option_name_printable gn n :
  localized t = true -> printable (group_option_name i18nKey t gn n).
Proof. intros Hon. unfold group_option_name. by rewrite Hon. Qed.

Lemma flat_name_printable n : localized t = true -> printable (flat_name i18nKey t n).
Proof. intros Hon. unfold flat_name. by rewrite Hon. Qed.

Lemma group_names_ok_rename f l l' h :
  (forall n, localized t = true -> printable (f n)) ->
  group_names_ok t h l' -> group_names_ok t (rename f l h) l'.
Proof.
  intros Hf (Hl' & os & Hos & Hnames). split; [by apply name_ok_rename |].
  exists os. split; [by rewrite option_locs_rename |].
  eapply Forall_impl; [exact Hnames |]. intros lo Hlo. by apply name_ok_rename.
Qed.

Lemma group_names_ok_rename_all f ls l' h :
  (forall n, localized t = true -> printable (f n)) ->
  group_names_ok t h l' -> group_names_ok t (rename_all f ls h) l'.
Proof.
  intros Hf. revert h. induction ls as [| l ls IH]; intros h Hok; [done |].
  unfold rename_all in *. simpl. apply IH. by apply group_names_ok_rename.
Qed.

Lemma array_option_run gn lo h :
  (localized t = true -> printable gn) ->
  name_ok t h lo ->
  groupedOptions_array_option i18nKey gn (VRef lo) (State t h)
  = (Normal tt, State t (rename (group_option_name i18nKey t gn) lo h)).
Proof.
  intros Hgn (o & Hlo & Hname). unfold groupedOptions_array_option.
  js_run. unfold group_option_name, localized in *.
  rewrite <- (Put_name_rename _ _ _ _ Hlo).
  destruct (truthy (headers (_page (_section t)))) eqn:Hhd.
  - specialize (Hid eq_refl). specialize (Hgn eq_refl). specialize (Hname eq_refl).
    by js_run.
  - by js_run.
Qed.

Lemma array_options_run gn os :
  (localized t = true -> printable gn) ->
  forall h,
    Forall (name_ok t h) os ->
    for_each (map VRef os) (groupedOptions_array_option i18nKey gn) (State t h)
    = (Normal tt, State t (rename_all (group_option_name i18nKey t gn) os h)).
Proof.
  intros Hgn. induction os as [| lo os IH]; intros h Hos; [done |].
  apply Forall_cons in Hos as [Hlo Hos].
  unfold for_each in *. simpl. rewrite bind_unfold.
  rewrite (array_option_run gn lo h Hgn Hlo).
  rewrite IH; [done |].
  eapply Forall_impl; [exact Hos |]. intros l' Hl'.
  apply name_ok_rename; [| done]. intros n. apply group_option_name_printable.
Qed.

Lemma array_group_run values l h :
  group_names_ok t h l ->
  groupedOptions_array_group i18nKey values (VRef l) (State t h)
  = (Normal (values ++ [VRef l]), State t (localize_group i18nKey t h l)).
Proof.
  intros ((o & Hl & Hname) & os & Hos & Hnames).
  unfold groupedOptions_array_group, localize_group. rewrite Hl, Hos.
  js_run. erewrite is_object_ref by eauto. js_run.
  assert ((if truthy (headers (_page (_section t)))
           then i18nOptionGroupKey i18nKey (object_get o "name")
           else mret (object_get o "name")) (State t h)
          = (Normal (group_name i18nKey t (object_get o "name")), State t h)) as Hnew.
  { unfold group_name, localized in *.
    destruct (truthy (headers (_page (_section t)))) eqn:Hhd; [| by js_run].
    specialize (Hid eq_refl). specialize (Hname eq_refl). by js_run. }
  rewrite Hnew. js_run.
  rewrite (Put_name_rename (group_name i18nKey t) _ _ _ Hl).
  unfold option_locs in Hos. rewrite Hl in Hos. simpl in Hos.
  destruct (iterable_of h (object_get o "options")) as [es |] eqn:Hes;
    simpl in Hos; [| done].
  apply mapM_ref_loc in Hos as ->.
  erewrite Get_run by (by apply rename_lookup_eq).
  cbv beta iota.
  rewrite object_get_put_prop_ne by discriminate.
  rewrite bind_unfold.
  erewrite iterate_run by (by rewrite iterable_of_rename).
  cbv beta iota. rewrite bind_unfold.
  rewrite array_options_run; [done | done |].
  eapply Forall_impl; [exact Hnames |]. intros lo Hlo.
  apply name_ok_rename; [| done]. intros n. apply group_name_printable.
Qed.

Lemma group_names_ok_localize_group l l' h :
  group_names_ok t h l' -> group_names_ok t (localize_group i18nKey t h l) l'.
Proof.
  intros Hok. unfold localize_group.
  destruct (h !! l) as [o |]; [| done].
  destruct (option_locs h l) as [os |]; [| done].
  apply group_names_ok_rename_all; [intros n; apply group_option_name_printable |].
  apply group_names_ok_rename; [intros n; apply group_name_printable | done].
Qed.

Lemma array_groups_run ls :
  forall values h,
    Forall (group_names_ok t h) ls ->
    for_acc (map VRef ls) values (groupedOptions_array_group i18nKey) (State t h)
    = (Normal (values ++ map VRef ls), State t (localize_groups i18nKey t ls h)).
Proof.
  induction ls as [| l ls IH]; intros values h Hls.
  - simpl. by rewrite app_nil_r.
  - apply Forall_cons in Hls as [Hl Hls].
    simpl. rewrite bind_unfold, (array_group_run values l h Hl).
    rewrite IH.
    + by rewrite <- app_assoc.
    + eapply Forall_impl; [exact Hls |]. intros l'.
      apply group_names_ok_localize_group.
Qed.

Lemma length_localize_group l h :
  length (localize_group i18nKey t h l) = length h.
Proof.
  unfold localize_group.
  destruct (h !! l); [| done]. destruct (option_locs h l); [| done].
  by rewrite length_rename_all, length_rename.
Qed.

Lemma length_localize_groups ls h :
  length (localize_groups i18nKey t ls h) = length h.
Proof.
  revert h. induction ls as [| l ls IH]; intros h; [done |].
  unfold localize_groups in *. simpl. by rewrite IH, length_localize_group.
Qed.

(** The array branch as a whole: the stored array holds the very elements
    of the argument, and the heap is the old one with names rewritten. *)
Lemma groupedOptions_array_run la ls ps h :
  h !! la = Some (Obj (KArray (map VRef ls)) ps) ->
  Forall (group_names_ok t h) ls ->
  groupedOptions i18nKey (VRef la) (State t h)
  = (Normal tt,
     State (with_groupedOptions (VRef (length h)) t)
           (localize_groups i18nKey t ls h ++ [Obj (KArray (map VRef ls)) []])).
Proof.
  intros Hla Hls. unfold groupedOptions.
  rewrite bind_unfold, (groupedOptions_values_array i18nKey la _ ps (State t h) Hla).
  rewrite (array_groups_run ls [] h Hls). js_run.
  by rewrite length_localize_groups.
Qed.


(** *** What the rewriting does to each object when no object is visited twice *)

Lemma option_locs_localize_group l l' h :
  option_locs (localize_group i18nKey t h l) l' = option_locs h l'.
Proof.
  unfold localize_group.
  destruct (h !! l); [| done]. destruct (option_locs h l); [| done].
  by rewrite option_locs_rename_all, option_locs_rename.
Qed.

Lemma visited_localize_group l ls h :
  visited (localize_group i18nKey t h l) ls = visited h ls.
Proof.
  unfold visited. f_equal. apply map_ext. intros l'.
  by rewrite option_locs_localize_group.
Qed.

Lemma localize_group_lookup_notin l l' h :
  l' ∉ l :: default [] (option_locs h l) ->
  localize_group i18nKey t h l !! l' = h !! l'.
Proof.
  intros Hnin. unfold localize_group.
  destruct (h !! l) as [o |] eqn:Hl; [| done].
  destruct (option_locs h l) as [os |]; [| done]. simpl in Hnin.
  apply not_elem_of_cons in Hnin as [Hne Hnin].
  rewrite rename_all_lookup_notin by done. by apply rename_lookup_ne.
Qed.

Lemma visited_cons l ls h :
  visited h (l :: ls) = (l :: default [] (option_locs h l)) ++ visited h ls.
Proof. reflexivity. Qed.

Lemma elem_of_visited_group l ls h : l ∈ ls -> l ∈ visited h ls.
Proof.
  induction ls as [| l0 ls IH]; intros Hin; [by apply elem_of_nil in Hin |].
  rewrite visited_cons. apply elem_of_cons in Hin as [-> | Hin].
  - apply elem_of_app. left. left.
  - apply elem_of_app. right. by apply IH.
Qed.

Lemma elem_of_visited_option l os lo ls h :
  l ∈ ls -> option_locs h l = Some os -> lo ∈ os -> lo ∈ visited h ls.
Proof.
  induction ls as [| l0 ls IH]; intros Hin Hos Hlo; [by apply elem_of_nil in Hin |].
  rewrite visited_cons. apply elem_of_cons in Hin as [-> | Hin].
  - apply elem_of_app. left. right. by rewrite Hos.
  - apply elem_of_app. right. by apply IH.
Qed.

Lemma localize_groups_cons l ls h :
  localize_groups i18nKey t (l :: ls) h
  = localize_groups i18nKey t ls (localize_group i18nKey t h l).
Proof. reflexivity. Qed.

Lemma localize_groups_lookup_notin ls l' h :
  l' ∉ visited h ls -> localize_groups i18nKey t ls h !! l' = h !! l'.
Proof.
  revert h. induction ls as [| l ls IH]; intros h Hnin; [done |].
  rewrite visited_cons in Hnin.
  apply not_elem_of_app in Hnin as [Hhead Htail].
  rewrite localize_groups_cons.
  rewrite IH by (by rewrite visited_localize_group).
  by apply localize_group_lookup_notin.
Qed.

Lemma localize_group_lookup_group l o os h :
  h !! l = Some o -> option_locs h l = Some os -> l ∉ os ->
  localize_group i18nKey t h l !! l
  = Some (put_prop "name" (group_name i18nKey t (object_get o "name")) o).
Proof.
  intros Hl Hos Hnin. unfold localize_group. rewrite Hl, Hos.
  rewrite rename_all_lookup_notin by done. by apply rename_lookup_eq.
Qed.

Lemma localize_group_lookup_option l o os lo oo h :
  h !! l = Some o -> option_locs h l = Some os -> NoDup (l :: os) ->
  lo ∈ os -> h !! lo = Some oo ->
  localize_group i18nKey t h l !! lo
  = Some (put_prop "name"
            (group_option_name i18nKey t (object_get o "name") (object_get oo "name"))
            oo).
Proof.
  intros Hl Hos Hnd Hin Hlo. unfold localize_group. rewrite Hl, Hos.
  apply NoDup_cons in Hnd as [Hnin Hnd].
  apply rename_all_lookup_in; [done | done |].
  rewrite rename_lookup_ne; [done |]. intros ->. by apply Hnin.
Qed.

Lemma localize_groups_lookup_group ls :
  forall h l o os,
    NoDup (visited h ls) -> l ∈ ls ->
    h !! l = Some o -> option_locs h l = Some os ->
    localize_groups i18nKey t ls h !! l
    = Some (put_prop "name" (group_name i18nKey t (object_get o "name")) o).
Proof.
  induction ls as [| l0 ls IH]; intros h l o os Hnd Hin Hl Hos.
  - by apply elem_of_nil in Hin.
  - rewrite visited_cons in Hnd.
    apply NoDup_app in Hnd as (Hhead & Hdis & Htail).
    rewrite localize_groups_cons.
    destruct (decide (l = l0)) as [-> | Hne].
    + rewrite localize_groups_lookup_notin.
      * rewrite Hos in Hhead. simpl in Hhead.
        apply NoDup_cons in Hhead as [Hnin _].
        by apply (localize_group_lookup_group l0 o os).
      * rewrite visited_localize_group. apply Hdis. left.
    + apply elem_of_cons in Hin as [-> | Hin]; [done |].
      pose proof (elem_of_visited_group l ls h Hin) as Hvis.
      apply (IH _ l o os); [by rewrite visited_localize_group | done | |].
      * rewrite localize_group_lookup_notin; [done |].
        intros Hbad. by apply (Hdis l Hbad).
      * by rewrite option_locs_localize_group.
Qed.

Lemma localize_groups_lookup_option ls :
  forall h l o os lo oo,
    NoDup (visited h ls) -> l ∈ ls ->
    h !! l = Some o -> option_locs h l = Some os ->
    lo ∈ os -> h !! lo = Some oo ->
    localize_groups i18nKey t ls h !! lo
    = Some (put_prop "name"
              (group_option_name i18nKey t (object_get o "name")
                 (object_get oo "name")) oo).
Proof.
  induction ls as [| l0 ls IH]; intros h l o os lo oo Hnd Hin Hl Hos Hlo Hoo.
  - by apply elem_of_nil in Hin.
  - rewrite visited_cons in Hnd.
    apply NoDup_app in Hnd as (Hhead & Hdis & Htail).
    rewrite localize_groups_cons.
    destruct (decide (l = l0)) as [-> | Hne].
    + rewrite localize_groups_lookup_notin.
      * rewrite Hos in Hhead. simpl in Hhead.
        by apply (localize_group_lookup_option l0 o os).
      * rewrite visited_localize_group. apply Hdis. right. by rewrite Hos.
    + apply elem_of_cons in Hin as [-> | Hin]; [done |].
      pose proof (elem_of_visited_group l ls h Hin) as Hvis.
      pose proof (elem_of_visited_option l os lo ls h Hin Hos Hlo) as Hvis'.
      apply (IH _ l o os); [by rewrite visited_localize_group | done | | | done |].
      * rewrite localize_group_lookup_notin; [done |].
        intros Hbad. by apply (Hdis l Hbad).
      * by rewrite option_locs_localize_group.
      * rewrite localize_group_lookup_notin; [done |].
        intros Hbad. by apply (Hdis lo Hbad).
Qed.


(** *** The array branch of [options], for elements that are objects *)

Lemma is_String_object_rename f l h v :
  is_String_object (rename f l h) v = is_String_object h v.
Proof.
  destruct v as [| | | | | a]; simpl; try done. by rewrite rename_kind.
Qed.

Lemma is_string_ref l : is_string (VRef l) = false.
Proof. reflexivity. Qed.

Lemma options_array_item_run values l h :
  name_ok t h l -> is_String_object h (VRef l) = false ->
  options_array_item i18nKey values (VRef l) (State t h)
  = (Normal (values ++ [VRef l]), State t (rename (flat_name i18nKey t) l h)).
Proof.
  intros (o & Hl & Hname) Hstr. unfold options_array_item.
  js_run. rewrite Hstr, is_string_ref. cbn [orb]. cbv iota. js_run.
  rewrite <- (Put_name_rename _ _ _ _ Hl).
  unfold flat_name, localized in *.
  destruct (truthy (headers (_page (_section t)))) eqn:Hhd.
  - specialize (Hid eq_refl). specialize (Hname eq_refl). by js_run.
  - by js_run.
Qed.

Lemma options_array_run ls :
  forall values h,
    Forall (fun l => name_ok t h l /\ is_String_object h (VRef l) = false) ls ->
    for_acc (map VRef ls) values (options_array_item i18nKey) (State t h)
    = (Normal (values ++ map VRef ls),
       State t (rename_all (flat_name i18nKey t) ls h)).
Proof.
  induction ls as [| l ls IH]; intros values h Hls.
  - simpl. by rewrite app_nil_r.
  - apply Forall_cons in Hls as [[Hl Hstr] Hls].
    simpl. rewrite bind_unfold, (options_array_item_run values l h Hl Hstr).
    unfold rename_all in *. simpl. rewrite IH.
    + by rewrite <- app_assoc.
    + eapply Forall_impl; [exact Hls |]. intros l' [Hl' Hstr']. split.
      * apply name_ok_rename; [| done]. intros n. apply flat_name_printable.
      * by rewrite is_String_object_rename.
Qed.

Lemma options_array_objects_run la ls ps h :
  h !! la = Some (Obj (KArray (map VRef ls)) ps) ->
  Forall (fun l => name_ok t h l /\ is_String_object h (VRef l) = false) ls ->
  options i18nKey (VRef la) (State t h)
  = (Normal tt,
     State (with_options (VRef (length h)) t)
           (rename_all (flat_name i18nKey t) ls h ++ [Obj (KArray (map VRef ls)) []])).
Proof.
  intros Hla Hls. unfold options.
  rewrite bind_unfold, (options_values_array i18nKey la _ ps (State t h) Hla).
  rewrite (options_array_run ls [] h Hls). js_run.
  by rewrite length_rename_all.
Qed.

End ArrayBranch.

(** ** The array branch of [options] with localization disabled *)

Lemma same_objects_refl h : same_objects h h.
Proof. intros l o Hl. by exists o. Qed.

Lemma same_objects_trans h1 h2 h3 :
  same_objects h1 h2 -> same_objects h2 h3 -> same_objects h1 h3.
Proof.
  intros H12 H23 l o Hl.
  destruct (H12 l o Hl) as (o2 & Hl2 & Hk2 & Hg2).
  destruct (H23 l o2 Hl2) as (o3 & Hl3 & Hk3 & Hg3).
  exists o3. split; [done |]. split; [congruence |].
  intros k. by rewrite Hg3, Hg2.
Qed.

Lemma same_objects_app h e : same_objects h (h ++ e).
Proof. intros l o Hl. exists o. split; [by apply lookup_app_l_Some | done]. Qed.

Lemma object_get_put_same o k :
  object_get (put_prop "name" (object_get o "name") o) k = object_get o k.
Proof.
  destruct (decide (k = "name")) as [-> | Hne].
  - apply object_get_put_name_eq.
  - by apply object_get_put_prop_ne.
Qed.

Lemma same_objects_put_same h l o :
  h !! l = Some o ->
  same_objects h (alter (put_prop "name" (object_get o "name")) l h).
Proof.
  intros Hl l' o' Hl'. destruct (decide (l = l')) as [<- | Hne].
  - simplify_eq. eexists. rewrite list_lookup_alter_eq, Hl. simpl.
    split; [reflexivity |]. split; [done |]. apply object_get_put_same.
  - exists o'. by rewrite list_lookup_alter_ne.
Qed.

Lemma same_objects_read_option h h' v x :
  same_objects h h' -> read_option h v = Some x -> read_option h' v = Some x.
Proof.
  intros Hsame. destruct v as [| | | | | l]; simpl; try done.
  destruct (h !! l) as [o |] eqn:Hl; simpl; [| done].
  destruct (Hsame l o Hl) as (o' & -> & _ & Hget). simpl.
  by rewrite !Hget.
Qed.

Lemma same_objects_is_object h h' v :
  same_objects h h' -> is_object h v = true -> is_object h' v = true.
Proof.
  intros Hsame. destruct v as [| | | | | l]; simpl; try done.
  rewrite !bool_decide_eq_true. intros [o Hl].
  destruct (Hsame l o Hl) as (o' & -> & _). by eexists.
Qed.

Lemma same_objects_flat_option h h' it :
  same_objects h h' ->
  is_string it = true \/ is_object h it = true ->
  flat_option h' it = flat_option h it.
Proof.
  intros Hsame Hit. unfold flat_option.
  destruct it as [| | | | s | l]; try done.
  rewrite is_string_ref. simpl.
  destruct Hit as [Hit | Hit]; [done |].
  simpl in Hit. apply bool_decide_eq_true in Hit as [o Hl].
  destruct (Hsame l o Hl) as (o' & Hl' & Hk & Hget).
  rewrite Hl, Hl'. simpl. rewrite Hk, !Hget. done.
Qed.

Section FlatPlain.

Variable i18nKey : string -> string.
Variable t : EnumSetting.
Hypothesis Hoff : localized t = false.

Lemma options_array_item_plain values it h :
  is_string it = true \/ is_object h it = true ->
  exists v h',
    options_array_item i18nKey values it (State t h)
    = (Normal (values ++ [v]), State t h') /\
    same_objects h h' /\
    read_option h' v = Some (flat_option h it).
Proof.
  intros Hit. unfold options_array_item, flat_option.
  unfold localized in Hoff.
  js_run.
  destruct (is_string it || is_String_object h it) eqn:Hstr.
  - js_run. rewrite Hoff. js_run.
    eexists _, _. split; [reflexivity |].
    split; [apply same_objects_app |].
    unfold read_option. rewrite lookup_app_len. simpl. by js_get.
  - apply orb_false_iff in Hstr as [Hs _]. rewrite Hs in Hit.
    destruct Hit as [Hit | Hit]; [done |].
    destruct it as [| | | | | l]; try done.
    simpl in Hit. apply bool_decide_eq_true in Hit as [o Hl].
    js_run. rewrite Hoff. js_run.
    eexists _, _. split; [reflexivity |].
    split; [by apply same_objects_put_same |].
    unfold read_option. rewrite list_lookup_alter_eq, Hl. simpl.
    by rewrite !object_get_put_same.
Qed.

Lemma options_array_plain its :
  forall values h,
    Forall (fun it => is_string it = true \/ is_object h it = true) its ->
    exists vs h',
      for_acc its values (options_array_item i18nKey) (State t h)
      = (Normal (values ++ vs), State t h') /\
      same_objects h h' /\
      mapM (read_option h') vs = Some (map (flat_option h) its).
Proof.
  induction its as [| it its IH]; intros values h Hits.
  - exists [], h. split; [by rewrite app_nil_r |].
    split; [apply same_objects_refl | done].
  - apply Forall_cons in Hits as [Hit Hits].
    destruct (options_array_item_plain values it h Hit)
      as (v & h1 & Hrun1 & Hsame1 & Hread1).
    destruct (IH (values ++ [v]) h1) as (vs & h' & Hrun & Hsame & Hread).
    { eapply Forall_impl; [exact Hits |]. intros it' [Hs | Ho]; [by left |].
      right. by apply (same_objects_is_object h). }
    assert (map (flat_option h1) its = map (flat_option h) its) as Heq.
    { apply map_ext_in. intros it' Hin.
      apply same_objects_flat_option; [done |].
      rewrite Forall_forall in Hits. apply Hits. by apply list_elem_of_In. }
    rewrite Heq in Hread.
    exists (v :: vs), h'. cbn [for_acc]. rewrite bind_unfold, Hrun1, Hrun.
    split; [by rewrite <- app_assoc |].
    split; [by apply (same_objects_trans h h1) |].
    apply mapM_Some. apply mapM_Some in Hread.
    constructor; [| exact Hread].
    by apply (same_objects_read_option h1).
Qed.

Lemma options_array_plain_run la its ps h :
  h !! la = Some (Obj (KArray its) ps) ->
  Forall (fun it => is_string it = true \/ is_object h it = true) its ->
  exists arr h',
    options i18nKey (VRef la) (State t h)
    = (Normal tt, State (with_options arr t) h') /\
    read_options h' arr = Some (map (flat_option h) its).
Proof.
  intros Hla Hits.
  destruct (options_array_plain its [] h Hits) as (vs & h1 & Hrun & _ & Hread).
  exists (VRef (length h1)), (h1 ++ [Obj (KArray vs) []]). split.
  - unfold options.
    rewrite bind_unfold, (options_values_array i18nKey la _ ps (State t h) Hla).
    rewrite Hrun. by js_run.
  - unfold read_options, read_array. rewrite lookup_app_len. simpl.
    eapply mapM_mono; [| exact Hread]. intros. by apply read_option_app.
Qed.

End FlatPlain.

(** ** Only names change *)

Lemma only_names_changed_refl h : only_names_changed h h.
Proof. intros l o Hl. by exists o. Qed.

Lemma only_names_changed_trans h1 h2 h3 :
  only_names_changed h1 h2 -> only_names_changed h2 h3 -> only_names_changed h1 h3.
Proof.
  intros H12 H23 l o Hl.
  destruct (H12 l o Hl) as (o2 & Hl2 & Hk2 & Hg2).
  destruct (H23 l o2 Hl2) as (o3 & Hl3 & Hk3 & Hg3).
  exists o3. split; [done |]. split; [congruence |].
  intros k Hk. by rewrite Hg3, Hg2.
Qed.

Lemma only_names_changed_app h e : only_names_changed h (h ++ e).
Proof. intros l o Hl. exists o. split; [by apply lookup_app_l_Some | done]. Qed.

Lemma only_names_changed_put_name h l w :
  only_names_changed h (alter (put_prop "name" w) l h).
Proof.
  intros l' o' Hl'. destruct (decide (l = l')) as [<- | Hne].
  - eexists. rewrite list_lookup_alter_eq, Hl'. simpl.
    split; [reflexivity |]. split; [done |].
    intros k Hk. by apply object_get_put_prop_ne.
  - exists o'. by rewrite list_lookup_alter_ne.
Qed.

Lemma only_names_changed_length h h' :
  only_names_changed h h' -> length h <= length h'.
Proof.
  intros H. destruct (decide (length h = 0)) as [-> | Hne]; [lia |].
  destruct (lookup_lt_is_Some_2 h (length h - 1)) as [o Ho]; [lia |].
  destruct (H _ _ Ho) as (o' & Ho' & _).
  apply lookup_lt_Some in Ho'. lia.
Qed.

Lemma only_names_changed_rename f l h : only_names_changed h (rename f l h).
Proof.
  intros l' o' Hl'. rewrite rename_lookup, Hl'. simpl.
  eexists. split; [reflexivity |]. case_decide; [| done].
  split; [done |]. intros k Hk. by apply object_get_put_prop_ne.
Qed.

Lemma only_names_changed_rename_all f ls h :
  only_names_changed h (rename_all f ls h).
Proof.
  revert h. induction ls as [| l ls IH]; intros h; [apply only_names_changed_refl |].
  unfold rename_all in *. simpl.
  eapply only_names_changed_trans; [apply only_names_changed_rename | apply IH].
Qed.

(** What depends on the structure only is the same afterwards. *)

Lemma only_names_changed_kind h h' l o :
  only_names_changed h h' -> h !! l = Some o ->
  kind_of <$> h' !! l = Some (kind_of o).
Proof.
  intros H Hl. destruct (H l o Hl) as (o' & Ho' & Hk & _).
  rewrite Ho'. simpl. by rewrite Hk.
Qed.

Lemma only_names_changed_is_array h h' v :
  only_names_changed h h' -> is_array h v = true -> is_array h' v = true.
Proof.
  intros H. destruct v as [| | | | | l]; simpl; try done.
  destruct (h !! l) as [o |] eqn:Hl; simpl; [| done].
  by rewrite (only_names_changed_kind h h' l o H Hl).
Qed.

Lemma only_names_changed_iterable h h' v es :
  only_names_changed h h' -> iterable_of h v = Some es -> iterable_of h' v = Some es.
Proof.
  intros H. destruct v as [| | | | | l]; simpl; try done.
  destruct (h !! l) as [o |] eqn:Hl; simpl; [| done].
  destruct (H l o Hl) as (o' & Ho' & Hk & _).
  rewrite Ho'. simpl. by rewrite Hk.
Qed.

Lemma only_names_changed_option_locs h h' l os :
  only_names_changed h h' -> option_locs h l = Some os -> option_locs h' l = Some os.
Proof.
  intros H. unfold option_locs.
  destruct (h !! l) as [o |] eqn:Hl; simpl; [| done].
  destruct (H l o Hl) as (o' & Ho' & _ & Hget). rewrite Ho'. simpl.
  rewrite Hget by discriminate.
  destruct (iterable_of h (object_get o "options")) as [es |] eqn:Hes; simpl; [| done].
  by rewrite (only_names_changed_iterable h h' _ es H Hes).
Qed.

Lemma only_names_changed_group_ok h h' l :
  only_names_changed h h' -> group_ok h l -> group_ok h' l.
Proof.
  intros H (os & Hos & Hall). exists os.
  split; [by apply (only_names_changed_option_locs h) |].
  eapply Forall_impl; [exact Hall |]. intros lo Hlo.
  pose proof (only_names_changed_length h h' H). simpl in *. lia.
Qed.

Lemma only_names_changed_array h h' l es ps :
  only_names_changed h h' -> h !! l = Some (Obj (KArray es) ps) ->
  exists ps', h' !! l = Some (Obj (KArray es) ps').
Proof.
  intros H Hl. destruct (H l _ Hl) as ([kd ps'] & Ho' & Hk & _).
  simpl in Hk. subst kd. by exists ps'.
Qed.

Lemma only_names_changed_is_array_inv h h' l :
  only_names_changed h h' -> l < length h ->
  is_array h' (VRef l) = true -> is_array h (VRef l) = true.
Proof.
  intros H Hl. destruct (lookup_lt_is_Some_2 h l Hl) as [o Ho].
  simpl. rewrite Ho, (only_names_changed_kind h h' l o H Ho). done.
Qed.

Lemma only_names_changed_flat_ok h h' v :
  only_names_changed h h' -> flat_ok h v -> flat_ok h' v.
Proof.
  intros H Hok l ->. destruct (Hok l eq_refl) as [Hl Harr].
  pose proof (only_names_changed_length h h' H) as Hlen.
  split; [lia |]. intros Ha'.
  destruct (Harr (only_names_changed_is_array_inv h h' l H Hl Ha'))
    as (ps & fls & Hl0 & Hfls).
  destruct (only_names_changed_array h h' l _ ps H Hl0) as [ps' Hl'].
  exists ps', fls. split; [done |].
  eapply Forall_impl; [exact Hfls |]. intros lo Hlo. simpl in *. lia.
Qed.

Lemma only_names_changed_grouped_ok h h' v :
  only_names_changed h h' -> grouped_ok h v -> grouped_ok h' v.
Proof.
  intros H Hok l ->. destruct (Hok l eq_refl) as [Hl Harr].
  pose proof (only_names_changed_length h h' H) as Hlen.
  split; [lia |]. intros Ha'.
  destruct (Harr (only_names_changed_is_array_inv h h' l H Hl Ha'))
    as (ps & gls & Hl0 & Hgls).
  destruct (only_names_changed_array h h' l _ ps H Hl0) as [ps' Hl'].
  exists ps', gls. split; [done |].
  eapply Forall_impl; [exact Hgls |]. intros lg.
  by apply only_names_changed_group_ok.
Qed.

(** ** The mapping branch touches no object that was there before *)

Lemma untouched_length h0 st : untouched h0 st -> length h0 <= length (store st).
Proof.
  unfold untouched. intros H.
  rewrite <- H at 1. rewrite length_take. lia.
Qed.

Lemma untouched_app h0 t h e :
  untouched h0 (State t h) -> untouched h0 (State t (h ++ e)).
Proof.
  intros H. pose proof (untouched_length _ _ H) as Hlen. unfold untouched in *.
  simpl in *. by rewrite take_app_le.
Qed.

Lemma untouched_alter h0 t h (f : object -> object) l :
  length h0 <= l ->
  untouched h0 (State t h) -> untouched h0 (State t (alter f l h)).
Proof.
  intros Hl H. unfold untouched in *. simpl in *.
  rewrite <- H at 2. apply list_eq. intros i.
  rewrite !lookup_take. case_decide; [| done].
  apply list_lookup_alter_ne. lia.
Qed.

Lemma untouched_only_names_changed h0 st :
  untouched h0 st -> only_names_changed h0 (store st).
Proof.
  intros H l o Hl. exists o. split; [| done].
  unfold untouched in H. rewrite <- H in Hl.
  rewrite lookup_take in Hl. by case_decide.
Qed.

Section MappingInv.

Variable h0 : heap.

Let n0 := length h0.

Lemma fresh_group_app h e v :
  fresh_group n0 h v -> fresh_group n0 (h ++ e) v.
Proof.
  intros (l & ps & a & psa & os & -> & Hl & Hg & Hopt & Ha & Harr & Hos).
  exists l, ps, a, psa, os.
  split_and!; try done; try by apply lookup_app_l_Some.
  eapply Forall_impl; [exact Hos |]. intros lo Hlo.
  rewrite length_app. simpl in *. lia.
Qed.

Lemma fresh_group_put_name h v l0 w :
  fresh_group n0 h v -> fresh_group n0 (alter (put_prop "name" w) l0 h) v.
Proof.
  intros (l & ps & a & psa & os & -> & Hl & Hg & Hopt & Ha & Harr & Hos).
  destruct (decide (l0 = l)) as [-> | Hne].
  - exists l, (set_prop "name" w ps), a, psa, os.
    split_and!; try done.
    + by rewrite list_lookup_alter_eq, Hg.
    + by rewrite lookup_prop_set_prop_ne.
    + rewrite list_lookup_alter_ne; [done |]. intros ->. by simplify_eq.
    + by rewrite length_alter.
  - destruct (decide (l0 = a)) as [-> | Hne'].
    + exists l, ps, a, (set_prop "name" w psa), os.
      split_and!; try done.
      * by rewrite list_lookup_alter_ne.
      * by rewrite list_lookup_alter_eq, Harr.
      * by rewrite length_alter.
    + exists l, ps, a, psa, os.
      split_and!; try done; try by rewrite list_lookup_alter_ne.
      by rewrite length_alter.
Qed.

Lemma fresh_group_put_options h v l0 ps0 a0 psa0 os0 :
  h !! l0 = Some (Obj KPlain ps0) ->
  n0 <= a0 -> h !! a0 = Some (Obj (KArray (map VRef os0)) psa0) ->
  Forall (fun lo => lo < length h) os0 ->
  fresh_group n0 h v ->
  fresh_group n0 (alter (put_prop "options" (VRef a0)) l0 h) v.
Proof.
  intros Hl0 Ha0 Harr0 Hos0
    (l & ps & a & psa & os & -> & Hl & Hg & Hopt & Ha & Harr & Hos).
  assert (a0 <> l0) as Hne0 by (intros ->; by simplify_eq).
  destruct (decide (l0 = l)) as [-> | Hne].
  - exists l, (set_prop "options" (VRef a0) ps), a0, psa0, os0.
    split_and!; try done.
    + by rewrite list_lookup_alter_eq, Hg.
    + by rewrite lookup_prop_set_prop_eq.
    + by rewrite list_lookup_alter_ne.
    + by rewrite length_alter.
  - exists l, ps, a, psa, os.
    split_and!; try done.
    + by rewrite list_lookup_alter_ne.
    + rewrite list_lookup_alter_ne; [done |]. intros ->. by simplify_eq.
    + by rewrite length_alter.
Qed.

Lemma fresh_group_push h v a0 es0 psa0 lo0 :
  h !! a0 = Some (Obj (KArray es0) psa0) ->
  lo0 < length h ->
  fresh_group n0 h v ->
  fresh_group n0 (alter (push_elem (VRef lo0)) a0 h) v.
Proof.
  intros Harr0 Hlo0
    (l & ps & a & psa & os & -> & Hl & Hg & Hopt & Ha & Harr & Hos).
  assert (a0 <> l) as Hne0 by (intros ->; by simplify_eq).
  destruct (decide (a0 = a)) as [-> | Hne].
  - rewrite Harr in Harr0. injection Harr0 as Hes Hps. subst es0 psa0.
    exists l, ps, a, psa, (os ++ [lo0]).
    split_and!; try done.
    + by rewrite list_lookup_alter_ne.
    + rewrite list_lookup_alter_eq, Harr. simpl. unfold push_elem. simpl.
      by rewrite map_app.
    + rewrite length_alter. apply Forall_app. split; [done |]. by constructor.
  - exists l, ps, a, psa, os.
    split_and!; try done; try by rewrite list_lookup_alter_ne.
    by rewrite length_alter.
Qed.

Lemma mapping_inv_untouched values st : mapping_inv h0 values st -> untouched h0 st.
Proof. by intros [H _]. Qed.


Lemma fresh_obj_app h e v : fresh_obj n0 h v -> fresh_obj n0 (h ++ e) v.
Proof.
  intros (l & -> & Hl & Hlt). exists l. split_and!; try done.
  rewrite length_app. lia.
Qed.

Lemma fresh_objs_refs h vs :
  Forall (fresh_obj n0 h) vs ->
  exists os, vs = map VRef os /\ Forall (fun lo => lo < length h) os.
Proof.
  induction 1 as [| v vs (l & -> & Hl & Hlt) _ (os & -> & Hos)].
  - by exists [].
  - exists (l :: os). split; [done |]. by constructor.
Qed.

Lemma fresh_array_app h e v : fresh_array n0 h v -> fresh_array n0 (h ++ e) v.
Proof.
  intros (a & psa & os & -> & Ha & Harr & Hos). exists a, psa, os.
  split_and!; try done; [by apply lookup_app_l_Some |].
  eapply Forall_impl; [exact Hos |]. intros lo Hlo.
  rewrite length_app. simpl in *. lia.
Qed.

Lemma mapping_inv_app values t h e :
  mapping_inv h0 values (State t h) -> mapping_inv h0 values (State t (h ++ e)).
Proof.
  intros [Hu Hvs]. split; [by apply untouched_app |]. simpl in *.
  eapply Forall_impl; [exact Hvs |]. intros v. apply fresh_group_app.
Qed.

Lemma mapping_inv_put_name values t h l w :
  n0 <= l ->
  mapping_inv h0 values (State t h) ->
  mapping_inv h0 values (State t (alter (put_prop "name" w) l h)).
Proof.
  intros Hl [Hu Hvs]. split; [by apply untouched_alter |]. simpl in *.
  eapply Forall_impl; [exact Hvs |]. intros v. apply fresh_group_put_name.
Qed.

Lemma at_index_elem values index :
  at_index values index = VUndef \/ at_index values index ∈ values.
Proof.
  unfold at_index. destruct index as [i |]; [| by left].
  destruct (values !! i) as [v |] eqn:Hi; simpl; [| by left].
  right. by apply list_elem_of_lookup_2 in Hi.
Qed.

Section Entry.

Variable i18nKey : string -> string.

Lemma reads_group_name_choice (hd name : value) :
  reads (if truthy hd then i18nOptionGroupKey i18nKey name else mret name).
Proof. destruct (truthy hd); auto with js_reads. Qed.

Lemma mapped_option_inv values group mapped name :
  triple (fun st => mapping_inv h0 values st /\ Forall (fresh_obj n0 (store st)) mapped)
    (groupedOptions_mapped_option i18nKey group mapped name)
    (fun acc st => mapping_inv h0 values st /\ Forall (fresh_obj n0 (store st)) acc)
    (untouched h0).
Proof.
  unfold groupedOptions_mapped_option.
  eapply triple_bind.
  { apply (triple_read _ _ (fun _ st => mapping_inv h0 values st /\
                                         Forall (fresh_obj n0 (store st)) mapped));
      [auto with js_reads | by intros | intros st [[Hu _] _]; exact Hu]. }
  intros hd. eapply triple_bind.
  { apply (triple_read _ _ (fun _ st => mapping_inv h0 values st /\
                                         Forall (fresh_obj n0 (store st)) mapped)).
    - destruct (truthy hd); [| auto with js_reads].
      apply reads_bind; [auto with js_reads | intros; auto with js_reads].
    - by intros.
    - intros st [[Hu _] _]; exact Hu. }
  intros newName. eapply triple_bind.
  { apply (triple_New _ _ _
             (fun o st => mapping_inv h0 values st /\
                          Forall (fresh_obj n0 (store st)) (mapped ++ [o]))).
    intros [t h] [Hinv Hm]. simpl in *. split; [by apply mapping_inv_app |].
    apply Forall_app. split.
    - eapply Forall_impl; [exact Hm |]. intros v. apply fresh_obj_app.
    - constructor; [| constructor]. exists (length h). split_and!; [done | |].
      + apply (untouched_length h0 (State t h)), Hinv.
      + rewrite length_app. simpl. lia. }
  intros o. apply triple_ret. by intros.
Qed.


Lemma reads_group_option_name_choice (hd : value) group (name : value) :
  reads (if truthy hd
         then groupName ← Get group "name";
              i18nOptionGroupOptionKey i18nKey groupName name
         else mret name).
Proof.
  destruct (truthy hd); [| auto with js_reads].
  apply reads_bind; [auto with js_reads | intros; auto with js_reads].
Qed.

Lemma Get_options_fresh values index st os :
  mapping_inv h0 values st ->
  Get (at_index values index) "options" st = (Normal os, st) ->
  exists a, os = VRef a /\ n0 <= a.
Proof.
  intros [_ Hvs] Hget.
  destruct (at_index_elem values index) as [Hu | Hin].
  - rewrite Hu in Hget. discriminate.
  - rewrite Forall_forall in Hvs.
    destruct (Hvs _ Hin) as (l & ps & a & psa & os' & Hv & Hl & Hg & Hopt & Ha & _).
    rewrite Hv in Hget. unfold Get in Hget. rewrite Hg in Hget.
    injection Hget as <-. exists a. split; [| done].
    by rewrite object_get_plain, Hopt.
Qed.

Lemma keyed_option_inv values group propertyGroup index groupProperty :
  triple (mapping_inv h0 values)
    (groupedOptions_keyed_option i18nKey group propertyGroup
       (at_index values index) groupProperty)
    (fun _ st => mapping_inv h0 values st)
    (untouched h0).
Proof.
  unfold groupedOptions_keyed_option.
  eapply triple_bind.
  { apply (triple_read _ _ (fun _ st => mapping_inv h0 values st));
      [auto with js_reads | by intros | by intros st [Hu _]]. }
  intros v. eapply triple_bind.
  { apply (triple_New _ _ _
             (fun o st => mapping_inv h0 values st /\ fresh_obj n0 (store st) o)).
    intros [t h] Hinv. simpl. split; [by apply mapping_inv_app |].
    exists (length h). split_and!; [done | |].
    - apply (untouched_length h0 (State t h)), Hinv.
    - rewrite length_app. simpl. lia. }
  intros option. eapply triple_bind.
  { apply (triple_read _ _ (fun _ st => mapping_inv h0 values st /\
                                         fresh_obj n0 (store st) option));
      [auto with js_reads | by intros | by intros st [[Hu _] _]]. }
  intros hd. eapply triple_bind.
  { apply (triple_read _ _ (fun _ st => mapping_inv h0 values st /\
                                         fresh_obj n0 (store st) option));
      [apply reads_group_option_name_choice | by intros | by intros st [[Hu _] _]]. }
  intros newName. eapply triple_bind.
  { apply (triple_Put _ _ _ _
             (fun _ st => mapping_inv h0 values st /\ fresh_obj n0 (store st) option)).
    - by intros st [[Hu _] _].
    - intros [t h] l o [Hinv (l' & Hopt & Hl' & Hlt)] Hv Hl.
      rewrite Hopt in Hv. injection Hv as <-. simpl in *.
      split; [by apply mapping_inv_put_name |].
      exists l'. split_and!; try done. by rewrite length_alter. }
  intros []. eapply triple_bind.
  { apply (triple_read _ _
             (fun os st => mapping_inv h0 values st /\ fresh_obj n0 (store st) option /\
                           exists a, os = VRef a /\ n0 <= a)).
    - auto with js_reads.
    - intros st os [Hinv Hopt] Hget. split; [done |]. split; [done |].
      by apply (Get_options_fresh values index st).
    - by intros st [[Hu _] _]. }
  intros os. apply triple_Push.
  - by intros st [[Hu _] _].
  - intros [t h] l es ps (Hinv & (lo & Hopt & Hlo & Hlt) & (a & Hos & Ha)) Hv Hl.
    rewrite Hos in Hv. injection Hv as <-. rewrite Hopt. simpl in *.
    destruct Hinv as [Hu Hvs]. split.
    + by apply untouched_alter.
    + simpl in *. eapply Forall_impl; [exact Hvs |]. intros g.
      by apply (fresh_group_push h g a es ps lo).
Qed.

Lemma mapping_entry_inv groups values property :
  triple (mapping_inv h0 values)
    (groupedOptions_mapping_entry i18nKey groups values property)
    (fun vs st => mapping_inv h0 vs st)
    (untouched h0).
Proof.
  unfold groupedOptions_mapping_entry.
  eapply triple_bind.
  { apply (triple_read _ _ (fun _ st => mapping_inv h0 values st));
      [auto with js_reads | by intros | by intros st [Hu _]]. }
  intros keys. cbv zeta. eapply triple_bind.
  { apply (triple_New _ _ _
             (fun empty st => mapping_inv h0 values st /\
                              fresh_array n0 (store st) empty)).
    intros [t h] Hinv. simpl. split; [by apply mapping_inv_app |].
    exists (length h), [], []. split_and!; try done.
    - apply (untouched_length h0 (State t h)), Hinv.
    - apply lookup_app_len. }
  intros empty. eapply triple_bind.
  { apply (triple_New _ _ _
             (fun group st => mapping_inv h0 (values ++ [group]) st)).
    intros [t h] [Hinv Hempty]. simpl.
    apply mapping_inv_app with (e := [Obj KPlain [("name", VStr property);
                                                  ("options", empty)]]) in Hinv as Hinv'.
    destruct Hinv' as [Hu Hvs]. split; [done |]. simpl in *.
    apply Forall_app. split; [done |]. constructor; [| constructor].
    destruct (fresh_array_app h [Obj KPlain [("name", VStr property);
                                             ("options", empty)]] empty Hempty)
      as (a & psa & os & -> & Ha & Harr & Hos).
    exists (length h), [("name", VStr property); ("options", VRef a)], a, psa, os.
    split_and!; try done.
    - apply (untouched_length h0 (State t h)), Hinv.
    - apply lookup_app_len. }
  intros group. eapply triple_bind.
  { apply (triple_read _ _ (fun _ st => mapping_inv h0 (values ++ [group]) st));
      [auto with js_reads | by intros | by intros st [Hu _]]. }
  intros hd. eapply triple_bind.
  { apply (triple_read _ _ (fun _ st => mapping_inv h0 (values ++ [group]) st));
      [auto with js_reads | by intros | by intros st [Hu _]]. }
  intros name. eapply triple_bind.
  { apply (triple_read _ _ (fun _ st => mapping_inv h0 (values ++ [group]) st));
      [apply reads_group_name_choice | by intros | by intros st [Hu _]]. }
  intros newName. eapply triple_bind.
  { apply (triple_Put _ _ _ _ (fun _ st => mapping_inv h0 (values ++ [group]) st)).
    - by intros st [Hu _].
    - intros [t h] l o Hinv Hv Hl. simpl in *.
      apply mapping_inv_put_name; [| done].
      destruct Hinv as [_ Hvs]. simpl in Hvs.
      apply Forall_app in Hvs as [_ Hg]. apply Forall_cons in Hg as [Hg _].
      destruct Hg as (l' & ? & ? & ? & ? & Heq & ? & _).
      rewrite Hv in Heq. by injection Heq as <-. }
  intros []. eapply triple_bind.
  { apply (triple_read _ _ (fun _ st => mapping_inv h0 (values ++ [group]) st));
      [auto with js_reads | by intros | by intros st [Hu _]]. }
  intros propertyGroup. eapply triple_bind.
  { apply (triple_read _ _ (fun _ st => mapping_inv h0 (values ++ [group]) st));
      [auto with js_reads | by intros | by intros st [Hu _]]. }
  intros [|].
  - eapply triple_bind.
    { apply (triple_read _ _ (fun _ st => mapping_inv h0 (values ++ [group]) st));
        [auto with js_reads | by intros | by intros st [Hu _]]. }
    intros its. eapply triple_bind.
    { eapply triple_conseq.
      - apply (triple_for_acc
                 (fun acc st => mapping_inv h0 (values ++ [group]) st /\
                                Forall (fresh_obj n0 (store st)) acc)
                 (untouched h0)).
        intros acc x _. apply mapped_option_inv.
      - intros st Hinv. split; [exact Hinv | constructor].
      - intros acc st H. exact H.
      - auto. }
    intros mapped. eapply triple_bind.
    { apply (triple_New _ _ _
               (fun arr st => mapping_inv h0 (values ++ [group]) st /\
                              fresh_array n0 (store st) arr)).
      intros [t h] [Hinv Hm]. simpl in *. split; [by apply mapping_inv_app |].
      destruct (fresh_objs_refs h mapped Hm) as (os & -> & Hos).
      exists (length h), [], os. split_and!; try done.
      - apply (untouched_length h0 (State t h)), Hinv.
      - apply lookup_app_len.
      - eapply Forall_impl; [exact Hos |]. intros lo Hlo.
        rewrite length_app. simpl in *. lia. }
    intros arr. eapply triple_bind.
    { apply (triple_Put _ _ _ _ (fun _ st => mapping_inv h0 (values ++ [group]) st)).
      - by intros st [[Hu _] _].
      - intros [t h] l o [[Hu Hvs] (a & psa & os & Harrv & Ha & Harr & Hos)] Hv Hl.
        rewrite Harrv. simpl in *.
        destruct (at_index_elem (values ++ [group]) (indexOf property keys))
          as [Hund | Hin]; [congruence |].
        rewrite Hv in Hin. rewrite Forall_forall in Hvs.
        destruct (Hvs _ Hin) as (l' & ps & ? & ? & ? & Heq & Hl' & Hg & _).
        injection Heq as <-. split.
        + by apply untouched_alter.
        + simpl. apply Forall_forall. intros g Hgin.
          by apply (fresh_group_put_options h g l ps a psa os); [..| apply Hvs]. }
    intros []. apply triple_ret. by intros.
  - eapply triple_bind.
    { apply (triple_read _ _ (fun _ st => mapping_inv h0 (values ++ [group]) st));
        [auto with js_reads | by intros | by intros st [Hu _]]. }
    intros [|].
    + eapply triple_bind.
      { apply (triple_read _ _ (fun _ st => mapping_inv h0 (values ++ [group]) st));
          [auto with js_reads | by intros | by intros st [Hu _]]. }
      intros ks. eapply triple_bind.
      { eapply triple_conseq.
        - apply (triple_for_each (mapping_inv h0 (values ++ [group])) (untouched h0)).
          intros k _. apply keyed_option_inv.
        - auto.
        - intros a st H. exact H.
        - auto. }
      intros []. apply triple_ret. by intros.
    + apply triple_ret. by intros.
Qed.

End Entry.

End MappingInv.

(** ** What a successful normalisation leaves behind *)

Lemma triple_for_each_witness {A} (I : state -> Prop) (E : state -> Prop)
  (W : A -> Prop) (xs : list A) (body : A -> JS unit) :
  (forall x, x ∈ xs -> triple I (body x) (fun _ st => I st /\ W x) E) ->
  triple I (for_each xs body) (fun _ st => I st /\ Forall W xs) E.
Proof.
  unfold for_each. induction xs as [| x xs IH]; intros Hbody st HI.
  - simpl. by split.
  - simpl. rewrite bind_unfold.
    pose proof (Hbody x ltac:(left) st HI) as Hx.
    destruct (body x st) as [[[] | e |] st1]; try done.
    destruct Hx as [HI1 HW].
    assert (forall y, y ∈ xs -> triple I (body y) (fun _ st => I st /\ W y) E) as Hrest
      by (intros y Hy; apply Hbody; by right).
    specialize (IH Hrest st1 HI1).
    destruct (for_acc xs () (fun _ y => body y) st1) as [[[] | e |] st2]; try done.
    destruct IH as [HI2 Hxs]. split; [done |]. by constructor.
Qed.

Lemma iterate_inv v its st st' :
  iterate v st = (Normal its, st') -> iterable_of (store st) v = Some its.
Proof.
  unfold iterate, iterable_of. destruct v as [| | | | s | l]; try done.
  - by intros [= <- _].
  - destruct (store st !! l) as [o |]; simpl; [| done].
    destruct (indexed_elems (kind_of o)); [| done]. by intros [= <- _].
Qed.

Lemma Get_inv v k w st st' :
  Get v k st = (Normal w, st') ->
  match v with
  | VRef l => exists o, store st !! l = Some o /\ w = object_get o k
  | VUndef | VNull => False
  | _ => True
  end.
Proof.
  unfold Get. destruct v as [| | | | | l]; try done.
  destruct (store st !! l) as [o |]; [| done].
  intros [= <- _]. by exists o.
Qed.

Lemma allocated_app h e v : allocated h v -> allocated (h ++ e) v.
Proof. intros (l & -> & Hl). exists l. split; [done |]. rewrite length_app. lia. Qed.

Lemma allocated_alter h (f : object -> object) l v :
  allocated h v -> allocated (alter f l h) v.
Proof. intros (l' & -> & Hl). exists l'. split; [done |]. by rewrite length_alter. Qed.

Lemma allocated_refs h vs :
  Forall (allocated h) vs ->
  exists ls, vs = map VRef ls /\ Forall (fun l => l < length h) ls.
Proof.
  induction 1 as [| v vs (l & -> & Hl) _ (ls & -> & Hls)].
  - by exists [].
  - exists (l :: ls). split; [done |]. by constructor.
Qed.

Lemma group_values_refs h vs :
  Forall (group_value_ok h) vs ->
  exists ls, vs = map VRef ls /\ Forall (group_ok h) ls.
Proof.
  induction 1 as [| v vs (l & -> & Hl) _ (ls & -> & Hls)].
  - by exists [].
  - exists (l :: ls). split; [done |]. by constructor.
Qed.

Lemma only_names_changed_group_value_ok h h' v :
  only_names_changed h h' -> group_value_ok h v -> group_value_ok h' v.
Proof.
  intros H (l & -> & Hok). exists l. split; [done |].
  by apply (only_names_changed_group_ok h).
Qed.

Lemma only_names_changed_options_iterate h h' l its :
  only_names_changed h h' -> options_iterate h l its -> options_iterate h' l its.
Proof.
  intros H (o & Hl & Hits). destruct (H l o Hl) as (o' & Hl' & _ & Hget).
  exists o'. split; [done |]. rewrite Hget by discriminate.
  by apply (only_names_changed_iterable h).
Qed.

Lemma fresh_group_value_ok n0 h v : fresh_group n0 h v -> group_value_ok h v.
Proof.
  intros (l & ps & a & psa & os & -> & Hl & Hg & Hopt & Ha & Harr & Hos).
  exists l. split; [done |]. exists os. split; [| done].
  unfold option_locs. rewrite Hg. simpl.
  rewrite object_get_plain, Hopt. simpl. rewrite Harr. simpl.
  apply mapM_Some. apply Forall2_fmap_l. by apply Forall_Forall2_diag, Forall_true.
Qed.

Section Success.

Variable i18nKey : string -> string.
Variable h0 : heap.

(** *** The array branch of [groupedOptions] *)

Let R : state -> Prop := fun st =>
  only_names_changed h0 (store st) /\ length (store st) = length h0.

Let I0 : list value -> state -> Prop := fun vs st =>
  R st /\ Forall (group_value_ok (store st)) vs.

Lemma R_put_name t h l w :
  R (State t h) -> R (State t (alter (put_prop "name" w) l h)).
Proof.
  intros [Hon Hlen]. split; simpl in *.
  - eapply only_names_changed_trans; [exact Hon |].
    apply only_names_changed_put_name.
  - by rewrite length_alter.
Qed.

Lemma I0_put_name vs t h l w :
  I0 vs (State t h) -> I0 vs (State t (alter (put_prop "name" w) l h)).
Proof.
  intros [HR Hvs]. split; [by apply R_put_name |]. simpl in *.
  eapply Forall_impl; [exact Hvs |]. intros v.
  apply only_names_changed_group_value_ok, only_names_changed_put_name.
Qed.

Lemma reads_array_option_name (hd : value) groupName (name : value) :
  reads (if truthy hd then i18nOptionGroupOptionKey i18nKey groupName name
         else mret name).
Proof. destruct (truthy hd); auto with js_reads. Qed.

Lemma array_option_success vs l its groupName option :
  triple (fun st => I0 vs st /\ options_iterate (store st) l its)
    (groupedOptions_array_option i18nKey groupName option)
    (fun _ st => (I0 vs st /\ options_iterate (store st) l its) /\
                 exists lo, option = VRef lo /\ lo < length h0)
    R.
Proof.
  unfold groupedOptions_array_option.
  eapply triple_bind.
  { apply (triple_read _ _ (fun _ st => I0 vs st /\ options_iterate (store st) l its));
      [auto with js_reads | by intros | by intros st [[HR _] _]]. }
  intros hd. eapply triple_bind.
  { apply (triple_read _ _ (fun _ st => I0 vs st /\ options_iterate (store st) l its));
      [auto with js_reads | by intros | by intros st [[HR _] _]]. }
  intros name. eapply triple_bind.
  { apply (triple_read _ _ (fun _ st => I0 vs st /\ options_iterate (store st) l its));
      [apply reads_array_option_name | by intros | by intros st [[HR _] _]]. }
  intros newName. apply triple_Put.
  - by intros st [[HR _] _].
  - intros [t h] lo o [HI Hits] Hv Hlo. simpl in *. split; [split |].
    + by apply I0_put_name.
    + eapply only_names_changed_options_iterate; [| exact Hits].
      apply only_names_changed_put_name.
    + exists lo. split; [done |]. destruct HI as [[_ Hlen] _]. simpl in Hlen.
      rewrite <- Hlen. by apply lookup_lt_Some in Hlo.
Qed.

Lemma array_group_success values group :
  triple (I0 values) (groupedOptions_array_group i18nKey values group) I0 R.
Proof.
  unfold groupedOptions_array_group.
  eapply triple_bind.
  { apply (triple_read _ _
             (fun isO st => I0 values st /\
                            (isO = true -> exists l, group = VRef l /\
                                                     l < length (store st)))).
    - auto with js_reads.
    - intros st isO HI [= <-]. split; [done |].
      destruct group as [| | | | | l]; try done. simpl.
      intros [o Ho]%bool_decide_eq_true. exists l. split; [done |].
      by apply lookup_lt_Some in Ho.
    - by intros st [HR _]. }
  intros [|]; [| apply triple_throw; by intros st [[HR _] _]].
  eapply triple_bind.
  { apply (triple_read _ _ (fun _ st => I0 values st));
      [auto with js_reads | by intros st a [HI _] | by intros st [[HR _] _]]. }
  intros groupName. eapply triple_bind.
  { apply (triple_read _ _ (fun _ st => I0 values st));
      [auto with js_reads | by intros | by intros st [HR _]]. }
  intros hd. eapply triple_bind.
  { apply (triple_read _ _ (fun _ st => I0 values st));
      [auto with js_reads | by intros | by intros st [HR _]]. }
  intros name. eapply triple_bind.
  { apply (triple_read _ _ (fun _ st => I0 values st));
      [apply reads_group_name_choice | by intros | by intros st [HR _]]. }
  intros newName. eapply triple_bind.
  { apply (triple_Put _ _ _ _
             (fun _ st => I0 values st /\ exists l, group = VRef l)).
    - by intros st [HR _].
    - intros [t h] l o HI Hv Hl. split; [by apply I0_put_name | by exists l]. }
  intros []. eapply triple_bind.
  { apply (triple_read _ _
             (fun opts st => I0 values st /\
                exists l o, group = VRef l /\ store st !! l = Some o /\
                            opts = object_get o "options")).
    - auto with js_reads.
    - intros st opts [HI [l Hg]] Hget. split; [done |].
      rewrite Hg in Hget. apply Get_inv in Hget as (o & Ho & ->).
      by exists l, o.
    - by intros st [[HR _] _]. }
  intros opts. eapply triple_bind.
  { apply (triple_read _ _
             (fun its st => I0 values st /\
                exists l, group = VRef l /\ options_iterate (store st) l its)).
    - auto with js_reads.
    - intros st its [HI (l & o & Hg & Ho & ->)] Hit. split; [done |].
      exists l. split; [done |]. exists o. split; [done |].
      by apply iterate_inv in Hit.
    - by intros st [[HR _] _]. }
  intros its.
  intros st [HI (l & Hg & Hits)].
  pose proof (triple_for_each_witness
                (fun st => I0 values st /\ options_iterate (store st) l its) R
                (fun option => exists lo, option = VRef lo /\ lo < length h0)
                its (groupedOptions_array_option i18nKey groupName)
                (fun x _ => array_option_success values l its groupName x)
                st (conj HI Hits)) as Hloop.
  rewrite bind_unfold.
  destruct (for_each its (groupedOptions_array_option i18nKey groupName) st)
    as [[[] | e |] st1]; try done.
  destruct Hloop as [[[HR Hvs] Hits1] Hall]. simpl.
  split; [done |]. apply Forall_app. split; [done |].
  constructor; [| constructor].
  exists l. split; [done |].
  destruct Hits1 as (o & Ho & Hiter).
  assert (exists os, its = map VRef os /\ Forall (fun lo => lo < length h0) os)
    as (os & -> & Hos).
  { clear -Hall. induction Hall as [| it its (lo & -> & Hlo) _ (os & -> & Hos)].
    - by exists [].
    - exists (lo :: os). split; [done |]. by constructor. }
  exists os. split.
  - unfold option_locs. rewrite Ho. simpl. rewrite Hiter. simpl.
    apply mapM_Some, Forall2_fmap_l. by apply Forall_Forall2_diag, Forall_true.
  - destruct HR as [_ Hlen]. by rewrite Hlen.
Qed.

Lemma groupedOptions_values_frame groups :
  triple (fun st => store st = h0) (groupedOptions_values i18nKey groups)
    (fun vs st => only_names_changed h0 (store st) /\
                  Forall (group_value_ok (store st)) vs)
    (fun st => only_names_changed h0 (store st)).
Proof.
  assert (forall st, store st = h0 -> only_names_changed h0 (store st)) as Hrefl.
  { intros st ->. apply only_names_changed_refl. }
  unfold groupedOptions_values.
  eapply triple_bind.
  { apply (triple_read _ _ (fun _ st => store st = h0));
      [auto with js_reads | by intros | done]. }
  intros [|].
  - eapply triple_bind.
    { apply (triple_read _ _ (fun _ st => store st = h0));
        [auto with js_reads | by intros | done]. }
    intros its.
    eapply triple_conseq.
    + apply (triple_for_acc I0 R). intros acc x _. apply array_group_success.
    + intros st Hst. split; [split |]; [by apply Hrefl | by rewrite Hst | constructor].
    + by intros vs st [[Hon _] Hvs].
    + by intros st [Hon _].
  - eapply triple_bind.
    { apply (triple_read _ _ (fun _ st => store st = h0));
        [auto with js_reads | by intros | done]. }
    intros [|]; [| apply triple_throw; done].
    eapply triple_bind.
    { apply (triple_read _ _ (fun _ st => store st = h0));
        [auto with js_reads | by intros | done]. }
    intros ks.
    eapply triple_conseq.
    + apply (triple_for_acc (mapping_inv h0) (untouched h0)).
      intros acc x _. apply mapping_entry_inv.
    + intros st Hst. split; [| constructor]. rewrite Hst. apply firstn_all.
    + intros vs st Hinv. split.
      * by eapply untouched_only_names_changed, mapping_inv_untouched.
      * destruct Hinv as [_ Hvs]. eapply Forall_impl; [exact Hvs |].
        intros v. apply fresh_group_value_ok.
    + apply untouched_only_names_changed.
Qed.

(** *** [options] *)

Let J : list value -> state -> Prop := fun vs st =>
  only_names_changed h0 (store st) /\ Forall (allocated (store st)) vs.

Let F : state -> Prop := fun st => only_names_changed h0 (store st).

Lemma J_app vs t h e : J vs (State t h) -> J vs (State t (h ++ e)).
Proof.
  intros [Hon Hvs]. split; simpl in *.
  - eapply only_names_changed_trans; [exact Hon |]. apply only_names_changed_app.
  - eapply Forall_impl; [exact Hvs |]. intros v. apply allocated_app.
Qed.

Lemma J_put_name vs t h l w :
  J vs (State t h) -> J vs (State t (alter (put_prop "name" w) l h)).
Proof.
  intros [Hon Hvs]. split; simpl in *.
  - eapply only_names_changed_trans; [exact Hon |].
    apply only_names_changed_put_name.
  - eapply Forall_impl; [exact Hvs |]. intros v. apply allocated_alter.
Qed.

Lemma J_snoc vs t h l o w :
  J vs (State t h) -> h !! l = Some o ->
  J (vs ++ [VRef l]) (State t (alter (put_prop "name" w) l h)).
Proof.
  intros HJ Hl. destruct (J_put_name vs t h l w HJ) as [Hon Hvs].
  split; [done |]. apply Forall_app. split; [done |].
  constructor; [| constructor]. exists l. split; [done |]. simpl.
  rewrite length_alter. by apply lookup_lt_Some in Hl.
Qed.

Lemma reads_flat_name_choice (hd name : value) :
  reads (if truthy hd then i18nOptionKey i18nKey name else mret name).
Proof. destruct (truthy hd); auto with js_reads. Qed.

Lemma options_array_item_frame values it :
  triple (J values) (options_array_item i18nKey values it) J F.
Proof.
  unfold options_array_item.
  eapply triple_bind.
  { apply (triple_read _ _ (fun _ st => J values st));
      [auto with js_reads | by intros | by intros st [Hon _]]. }
  intros isS. eapply triple_bind.
  { instantiate (1 := fun _ st => J values st).
    destruct (is_string it || isS).
    - apply triple_New. intros [t h] HJ. by apply J_app.
    - by apply triple_ret. }
  intros it'. eapply triple_bind.
  { apply (triple_read _ _ (fun _ st => J values st));
      [auto with js_reads | by intros | by intros st [Hon _]]. }
  intros hd. eapply triple_bind.
  { apply (triple_read _ _ (fun _ st => J values st));
      [auto with js_reads | by intros | by intros st [Hon _]]. }
  intros name. eapply triple_bind.
  { apply (triple_read _ _ (fun _ st => J values st));
      [apply reads_flat_name_choice | by intros | by intros st [Hon _]]. }
  intros newName. eapply triple_bind.
  { apply (triple_Put _ _ _ _ (fun _ st => J (values ++ [it']) st)).
    - by intros st [Hon _].
    - intros [t h] l o HJ -> Hl. by eapply J_snoc. }
  intros []. by apply triple_ret.
Qed.

Lemma options_mapping_entry_frame opts values property :
  triple (J values) (options_mapping_entry i18nKey opts values property) J F.
Proof.
  unfold options_mapping_entry.
  eapply triple_bind.
  { apply (triple_read _ _ (fun _ st => J values st));
      [auto with js_reads | by intros | by intros st [Hon _]]. }
  intros v. eapply triple_bind.
  { apply (triple_New _ _ _ (fun _ st => J values st)).
    intros [t h] HJ. by apply J_app. }
  intros option. eapply triple_bind.
  { apply (triple_read _ _ (fun _ st => J values st));
      [auto with js_reads | by intros | by intros st [Hon _]]. }
  intros hd. eapply triple_bind.
  { apply (triple_read _ _ (fun _ st => J values st));
      [apply reads_flat_name_choice | by intros | by intros st [Hon _]]. }
  intros newName. eapply triple_bind.
  { apply (triple_Put _ _ _ _ (fun _ st => J (values ++ [option]) st)).
    - by intros st [Hon _].
    - intros [t h] l o HJ -> Hl. by eapply J_snoc. }
  intros []. by apply triple_ret.
Qed.

Lemma options_values_frame opts :
  triple (fun st => store st = h0) (options_values i18nKey opts)
    (fun vs st => only_names_changed h0 (store st) /\
                  Forall (allocated (store st)) vs)
    (fun st => only_names_changed h0 (store st)).
Proof.
  assert (forall st, store st = h0 -> only_names_changed h0 (store st)) as Hrefl.
  { intros st ->. apply only_names_changed_refl. }
  assert (forall st, store st = h0 -> J [] st) as Hstart.
  { intros st Hst. split; [by apply Hrefl | constructor]. }
  unfold options_values.
  eapply triple_bind.
  { apply (triple_read _ _ (fun _ st => store st = h0));
      [auto with js_reads | by intros | done]. }
  intros [|].
  - eapply triple_bind.
    { apply (triple_read _ _ (fun _ st => store st = h0));
        [auto with js_reads | by intros | done]. }
    intros its.
    apply (triple_conseq _ (J []) _ _ J _ F);
      [| exact Hstart | by intros vs st HJ | by intros st HF].
    apply (triple_for_acc J F). intros acc x _. apply options_array_item_frame.
  - eapply triple_bind.
    { apply (triple_read _ _ (fun _ st => store st = h0));
        [auto with js_reads | by intros | done]. }
    intros [|]; [| apply triple_throw; done].
    eapply triple_bind.
    { apply (triple_read _ _ (fun _ st => store st = h0));
        [auto with js_reads | by intros | done]. }
    intros ks.
    apply (triple_conseq _ (J []) _ _ J _ F);
      [| exact Hstart | by intros vs st HJ | by intros st HF].
    apply (triple_for_acc J F). intros acc x _. apply options_mapping_entry_frame.
Qed.

End Success.

(** ** What a call of [options] or [groupedOptions] leaves behind *)

Lemma keeps_this_elim {A} (m : JS A) t st r st' :
  keeps (fun st => this st = t) m -> this st = t -> m st = (r, st') -> this st' = t.
Proof. intros Hk Ht Hrun. exact (keeps_elim _ m st r st' Hk Ht Hrun). Qed.

Lemma grouped_ok_new h gls :
  Forall (group_ok h) gls ->
  grouped_ok (h ++ [Obj (KArray (map VRef gls)) []]) (VRef (length h)).
Proof.
  intros Hgls l [= <-]. split.
  - rewrite length_app. simpl. lia.
  - intros _. exists [], gls. split; [apply lookup_app_len |].
    eapply Forall_impl; [exact Hgls |]. intros g.
    apply only_names_changed_group_ok, only_names_changed_app.
Qed.

Lemma flat_ok_new h fls :
  Forall (fun l => l < length h) fls ->
  flat_ok (h ++ [Obj (KArray (map VRef fls)) []]) (VRef (length h)).
Proof.
  intros Hfls l [= <-]. split.
  - rewrite length_app. simpl. lia.
  - intros _. exists [], fls. split; [apply lookup_app_len |].
    eapply Forall_impl; [exact Hfls |]. intros g Hg. rewrite length_app. simpl in *. lia.
Qed.

Lemma is_array_new h es ps : is_array (h ++ [Obj (KArray es) ps]) (VRef (length h)) = true.
Proof. simpl. by rewrite lookup_app_len. Qed.

(** However [groupedOptions] ends, the objects that were there differ at
    most in their names; when it returns, the field holds a new array of
    groups the loops of [toJson] go through, and [_options] is the value
    it was. *)
Lemma groupedOptions_outcome i18nKey groups st r st' :
  groupedOptions i18nKey groups st = (r, st') ->
  only_names_changed (store st) (store st') /\
  (r = Normal tt ->
   exists arr, this st' = with_groupedOptions arr (this st) /\
               is_array (store st') arr = true /\
               grouped_ok (store st') arr).
Proof.
  unfold groupedOptions. rewrite bind_unfold.
  pose proof (groupedOptions_values_frame i18nKey (store st) groups st eq_refl) as Hframe.
  pose proof (keeps_this_groupedOptions_values i18nKey (this st) groups) as Hthis.
  destruct (groupedOptions_values i18nKey groups st) as [[vs | e |] st1] eqn:Hrun.
  - pose proof (keeps_this_elim _ _ _ _ _ Hthis eq_refl Hrun) as Ht1.
    destruct Hframe as [Hon Hvs]. destruct st1 as [t1 h1]. simpl in *. subst t1.
    rewrite bind_unfold, New_run. intros [= <- <-]. simpl. split.
    + eapply only_names_changed_trans; [exact Hon |]. apply only_names_changed_app.
    + intros _. exists (VRef (length h1)). split; [done |].
      destruct (group_values_refs _ _ Hvs) as (gls & -> & Hgls).
      split; [apply is_array_new | by apply grouped_ok_new].
  - intros [= <- <-]. split; [exact Hframe | discriminate].
  - intros [= <- <-]. split; [exact Hframe | discriminate].
Qed.

Lemma options_outcome i18nKey opts st r st' :
  options i18nKey opts st = (r, st') ->
  only_names_changed (store st) (store st') /\
  (r = Normal tt ->
   exists arr, this st' = with_options arr (this st) /\
               is_array (store st') arr = true /\
               flat_ok (store st') arr).
Proof.
  unfold options. rewrite bind_unfold.
  pose proof (options_values_frame i18nKey (store st) opts st eq_refl) as Hframe.
  pose proof (keeps_this_options_values i18nKey (this st) opts) as Hthis.
  destruct (options_values i18nKey opts st) as [[vs | e |] st1] eqn:Hrun.
  - pose proof (keeps_this_elim _ _ _ _ _ Hthis eq_refl Hrun) as Ht1.
    destruct Hframe as [Hon Hvs]. destruct st1 as [t1 h1]. simpl in *. subst t1.
    rewrite bind_unfold, New_run. intros [= <- <-]. simpl. split.
    + eapply only_names_changed_trans; [exact Hon |]. apply only_names_changed_app.
    + intros _. exists (VRef (length h1)). split; [done |].
      destruct (allocated_refs _ _ Hvs) as (fls & -> & Hfls).
      split; [apply is_array_new | by apply flat_ok_new].
  - intros [= <- <-]. split; [exact Hframe | discriminate].
  - intros [= <- <-]. split; [exact Hframe | discriminate].
Qed.

(** ** Running [toJson] *)

Lemma for_each_cons {A} (x : A) xs (body : A -> JS unit) st :
  for_each (x :: xs) body st = (body x ≫= fun _ => for_each xs body) st.
Proof.
  unfold for_each. cbn [for_acc]. rewrite !bind_unfold.
  by destruct (body x st) as [[[] | e |] st'].
Qed.

Lemma for_each_nil {A} (body : A -> JS unit) st :
  for_each [] body st = (Normal tt, st).
Proof. reflexivity. Qed.

Lemma kind_rename_all f ls h l :
  kind_of <$> rename_all f ls h !! l = kind_of <$> h !! l.
Proof.
  revert h. induction ls as [| l0 ls IH]; intros h; [done |].
  simpl. by rewrite IH, rename_kind.
Qed.

Lemma is_array_rename_all f ls h v : is_array (rename_all f ls h) v = is_array h v.
Proof. destruct v; try done. simpl. by rewrite kind_rename_all. Qed.

Lemma read_array_rename_all f ls h v : read_array (rename_all f ls h) v = read_array h v.
Proof. destruct v; try done. simpl. by rewrite kind_rename_all. Qed.

Lemma put_array_rename_all f ls h k v ps :
  put_array (rename_all f ls h) k v ps = put_array h k v ps.
Proof. unfold put_array. by rewrite is_array_rename_all. Qed.

Lemma array_locs_rename_all f ls h v : array_locs (rename_all f ls h) v = array_locs h v.
Proof. unfold array_locs. by rewrite read_array_rename_all. Qed.

Lemma iterable_of_rename_all f ls h v :
  iterable_of (rename_all f ls h) v = iterable_of h v.
Proof.
  revert h. induction ls as [| l0 ls IH]; intros h; [done |].
  simpl. by rewrite IH, iterable_of_rename.
Qed.

Lemma visited_rename_all f ls h gs : visited (rename_all f ls h) gs = visited h gs.
Proof.
  unfold visited. f_equal. apply map_ext. intros g.
  by rewrite option_locs_rename_all.
Qed.

Lemma iterable_of_app h e v es :
  iterable_of h v = Some es -> iterable_of (h ++ e) v = Some es.
Proof. apply only_names_changed_iterable, only_names_changed_app. Qed.

Lemma GetIndex_iterable v es i t h :
  iterable_of h v = Some es ->
  GetIndex v i (State t h) = (Normal (default VUndef (es !! i)), State t h).
Proof.
  destruct v as [| | | | s | l]; try done; simpl.
  - by intros [= <-].
  - unfold GetIndex. simpl. destruct (h !! l) as [o |]; [| done]. simpl.
    intros Hes. unfold object_get_index. by rewrite Hes.
Qed.

Lemma Get_length_iterable v es t h :
  iterable_of h v = Some es ->
  Get v "length" (State t h) = (Normal (VNum (Z.of_nat (length es))), State t h).
Proof.
  destruct v as [| | | | s | l]; try done; simpl.
  - by intros [= <-].
  - unfold Get. simpl. destruct (h !! l) as [o |]; [| done]. simpl.
    intros Hes. unfold object_get. by rewrite Hes.
Qed.

Lemma loop_bound_run n st :
  loop_bound (VNum (Z.of_nat n)) st = (Normal n, st).
Proof. simpl. by rewrite Nat2Z.id. Qed.

Lemma is_array_app_allocated h e v :
  (forall l, v = VRef l -> l < length h) -> is_array (h ++ e) v = is_array h v.
Proof.
  destruct v as [| | | | | l]; try done. intros Hl. simpl.
  by rewrite lookup_app_l by auto.
Qed.

Lemma read_array_iterable h v es :
  is_array h v = true -> iterable_of h v = Some es -> read_array h v = Some es.
Proof.
  destruct v as [| | | | | l]; try done. simpl.
  destruct (h !! l) as [[[| es' |] ps] |]; try done. 
Qed.

Section ToJson.

Variable translate : value -> value.
Variable t : EnumSetting.
Variable ps : list (string * value).

Lemma put_if_run k v H n :
  length H = n ->
  (if truthy v then Put (VRef n) k v else mret tt) (State t (H ++ [Obj KPlain ps]))
  = (Normal tt, State t (H ++ [Obj KPlain (put_if k v ps)])).
Proof.
  intros <-. unfold put_if. destruct (truthy v); [| done].
  erewrite Put_run by apply lookup_app_len. by rewrite alter_app_len.
Qed.

(** *** The loop over the flat options *)

Lemma toJson_flat_run H n fls i l :
  length H = n ->
  lookup_prop "options" ps = Some (_options t) ->
  iterable_of H (_options t) = Some (map VRef fls) ->
  fls !! i = Some l -> l < length H ->
  toJson_flat translate (VRef n) i (State t (H ++ [Obj KPlain ps]))
  = (Normal tt, State t (rename translate l H ++ [Obj KPlain ps])).
Proof.
  intros <- Hps Hfls Hi Hl.
  destruct (lookup_lt_is_Some_2 H l Hl) as [o Ho].
  unfold toJson_flat. rewrite bind_unfold, get_this_run. cbv beta iota.
  rewrite bind_unfold.
  rewrite (GetIndex_iterable _ (map VRef fls)) by by apply iterable_of_app.
  rewrite list_lookup_fmap, Hi. simpl.
  rewrite bind_unfold. erewrite Get_run by apply lookup_app_len. cbv beta iota.
  rewrite object_get_plain, Hps. simpl.
  rewrite bind_unfold.
  rewrite (GetIndex_iterable _ (map VRef fls)) by by apply iterable_of_app.
  rewrite list_lookup_fmap, Hi. simpl.
  rewrite bind_unfold. erewrite Get_run by by apply lookup_app_l_Some. cbv beta iota.
  erewrite Put_run by by apply lookup_app_l_Some.
  rewrite (Put_name_rename translate l o) by by apply lookup_app_l_Some.
  by rewrite rename_app_l.
Qed.

Lemma toJson_flat_loop n fls :
  lookup_prop "options" ps = Some (_options t) ->
  forall m k H,
    length H = n ->
    iterable_of H (_options t) = Some (map VRef fls) ->
    Forall (fun l => l < length H) fls ->
    k + m <= length fls ->
    for_each (seq k m) (toJson_flat translate (VRef n)) (State t (H ++ [Obj KPlain ps]))
    = (Normal tt,
       State t (rename_all translate (take m (drop k fls)) H ++ [Obj KPlain ps])).
Proof.
  intros Hps. induction m as [| m IH]; intros k H Hn Hfls Hall Hkm.
  - reflexivity.
  - destruct (lookup_lt_is_Some_2 fls k ltac:(lia)) as [l Hk].
    assert (l < length H) as Hl.
    { rewrite Forall_forall in Hall. apply Hall. by eapply list_elem_of_lookup_2. }
    cbn [seq]. rewrite for_each_cons, bind_unfold.
    rewrite (toJson_flat_run H n fls k l Hn Hps Hfls Hk Hl).
    rewrite IH.
    + rewrite (drop_S _ _ _ Hk). done.
    + by rewrite length_rename.
    + by rewrite iterable_of_rename.
    + by rewrite length_rename.
    + lia.
Qed.

End ToJson.

Lemma mapM_ref_loc_map ls : mapM ref_loc (map VRef ls) = Some ls.
Proof.
  apply mapM_Some, Forall2_fmap_l. by apply Forall_Forall2_diag, Forall_true.
Qed.

Lemma array_locs_array h l ls ps :
  h !! l = Some (Obj (KArray (map VRef ls)) ps) -> array_locs h (VRef l) = ls.
Proof.
  intros Hl. unfold array_locs. simpl. rewrite Hl. simpl.
  by rewrite mapM_ref_loc_map.
Qed.

Lemma array_locs_not_array h v : is_array h v = false -> array_locs h v = [].
Proof.
  unfold array_locs. destruct v as [| | | | | l]; try done. simpl.
  by destruct (h !! l) as [[[| es |] ps] |].
Qed.

Lemma is_array_inv h v :
  is_array h v = true -> exists l es ps, v = VRef l /\ h !! l = Some (Obj (KArray es) ps).
Proof.
  destruct v as [| | | | | l]; try done. simpl.
  destruct (h !! l) as [[[| es |] ps] |] eqn:Hl; try done.
  intros _. by exists l, es, ps.
Qed.

Section ToJsonBlocks.

Variable translate : value -> value.
Variable t : EnumSetting.

Lemma toJson_flat_block ps H n :
  length H = n ->
  flat_ok H (_options t) ->
  (if is_array (H ++ [Obj KPlain ps]) (_options t) : bool then
     Put (VRef n) "options" (_options t);;
     len ← Get (_options t) "length";
     k ← loop_bound len;
     for_each (seq 0 k) (toJson_flat translate (VRef n))
   else mret tt) (State t (H ++ [Obj KPlain ps]))
  = (Normal tt,
     State t (rename_all translate (array_locs H (_options t)) H
              ++ [Obj KPlain (put_array H "options" (_options t) ps)])).
Proof.
  intros Hn Hok.
  rewrite is_array_app_allocated by (intros l Hl; by apply Hok).
  unfold put_array. destruct (is_array H (_options t)) eqn:Harr.
  - destruct (is_array_inv _ _ Harr) as (lf & es & ps0 & Hv & _).
    destruct (Hok lf Hv) as (Hlf & Hfls). rewrite Harr in Hfls.
    destruct (Hfls eq_refl) as (ps1 & fls & Hlook & Hall).
    rewrite bind_unfold. rewrite <- Hn at 1.
    erewrite Put_run by apply lookup_app_len. rewrite alter_app_len.
    cbv beta iota. unfold put_prop. cbn [kind_of props].
    assert (iterable_of H (_options t) = Some (map VRef fls)) as Hit.
    { rewrite Hv. simpl. by rewrite Hlook. }
    rewrite bind_unfold.
    rewrite (Get_length_iterable _ (map VRef fls)) by by apply iterable_of_app.
    rewrite bind_unfold, loop_bound_run, length_map.
    rewrite (toJson_flat_loop translate t _ n fls); try done.
    + rewrite drop_0, firstn_all.
      by rewrite Hv, (array_locs_array _ _ _ _ Hlook).
    + apply lookup_prop_set_prop_eq.
  - by rewrite (array_locs_not_array _ _ Harr).
Qed.

End ToJsonBlocks.

Lemma option_locs_inv h l os :
  option_locs h l = Some os ->
  exists o, h !! l = Some o /\
            iterable_of h (object_get o "options") = Some (map VRef os).
Proof.
  unfold option_locs. destruct (h !! l) as [o |] eqn:Ho; [| done]. simpl.
  destruct (iterable_of h (object_get o "options")) as [es |] eqn:Hes; [| done].
  simpl. intros Hm. apply mapM_ref_loc in Hm. subst es. by exists o.
Qed.

Lemma group_ok_rename f l h g : group_ok h g -> group_ok (rename f l h) g.
Proof. apply only_names_changed_group_ok, only_names_changed_rename. Qed.

Lemma group_ok_rename_all f ls h g : group_ok h g -> group_ok (rename_all f ls h) g.
Proof. apply only_names_changed_group_ok, only_names_changed_rename_all. Qed.

Section ToJsonGroups.

Variable translate : value -> value.
Variable t : EnumSetting.
Variable ps : list (string * value).
Variable n : nat.
Variable gls : list loc.
Hypothesis Hps : lookup_prop "groupedOptions" ps = Some (_groupedOptions t).

Lemma toJson_option_run H i gl os g lo :
  length H = n ->
  iterable_of H (_groupedOptions t) = Some (map VRef gls) ->
  gls !! i = Some gl ->
  option_locs H gl = Some os ->
  os !! g = Some lo -> lo < length H ->
  toJson_option translate (VRef n) i g (State t (H ++ [Obj KPlain ps]))
  = (Normal tt, State t (rename translate lo H ++ [Obj KPlain ps])).
Proof.
  intros Hn Hgls Hi Hos Hg Hlo. subst n.
  destruct (option_locs_inv _ _ _ Hos) as (o & Ho & Hit).
  destruct (lookup_lt_is_Some_2 H lo Hlo) as [oo Hoo].
  assert (forall st' : state,
            GetIndex (_groupedOptions t) i (State t (H ++ [Obj KPlain ps]))
            = (Normal (VRef gl), State t (H ++ [Obj KPlain ps]))) as Hgroup.
  { intros _.
    rewrite (GetIndex_iterable _ (map VRef gls)) by by apply iterable_of_app.
    by rewrite list_lookup_fmap, Hi. }
  assert (GetIndex (object_get o "options") g (State t (H ++ [Obj KPlain ps]))
          = (Normal (VRef lo), State t (H ++ [Obj KPlain ps]))) as Hoption.
  { rewrite (GetIndex_iterable _ (map VRef os)) by by apply iterable_of_app.
    by rewrite list_lookup_fmap, Hg. }
  unfold toJson_option. rewrite bind_unfold, get_this_run. cbv beta iota.
  rewrite bind_unfold, (Hgroup (State t H)). cbv beta iota.
  rewrite bind_unfold. erewrite Get_run by by apply lookup_app_l_Some. cbv beta iota.
  rewrite bind_unfold, Hoption. cbv beta iota.
  rewrite bind_unfold. erewrite Get_run by apply lookup_app_len. cbv beta iota.
  rewrite object_get_plain, Hps. simpl.
  rewrite bind_unfold, (Hgroup (State t H)). cbv beta iota.
  rewrite bind_unfold. erewrite Get_run by by apply lookup_app_l_Some. cbv beta iota.
  rewrite bind_unfold, Hoption. cbv beta iota.
  rewrite bind_unfold. erewrite Get_run by by apply lookup_app_l_Some. cbv beta iota.
  erewrite Put_run by by apply lookup_app_l_Some.
  rewrite (Put_name_rename translate lo oo) by by apply lookup_app_l_Some.
  by rewrite rename_app_l.
Qed.

Lemma toJson_option_loop i gl os :
  gls !! i = Some gl ->
  forall m k H,
    length H = n ->
    iterable_of H (_groupedOptions t) = Some (map VRef gls) ->
    option_locs H gl = Some os ->
    Forall (fun l => l < length H) os ->
    k + m <= length os ->
    for_each (seq k m) (toJson_option translate (VRef n) i)
      (State t (H ++ [Obj KPlain ps]))
    = (Normal tt,
       State t (rename_all translate (take m (drop k os)) H ++ [Obj KPlain ps])).
Proof.
  intros Hi. induction m as [| m IH]; intros k H Hn Hgls Hos Hall Hkm.
  - reflexivity.
  - destruct (lookup_lt_is_Some_2 os k ltac:(lia)) as [lo Hk].
    assert (lo < length H) as Hlo.
    { rewrite Forall_forall in Hall. apply Hall. by eapply list_elem_of_lookup_2. }
    cbn [seq]. rewrite for_each_cons, bind_unfold.
    rewrite (toJson_option_run H i gl os k lo Hn Hgls Hi Hos Hk Hlo).
    rewrite IH.
    + by rewrite (drop_S _ _ _ Hk).
    + by rewrite length_rename.
    + by rewrite iterable_of_rename.
    + by rewrite option_locs_rename.
    + by rewrite length_rename.
    + lia.
Qed.

Lemma toJson_group_run H i gl os :
  length H = n ->
  iterable_of H (_groupedOptions t) = Some (map VRef gls) ->
  gls !! i = Some gl ->
  option_locs H gl = Some os ->
  Forall (fun l => l < length H) os ->
  toJson_group translate (VRef n) i (State t (H ++ [Obj KPlain ps]))
  = (Normal tt, State t (rename_all translate (gl :: os) H ++ [Obj KPlain ps])).
Proof.
  intros Hn Hgls Hi Hos Hall.
  destruct (option_locs_inv _ _ _ Hos) as (o & Ho & Hit).
  assert (gl < length H) as Hgl by by apply lookup_lt_Some in Ho.
  assert (forall H', iterable_of H' (_groupedOptions t) = Some (map VRef gls) ->
            GetIndex (_groupedOptions t) i (State t (H' ++ [Obj KPlain ps]))
            = (Normal (VRef gl), State t (H' ++ [Obj KPlain ps]))) as Hgroup.
  { intros H' Hgls'.
    rewrite (GetIndex_iterable _ (map VRef gls)) by by apply iterable_of_app.
    by rewrite list_lookup_fmap, Hi. }
  unfold toJson_group. rewrite bind_unfold, get_this_run. cbv beta iota.
  rewrite bind_unfold, (Hgroup H Hgls). cbv beta iota.
  rewrite bind_unfold. rewrite <- Hn at 1.
  erewrite Get_run by apply lookup_app_len. cbv beta iota.
  rewrite object_get_plain, Hps. simpl.
  rewrite bind_unfold, (Hgroup H Hgls). cbv beta iota.
  rewrite bind_unfold. erewrite Get_run by by apply lookup_app_l_Some. cbv beta iota.
  rewrite bind_unfold.
  erewrite Put_run by by apply lookup_app_l_Some.
  rewrite (Put_name_rename translate gl o) by by apply lookup_app_l_Some.
  rewrite rename_app_l by done. cbv beta iota.
  rewrite bind_unfold, Hgroup by by rewrite iterable_of_rename. cbv beta iota.
  rewrite bind_unfold.
  erewrite Get_run by (apply lookup_app_l_Some; by apply rename_lookup_eq).
  cbv beta iota. rewrite object_get_put_prop_ne by done.
  rewrite bind_unfold.
  rewrite (Get_length_iterable _ (map VRef os))
    by (apply iterable_of_app; by rewrite iterable_of_rename).
  rewrite bind_unfold, loop_bound_run, length_map.
  rewrite (toJson_option_loop i gl os Hi).
  - by rewrite drop_0, firstn_all.
  - by rewrite length_rename.
  - by rewrite iterable_of_rename.
  - by rewrite option_locs_rename.
  - by rewrite length_rename.
  - lia.
Qed.

Lemma toJson_group_loop :
  forall m k H,
    length H = n ->
    iterable_of H (_groupedOptions t) = Some (map VRef gls) ->
    Forall (group_ok H) gls ->
    k + m <= length gls ->
    for_each (seq k m) (toJson_group translate (VRef n))
      (State t (H ++ [Obj KPlain ps]))
    = (Normal tt,
       State t (rename_all translate (visited H (take m (drop k gls))) H
                ++ [Obj KPlain ps])).
Proof.
  induction m as [| m IH]; intros k H Hn Hgls Hall Hkm.
  - reflexivity.
  - destruct (lookup_lt_is_Some_2 gls k ltac:(lia)) as [gl Hk].
    assert (group_ok H gl) as (os & Hos & Hlt).
    { rewrite Forall_forall in Hall. apply Hall. by eapply list_elem_of_lookup_2. }
    cbn [seq]. rewrite for_each_cons, bind_unfold.
    rewrite (toJson_group_run H k gl os Hn Hgls Hk Hos Hlt).
    rewrite IH.
    + rewrite (drop_S _ _ _ Hk). cbn [take]. rewrite visited_cons, Hos.
      cbn [default]. by rewrite visited_rename_all, <- rename_all_app.
    + by rewrite length_rename_all.
    + by rewrite iterable_of_rename_all.
    + eapply Forall_impl; [exact Hall |]. intros g. apply group_ok_rename_all.
    + lia.
Qed.

End ToJsonGroups.

Section ToJsonRun.

Variable translate : value -> value.
Variable base_fields : EnumSetting -> list (string * value).
Variable t : EnumSetting.

Lemma toJson_group_block ps H n :
  length H = n ->
  grouped_ok H (_groupedOptions t) ->
  (if is_array (H ++ [Obj KPlain ps]) (_groupedOptions t) : bool then
     Put (VRef n) "groupedOptions" (_groupedOptions t);;
     len ← Get (_groupedOptions t) "length";
     k ← loop_bound len;
     for_each (seq 0 k) (toJson_group translate (VRef n))
   else mret tt) (State t (H ++ [Obj KPlain ps]))
  = (Normal tt,
     State t (rename_all translate (visited H (array_locs H (_groupedOptions t))) H
              ++ [Obj KPlain (put_array H "groupedOptions" (_groupedOptions t) ps)])).
Proof.
  intros Hn Hok.
  rewrite is_array_app_allocated by (intros l Hl; by apply Hok).
  unfold put_array. destruct (is_array H (_groupedOptions t)) eqn:Harr.
  - destruct (is_array_inv _ _ Harr) as (lg & es & ps0 & Hv & _).
    destruct (Hok lg Hv) as (Hlg & Hgls). rewrite Harr in Hgls.
    destruct (Hgls eq_refl) as (ps1 & gls & Hlook & Hall).
    rewrite bind_unfold. rewrite <- Hn at 1.
    erewrite Put_run by apply lookup_app_len. rewrite alter_app_len.
    cbv beta iota. unfold put_prop. cbn [kind_of props].
    assert (iterable_of H (_groupedOptions t) = Some (map VRef gls)) as Hit.
    { rewrite Hv. simpl. by rewrite Hlook. }
    rewrite bind_unfold.
    rewrite (Get_length_iterable _ (map VRef gls)) by by apply iterable_of_app.
    rewrite bind_unfold, loop_bound_run, length_map.
    rewrite (toJson_group_loop translate t _ n gls); try done.
    + rewrite drop_0, firstn_all.
      by rewrite Hv, (array_locs_array _ _ _ _ Hlook).
    + apply lookup_prop_set_prop_eq.
  - by rewrite (array_locs_not_array _ _ Harr).
Qed.

Lemma toJson_run h :
  stored_ok (State t h) ->
  toJson translate base_fields (State t h)
  = (Normal (VRef (length h)),
     State t (rename_all translate (translated h t) h
              ++ [Obj KPlain (document_fields base_fields t h)])).
Proof.
  intros [Hflat Hgrouped]. simpl in Hflat, Hgrouped.
  unfold toJson, super_toJson.
  rewrite bind_unfold, bind_unfold, get_this_run. cbv beta iota.
  rewrite New_run. cbv beta iota.
  rewrite bind_unfold, get_this_run. cbv beta iota.
  rewrite bind_unfold, (put_if_run t _ _ _ h (length h) eq_refl). cbv beta iota.
  rewrite bind_unfold, (put_if_run t _ _ _ h (length h) eq_refl). cbv beta iota.
  rewrite bind_unfold, Array_isArray_run. cbv beta iota.
  rewrite bind_unfold, (toJson_group_block _ h (length h) eq_refl Hgrouped).
  cbv beta iota.
  rewrite bind_unfold, Array_isArray_run. cbv beta iota.
  rewrite bind_unfold.
  rewrite (toJson_flat_block translate t _ _ (length h)).
  - cbv beta iota.
    rewrite bind_unfold.
    rewrite (put_if_run t _ _ _ _ (length h)) by by rewrite !length_rename_all.
    cbv beta iota. rewrite ret_unfold.
    unfold translated, document_fields.
    by rewrite rename_all_app, array_locs_rename_all, !(put_array_rename_all).
  - apply length_rename_all.
  - eapply only_names_changed_flat_ok; [| exact Hflat].
    apply only_names_changed_rename_all.
Qed.

End ToJsonRun.

(** ** Well-formed stored fields along the life of a setting *)

Lemma stored_ok_new section id h : stored_ok (State (new_EnumSetting section id) h).
Proof. split; intros l Hl; discriminate. Qed.

Lemma options_stored_ok i18nKey opts st st' :
  stored_ok st -> options i18nKey opts st = (Normal tt, st') -> stored_ok st'.
Proof.
  intros [_ Hg] Hrun.
  destruct (options_outcome _ _ _ _ _ Hrun) as [Hon Hok].
  destruct (Hok eq_refl) as (arr & Ht & _ & Hflat).
  split; rewrite Ht; simpl; [done |].
  by eapply only_names_changed_grouped_ok.
Qed.

Lemma groupedOptions_stored_ok i18nKey groups st st' :
  stored_ok st -> groupedOptions i18nKey groups st = (Normal tt, st') -> stored_ok st'.
Proof.
  intros [Hf _] Hrun.
  destruct (groupedOptions_outcome _ _ _ _ _ Hrun) as [Hon Hok].
  destruct (Hok eq_refl) as (arr & Ht & _ & Hgrouped).
  split; rewrite Ht; simpl; [| done].
  by eapply only_names_changed_flat_ok.
Qed.

Lemma stored_ok_only_names_changed t h h' :
  only_names_changed h h' -> stored_ok (State t h) -> stored_ok (State t h').
Proof.
  intros Hon [Hf Hg]. split; simpl in *.
  - by eapply only_names_changed_flat_ok.
  - by eapply only_names_changed_grouped_ok.
Qed.

(** *** The objects [toJson] renames *)

Lemma array_locs_flat_ok h v :
  flat_ok h v -> Forall (fun l => l < length h) (array_locs h v).
Proof.
  intros Hok. destruct (is_array h v) eqn:Harr.
  - destruct (is_array_inv _ _ Harr) as (l & es & ps & -> & _).
    destruct (Hok l eq_refl) as [_ Hfls].
    destruct (Hfls Harr) as (ps1 & fls & Hl & Hall).
    by rewrite (array_locs_array _ _ _ _ Hl).
  - rewrite array_locs_not_array by done. constructor.
Qed.

Lemma array_locs_grouped_ok h v :
  grouped_ok h v -> Forall (group_ok h) (array_locs h v).
Proof.
  intros Hok. destruct (is_array h v) eqn:Harr.
  - destruct (is_array_inv _ _ Harr) as (l & es & ps & -> & _).
    destruct (Hok l eq_refl) as [_ Hgls].
    destruct (Hgls Harr) as (ps1 & gls & Hl & Hall).
    by rewrite (array_locs_array _ _ _ _ Hl).
  - rewrite array_locs_not_array by done. constructor.
Qed.

Lemma visited_lt h gls :
  Forall (group_ok h) gls -> Forall (fun l => l < length h) (visited h gls).
Proof.
  intros Hall. unfold visited. apply Forall_concat, Forall_fmap.
  eapply Forall_impl; [exact Hall |]. intros g (os & Hos & Hlt). simpl.
  rewrite Hos. simpl. constructor; [| done].
  destruct (option_locs_inv _ _ _ Hos) as (o & Ho & _).
  by apply lookup_lt_Some in Ho.
Qed.

Lemma translated_lt t h :
  stored_ok (State t h) -> Forall (fun l => l < length h) (translated h t).
Proof.
  intros [Hf Hg]. simpl in *. unfold translated. apply Forall_app. split.
  - by apply visited_lt, array_locs_grouped_ok.
  - by apply array_locs_flat_ok.
Qed.

Lemma is_array_stable h h' v :
  (forall l, v = VRef l -> l < length h) ->
  only_names_changed h h' -> is_array h' v = is_array h v.
Proof.
  intros Hlt Hon. destruct v as [| | | | | l]; try done.
  destruct (lookup_lt_is_Some_2 h l (Hlt l eq_refl)) as [o Ho].
  simpl. rewrite Ho. by rewrite (only_names_changed_kind _ _ _ _ Hon Ho).
Qed.

Lemma array_locs_stable h h' v :
  (forall l, v = VRef l -> l < length h) ->
  only_names_changed h h' -> array_locs h' v = array_locs h v.
Proof.
  intros Hlt Hon. destruct v as [| | | | | l]; try done.
  destruct (lookup_lt_is_Some_2 h l (Hlt l eq_refl)) as [o Ho].
  unfold array_locs. simpl. rewrite Ho.
  by rewrite (only_names_changed_kind _ _ _ _ Hon Ho).
Qed.

Lemma visited_stable h h' gls :
  Forall (group_ok h) gls -> only_names_changed h h' ->
  visited h' gls = visited h gls.
Proof.
  intros Hall Hon. unfold visited. f_equal.
  induction Hall as [| g gls (os & Hos & _) _ IH]; [done |].
  simpl. rewrite IH. f_equal.
  by rewrite Hos, (only_names_changed_option_locs _ _ _ _ Hon Hos).
Qed.

Lemma translated_stable t h h' :
  stored_ok (State t h) -> only_names_changed h h' ->
  translated h' t = translated h t.
Proof.
  intros [Hf Hg] Hon. simpl in *. unfold translated.
  rewrite (array_locs_stable h h' (_options t)) by (try done; intros l Hl; by apply Hf).
  rewrite (array_locs_stable h h' (_groupedOptions t))
    by (try done; intros l Hl; by apply Hg).
  f_equal. apply visited_stable; [| done]. by apply array_locs_grouped_ok.
Qed.

Lemma document_fields_stable base_fields t h h' :
  stored_ok (State t h) -> only_names_changed h h' ->
  document_fields base_fields t h' = document_fields base_fields t h.
Proof.
  intros [Hf Hg] Hon. simpl in *. unfold document_fields, put_array.
  rewrite (is_array_stable h h' (_options t)) by (try done; intros l Hl; by apply Hf).
  by rewrite (is_array_stable h h' (_groupedOptions t))
    by (try done; intros l Hl; by apply Hg).
Qed.

(** *** The fields of the document *)

Lemma lookup_prop_put_if_ne k k' v ps :
  k' <> k -> lookup_prop k' (put_if k v ps) = lookup_prop k' ps.
Proof.
  intros Hne. unfold put_if. destruct (truthy v); [| done].
  by apply lookup_prop_set_prop_ne.
Qed.

Lemma lookup_prop_put_array_ne h k k' v ps :
  k' <> k -> lookup_prop k' (put_array h k v ps) = lookup_prop k' ps.
Proof.
  intros Hne. unfold put_array. destruct (is_array h v); [| done].
  by apply lookup_prop_set_prop_ne.
Qed.

Lemma document_fields_options base_fields t h :
  is_array h (_options t) = true ->
  lookup_prop "options" (document_fields base_fields t h) = Some (_options t).
Proof.
  intros Harr. unfold document_fields.
  rewrite lookup_prop_put_if_ne by done.
  unfold put_array at 1. rewrite Harr. apply lookup_prop_set_prop_eq.
Qed.

Lemma document_fields_groupedOptions base_fields t h :
  is_array h (_groupedOptions t) = true ->
  lookup_prop "groupedOptions" (document_fields base_fields t h)
  = Some (_groupedOptions t).
Proof.
  intros Harr. unfold document_fields.
  rewrite lookup_prop_put_if_ne by done.
  rewrite lookup_prop_put_array_ne by done.
  unfold put_array at 1. rewrite Harr. apply lookup_prop_set_prop_eq.
Qed.

(** *** Renaming twice *)

Lemma rename_fixed f l h : name_fixed f h l -> rename f l h = h.
Proof.
  intros Hfix. apply list_eq. intros i. rewrite rename_lookup.
  destruct (h !! i) as [o |] eqn:Hi; [| done]. simpl.
  destruct (decide (l = i)) as [-> |]; [| done]. f_equal. by apply Hfix.
Qed.

Lemma put_prop_twice k v o : put_prop k v (put_prop k v o) = put_prop k v o.
Proof.
  unfold put_prop. simpl. f_equal.
  apply set_prop_same, lookup_prop_set_prop_eq.
Qed.

Lemma name_fixed_rename_same f l h :
  (forall v, f (f v) = f v) -> name_fixed f (rename f l h) l.
Proof.
  intros Hidem o'. rewrite rename_lookup.
  destruct (h !! l) as [o |]; [| done]. simpl.
  rewrite decide_True by done. intros [= <-].
  by rewrite object_get_put_name_eq, Hidem, put_prop_twice.
Qed.

Lemma name_fixed_rename f l l' h :
  name_fixed f h l -> name_fixed f (rename f l' h) l.
Proof.
  intros Hfix o'. rewrite rename_lookup.
  destruct (h !! l) as [o |] eqn:Hl; [| done]. simpl.
  destruct (decide (l' = l)) as [-> |]; intros [= <-].
  - rewrite (Hfix o Hl). by apply Hfix.
  - by apply Hfix.
Qed.

Lemma name_fixed_rename_all f ls l h :
  name_fixed f h l -> name_fixed f (rename_all f ls h) l.
Proof.
  revert h. induction ls as [| l0 ls IH]; intros h Hfix; [done |].
  simpl. by apply IH, name_fixed_rename.
Qed.

Lemma rename_all_fixes f ls :
  (forall v, f (f v) = f v) ->
  forall h l, l ∈ ls -> name_fixed f (rename_all f ls h) l.
Proof.
  intros Hidem. induction ls as [| l0 ls IH]; intros h l Hin.
  - by apply elem_of_nil in Hin.
  - simpl. apply elem_of_cons in Hin as [-> | Hin].
    + by apply name_fixed_rename_all, name_fixed_rename_same.
    + by apply IH.
Qed.

Lemma rename_all_fixed f ls h :
  (forall l, l ∈ ls -> name_fixed f h l) -> rename_all f ls h = h.
Proof.
  induction ls as [| l0 ls IH]; intros Hfix; [done |].
  simpl. rewrite rename_fixed by (apply Hfix; by left).
  apply IH. intros l Hl. apply Hfix. by right.
Qed.

Lemma rename_all_idempotent f ls h :
  (forall v, f (f v) = f v) ->
  rename_all f ls (rename_all f ls h) = rename_all f ls h.
Proof.
  intros Hidem. apply rename_all_fixed. intros l Hl. by apply rename_all_fixes.
Qed.

Lemma reify_same_object n h d1 d2 o :
  h !! d1 = Some o -> h !! d2 = Some o -> reify n h (VRef d1) = reify n h (VRef d2).
Proof. intros H1 H2. destruct n; [done |]. simpl. by rewrite H1, H2. Qed.

Lemma read_array_only_names_changed h h' v es :
  only_names_changed h h' -> read_array h v = Some es -> read_array h' v = Some es.
Proof.
  intros Hon. destruct v as [| | | | | l]; try done. simpl.
  destruct (h !! l) as [o |] eqn:Hl; [| done].
  by rewrite (only_names_changed_kind _ _ _ _ Hon Hl).
Qed.

Lemma toJson_only_names_changed translate (ls : list loc) (h : heap) (o : object) :
  only_names_changed h (rename_all translate ls h ++ [o]).
Proof.
  eapply only_names_changed_trans; [apply only_names_changed_rename_all |].
  apply only_names_changed_app.
Qed.

(** With both fields holding arrays, [toJson] returns a document that has
    both. *)
Lemma toJson_both_fields translate base_fields st :
  stored_ok st ->
  is_array (store st) (_options (this st)) = true ->
  is_array (store st) (_groupedOptions (this st)) = true ->
  exists d st' o,
    toJson translate base_fields st = (Normal (VRef d), st') /\
    store st' !! d = Some o /\
    object_get o "options" = _options (this st) /\
    object_get o "groupedOptions" = _groupedOptions (this st) /\
    is_array (store st') (object_get o "options") = true /\
    is_array (store st') (object_get o "groupedOptions") = true.
Proof.
  destruct st as [t h]. simpl. intros Hok Hf Hg.
  eexists _, _, _. split; [by apply toJson_run |]. simpl.
  split; [rewrite <- (length_rename_all translate (translated h t) h);
          apply lookup_app_len |].
  rewrite !object_get_plain.
  rewrite (document_fields_options _ _ _ Hf), (document_fields_groupedOptions _ _ _ Hg).
  simpl. repeat split.
  - eapply only_names_changed_is_array; [apply toJson_only_names_changed | done].
  - eapply only_names_changed_is_array; [apply toJson_only_names_changed | done].
Qed.

(** *** [stored_ok] is an invariant of the class *)

Lemma setters_stored_ok v st :
  stored_ok st ->
  stored_ok (after (multiple v) st) /\
  stored_ok (after (closeOnSelection v) st) /\
  stored_ok (after (submitOnChange v) st) /\
  stored_ok (after (style v) st).
Proof. by intros [Hf Hg]. Qed.

Lemma toJson_stored_ok translate base_fields st :
  stored_ok st -> stored_ok (after (toJson translate base_fields) st).
Proof.
  destruct st as [t h]. intros Hok. unfold after.
  rewrite toJson_run by done. simpl.
  eapply stored_ok_only_names_changed; [| exact Hok].
  apply toJson_only_names_changed.
Qed.

(** ** [options] on strings and on a mapping: new objects only *)

Section FlatFresh.

Variable i18nKey : string -> string.
Variable t : EnumSetting.
Hypothesis Hid : localized t = true -> printable (_id t).

Lemma flat_name_choice_run (v : value) h :
  (localized t = true -> printable v) ->
  (if truthy (headers (_page (_section t)))
   then i18nOptionKey i18nKey v else mret v) (State t h)
  = (Normal (flat_name i18nKey t v), State t h).
Proof.
  intros Hv. unfold flat_name, localized in *.
  destruct (truthy (headers (_page (_section t)))) eqn:Hhd; [| done].
  by rewrite i18nOptionKey_prim by auto.
Qed.

Lemma options_mapping_entry_run lopts o values k h :
  h !! lopts = Some o ->
  (localized t = true -> printable (object_get o k)) ->
  options_mapping_entry i18nKey (VRef lopts) values k (State t h)
  = (Normal (values ++ [VRef (length h)]),
     State t (h ++ [fresh_option i18nKey t (VStr k, object_get o k)])).
Proof.
  intros Ho Hv. unfold options_mapping_entry.
  js_run. rewrite flat_name_choice_run by done. js_run. reflexivity.
Qed.

Lemma options_string_item_run values s h :
  options_array_item i18nKey values (VStr s) (State t h)
  = (Normal (values ++ [VRef (length h)]),
     State t (h ++ [fresh_option i18nKey t (VStr s, VStr s)])).
Proof.
  unfold options_array_item. js_run.
  replace (is_string (VStr s)) with true by reflexivity. cbn [orb].
  js_run. rewrite flat_name_choice_run by done. js_run. reflexivity.
Qed.

Lemma fresh_options_loop {A} (body : list value -> A -> JS (list value))
  (entry : A -> value * value) (xs : list A) (h0 : heap) :
  (forall values x e, x ∈ xs ->
     body values x (State t (h0 ++ e))
     = (Normal (values ++ [VRef (length (h0 ++ e))]),
        State t ((h0 ++ e) ++ [fresh_option i18nKey t (entry x)]))) ->
  forall values e,
    for_acc xs values body (State t (h0 ++ e))
    = (Normal (values ++ map VRef (seq (length (h0 ++ e)) (length xs))),
       State t ((h0 ++ e) ++ map (fresh_option i18nKey t) (map entry xs))).
Proof.
  induction xs as [| x xs IH]; intros Hbody values e.
  - simpl. by rewrite !app_nil_r.
  - cbn [for_acc]. rewrite bind_unfold, Hbody by by left.
    rewrite <- (app_assoc h0 e).
    rewrite IH by (intros vs y e' Hy; apply Hbody; by right).
    rewrite !length_app. simpl. rewrite <- !app_assoc. simpl.
    by replace (length h0 + (length e + 1)) with (S (length h0 + length e)) by lia.
Qed.

Lemma fresh_options_store values h ps :
  values = map VRef (seq (length h) (length ps)) ->
  (arr ← New (KArray values) []; set_this (with_options arr))
    (State t (h ++ map (fresh_option i18nKey t) ps))
  = (Normal tt,
     State (with_options (VRef (length h + length ps)) t)
           (fresh_options_heap i18nKey t h ps)).
Proof.
  intros ->. rewrite bind_unfold, New_run. unfold set_this. simpl.
  unfold fresh_options_heap. by rewrite length_app, length_map, <- app_assoc.
Qed.

(** A mapping: one new object for each own key, in key order. *)
Lemma options_mapping_run lopts o h :
  h !! lopts = Some o ->
  is_array h (VRef lopts) = false ->
  (localized t = true -> Forall (fun k => printable (object_get o k)) (own_keys o)) ->
  options i18nKey (VRef lopts) (State t h)
  = (Normal tt,
     State (with_options (VRef (length h + length (own_keys o))) t)
           (fresh_options_heap i18nKey t h
              (map (fun k => (VStr k, object_get o k)) (own_keys o)))).
Proof.
  intros Ho Harr Hvs. unfold options, options_values.
  rewrite !bind_unfold, Array_isArray_run. cbv beta iota. rewrite Harr.
  rewrite bind_unfold, instanceof_Object_run. cbv beta iota.
  rewrite (is_object_ref _ _ _ Ho).
  rewrite bind_unfold. erewrite own_keys_of_run by done. cbv beta iota.
  pose proof (fresh_options_loop (options_mapping_entry i18nKey (VRef lopts))
                (fun k => (VStr k, object_get o k)) (own_keys o) h) as Hloop.
  specialize (Hloop ltac:(intros values k e Hk; apply options_mapping_entry_run;
                          [by apply lookup_app_l_Some |
                           intros Hon; specialize (Hvs Hon);
                           rewrite Forall_forall in Hvs; by apply Hvs]) [] []).
  rewrite !app_nil_r in Hloop. rewrite Hloop. cbv beta iota.
  rewrite <- (length_map (fun k => (VStr k, object_get o k)) (own_keys o)).
  apply fresh_options_store. by rewrite length_map.
Qed.

(** An array of strings: one new object for each element. *)
Lemma options_strings_run la ss ps h :
  h !! la = Some (Obj (KArray (map VStr ss)) ps) ->
  options i18nKey (VRef la) (State t h)
  = (Normal tt,
     State (with_options (VRef (length h + length ss)) t)
           (fresh_options_heap i18nKey t h (map (fun s => (VStr s, VStr s)) ss))).
Proof.
  intros Hla. unfold options.
  rewrite bind_unfold, (options_values_array i18nKey la _ ps (State t h) Hla).
  pose proof (fresh_options_loop (options_array_item i18nKey)
                (fun v => (v, v)) (map VStr ss) h) as Hloop.
  specialize (Hloop ltac:(intros values x e [s [-> _]]%list_elem_of_fmap;
                          apply options_string_item_run) [] []).
  rewrite !app_nil_r in Hloop. rewrite Hloop. cbv beta iota.
  replace (map (fun v : value => (v, v)) (map VStr ss))
    with (map (fun s => (VStr s, VStr s)) ss) by by rewrite map_map.
  rewrite <- (length_map (fun s => (VStr s, VStr s)) ss).
  apply fresh_options_store. by rewrite !length_map.
Qed.

Lemma read_options_fresh_options h ps :
  read_options (fresh_options_heap i18nKey t h ps) (VRef (length h + length ps))
  = Some (map (fun p => (p.1, flat_name i18nKey t p.2)) ps).
Proof.
  unfold read_options, read_array, fresh_options_heap.
  rewrite app_assoc.
  rewrite <- (length_map (fresh_option i18nKey t) ps), <- length_app.
  rewrite lookup_app_len. simpl.
  rewrite (read_options_fresh _ (map (fresh_option i18nKey t) ps)).
  - by rewrite map_map.
  - by rewrite length_map.
  - intros j o Hj. rewrite <- app_assoc, lookup_app_plus.
    by apply lookup_app_l_Some.
Qed.

End FlatFresh.

(** ** What [toJson] leaves in the stored structures *)

Lemma read_groups_app h e v gs :
  read_groups h v = Some gs -> read_groups (h ++ e) v = Some gs.
Proof.
  unfold read_groups. destruct (read_array h v) as [es |] eqn:Hes; [| done].
  rewrite (read_array_app _ e _ _ Hes). simpl.
  apply mapM_mono. intros x y. apply read_group_app.
Qed.

Lemma read_array_is_array h v es : read_array h v = Some es -> is_array h v = true.
Proof.
  destruct v as [| | | | | l]; try done. simpl.
  by destruct (h !! l) as [[[| es' |] ps] |].
Qed.

Lemma read_array_iterable_of h v es :
  read_array h v = Some es -> iterable_of h v = Some es.
Proof.
  destruct v as [| | | | | l]; try done. simpl.
  destruct (h !! l) as [[[| es' |] ps] |]; try done.
Qed.

Lemma read_array_array_locs h v es ls :
  read_array h v = Some es -> mapM ref_loc es = Some ls -> array_locs h v = ls.
Proof. intros Hes Hls. unfold array_locs. rewrite Hes. simpl. by rewrite Hls. Qed.

Lemma mapM_read_option_refs h es os :
  mapM (read_option h) es = Some os -> exists ls, mapM ref_loc es = Some ls.
Proof.
  intros Hm. apply mapM_Some in Hm.
  induction Hm as [| e p es os He _ [ls Hls]]; [by exists [] |].
  destruct e as [| | | | | l]; try done.
  exists (l :: ls). apply mapM_Some. constructor; [done |]. by apply mapM_Some.
Qed.

Section Translated.

Variable f : value -> value.
Variable h : heap.
Variable T : list loc.
Hypothesis HT : NoDup T.

Lemma read_option_translated l p :
  l ∈ T -> read_option h (VRef l) = Some p ->
  read_option (rename_all f T h) (VRef l) = Some (translate_option f p).
Proof.
  intros Hl. unfold read_option. destruct (h !! l) as [o |] eqn:Ho; [| done].
  rewrite (rename_all_lookup_in f T h l o HT Hl Ho). simpl. intros [= <-].
  by rewrite (object_get_put_prop_ne "name" "id"), object_get_put_name_eq.
Qed.

Lemma read_options_translated v os :
  read_options h v = Some os ->
  (forall l, l ∈ array_locs h v -> l ∈ T) ->
  read_options (rename_all f T h) v = Some (map (translate_option f) os).
Proof.
  unfold read_options. rewrite read_array_rename_all.
  destruct (read_array h v) as [es |] eqn:Hes; [| done]. simpl.
  intros Hm Hin. destruct (mapM_read_option_refs _ _ _ Hm) as [ls Hls].
  rewrite (read_array_array_locs _ _ _ _ Hes Hls) in Hin.
  apply mapM_ref_loc in Hls. subst es. clear Hes.
  apply mapM_Some in Hm. apply mapM_Some. apply Forall2_fmap_r.
  apply Forall2_fmap_l in Hm. apply Forall2_fmap_l.
  revert Hin. induction Hm as [| l p ls os Hl _ IH]; intros Hin; constructor.
  - apply read_option_translated; [| done]. apply Hin. by left.
  - apply IH. intros l' Hl'. apply Hin. by right.
Qed.

Lemma read_options_option_locs o os :
  read_options h (object_get o "options") = Some os ->
  forall gl, h !! gl = Some o ->
    option_locs h gl = Some (array_locs h (object_get o "options")).
Proof.
  unfold read_options.
  destruct (read_array h (object_get o "options")) as [es |] eqn:Hes; [| done].
  simpl. intros Hm gl Hgl.
  destruct (mapM_read_option_refs _ _ _ Hm) as [ls Hls].
  rewrite (read_array_array_locs _ _ _ _ Hes Hls).
  unfold option_locs. rewrite Hgl. simpl.
  by rewrite (read_array_iterable_of _ _ _ Hes).
Qed.

Lemma read_group_translated gl g :
  gl ∈ T ->
  (forall os l, option_locs h gl = Some os -> l ∈ os -> l ∈ T) ->
  read_group h (VRef gl) = Some g ->
  read_group (rename_all f T h) (VRef gl) = Some (translate_group f g).
Proof.
  intros Hgl Hin. unfold read_group. destruct (h !! gl) as [o |] eqn:Ho; [| done].
  rewrite (rename_all_lookup_in f T h gl o HT Hgl Ho). simpl.
  rewrite (object_get_put_prop_ne "name" "options") by done.
  destruct (read_options h (object_get o "options")) as [os |] eqn:Hos; [| done].
  simpl. intros [= <-].
  rewrite (read_options_translated _ os Hos).
  - simpl. by rewrite object_get_put_name_eq.
  - intros l Hl. eapply Hin; [| exact Hl].
    by apply (read_options_option_locs o os).
Qed.

Lemma read_groups_translated v gs :
  read_groups h v = Some gs ->
  (forall gl, gl ∈ array_locs h v ->
     gl ∈ T /\ forall os l, option_locs h gl = Some os -> l ∈ os -> l ∈ T) ->
  read_groups (rename_all f T h) v = Some (map (translate_group f) gs).
Proof.
  unfold read_groups. rewrite read_array_rename_all.
  destruct (read_array h v) as [es |] eqn:Hes; [| done]. simpl.
  intros Hm Hin.
  assert (exists ls, mapM ref_loc es = Some ls) as [ls Hls].
  { clear -Hm. apply mapM_Some in Hm.
    induction Hm as [| e p es os He _ [ls Hls]]; [by exists [] |].
    destruct e as [| | | | | l]; try done.
    exists (l :: ls). apply mapM_Some. constructor; [done |]. by apply mapM_Some. }
  rewrite (read_array_array_locs _ _ _ _ Hes Hls) in Hin.
  apply mapM_ref_loc in Hls. subst es. clear Hes.
  apply mapM_Some in Hm. apply mapM_Some. apply Forall2_fmap_r.
  apply Forall2_fmap_l in Hm. apply Forall2_fmap_l.
  revert Hin. induction Hm as [| l p ls os Hl _ IH]; intros Hin; constructor.
  - destruct (Hin l ltac:(by left)) as [HlT Hopts].
    by apply read_group_translated.
  - apply IH. intros l' Hl'. apply Hin. by right.
Qed.

End Translated.

Lemma toJson_translates_once translate base_fields t h :
  stored_ok (State t h) ->
  NoDup (translated h t) ->
  let h' := rename_all translate (translated h t) h
            ++ [Obj KPlain (document_fields base_fields t h)] in
  toJson translate base_fields (State t h) = (Normal (VRef (length h)), State t h') /\
  (forall os, read_options h (_options t) = Some os ->
     read_options h' (_options t) = Some (map (translate_option translate) os)) /\
  (forall gs, read_groups h (_groupedOptions t) = Some gs ->
     read_groups h' (_groupedOptions t) = Some (map (translate_group translate) gs)).
Proof.
  intros Hok Hnd. split; [by apply toJson_run |]. split.
  - intros os Hos. apply read_options_app. apply read_options_translated; try done.
    intros l Hl. unfold translated. apply elem_of_app. by right.
  - intros gs Hgs. apply read_groups_app. apply read_groups_translated; try done.
    intros gl Hgl. split.
    + unfold translated. apply elem_of_app. left. by apply elem_of_visited_group.
    + intros os l Hos Hl. unfold translated. apply elem_of_app. left.
      by eapply elem_of_visited_option.
Qed.

(** ** From [options] on strings or a mapping to the document *)

Section FlatEndToEnd.

Variable i18nKey : string -> string.
Variable translate : value -> value.
Variable base_fields : EnumSetting -> list (string * value).
Variable t : EnumSetting.
Variable h : heap.
Variable ps : list (value * value).

Let a := length h + length ps.
Let H := fresh_options_heap i18nKey t h ps.

Lemma fresh_options_heap_array :
  H !! a = Some (Obj (KArray (map VRef (seq (length h) (length ps)))) []).
Proof.
  unfold H, a, fresh_options_heap. rewrite app_assoc.
  rewrite <- (length_map (fresh_option i18nKey t) ps), <- length_app.
  apply lookup_app_len.
Qed.

Lemma fresh_options_heap_length : length H = S a.
Proof.
  unfold H, a, fresh_options_heap. rewrite !length_app, length_map. simpl. lia.
Qed.

Lemma fresh_options_heap_frame : only_names_changed h H.
Proof. apply only_names_changed_app. Qed.

Lemma fresh_options_stored_ok :
  stored_ok (State t h) -> stored_ok (State (with_options (VRef a) t) H).
Proof.
  intros [_ Hg]. split; simpl.
  - intros l [= <-]. split; [rewrite fresh_options_heap_length; lia |].
    intros _. exists [], (seq (length h) (length ps)).
    split; [apply fresh_options_heap_array |].
    apply Forall_forall. intros l Hl. apply elem_of_seq in Hl.
    rewrite fresh_options_heap_length. unfold a. lia.
  - eapply only_names_changed_grouped_ok; [apply fresh_options_heap_frame | done].
Qed.

Lemma fresh_options_translated :
  stored_ok (State t h) ->
  translated H (with_options (VRef a) t)
  = visited h (array_locs h (_groupedOptions t)) ++ seq (length h) (length ps).
Proof.
  intros [_ Hg]. simpl in Hg. unfold translated. simpl.
  rewrite (array_locs_array _ _ _ _ fresh_options_heap_array).
  rewrite (array_locs_stable h H (_groupedOptions t))
    by (try apply fresh_options_heap_frame; intros l Hl; by apply Hg).
  rewrite (visited_stable h H); [done | | apply fresh_options_heap_frame].
  by apply array_locs_grouped_ok.
Qed.

Lemma fresh_options_then_toJson :
  stored_ok (State t h) ->
  NoDup (visited h (array_locs h (_groupedOptions t))) ->
  exists o h',
    toJson translate base_fields (State (with_options (VRef a) t) H)
    = (Normal (VRef (S a)), State (with_options (VRef a) t) h') /\
    h' !! S a = Some o /\
    object_get o "options" = VRef a /\
    read_options h' (VRef a)
    = Some (map (fun p => (p.1, translate (flat_name i18nKey t p.2))) ps).
Proof.
  intros Hok Hnd.
  pose proof (fresh_options_stored_ok Hok) as Hok'.
  assert (NoDup (translated H (with_options (VRef a) t))) as Hnd'.
  { rewrite (fresh_options_translated Hok). apply NoDup_app.
    split; [done |]. split; [| apply NoDup_seq].
    intros l Hl Hseq. apply elem_of_seq in Hseq.
    destruct Hok as [_ Hg]. simpl in Hg.
    pose proof (visited_lt h _ (array_locs_grouped_ok _ _ Hg)) as Hlt.
    rewrite Forall_forall in Hlt. specialize (Hlt l Hl). lia. }
  destruct (toJson_translates_once translate base_fields _ _ Hok' Hnd')
    as (Hrun & Hflat & _).
  rewrite fresh_options_heap_length in Hrun.
  eexists _, _. split; [exact Hrun |]. split; [| split].
  - rewrite <- fresh_options_heap_length.
    rewrite <- (length_rename_all translate
                  (translated H (with_options (VRef a) t)) H).
    apply lookup_app_len.
  - rewrite object_get_plain, document_fields_options; [done |].
    simpl. by rewrite fresh_options_heap_array.
  - simpl in Hflat. rewrite (Hflat _ (read_options_fresh_options i18nKey t h ps)).
    by rewrite map_map.
Qed.

End FlatEndToEnd.

(** ** The array a call stores is new *)

Lemma options_stores_new_array i18nKey v st st' :
  options i18nKey v st = (Normal tt, st') ->
  exists a vs,
    this st' = with_options (VRef a) (this st) /\
    length (store st) <= a /\
    store st' !! a = Some (Obj (KArray vs) []) /\
    length (store st') = S a.
Proof.
  unfold options. rewrite bind_unfold.
  pose proof (options_values_frame i18nKey (store st) v st eq_refl) as Hframe.
  pose proof (keeps_this_options_values i18nKey (this st) v) as Hthis.
  destruct (options_values i18nKey v st) as [[vs | e |] st1] eqn:Hrun; [| done..].
  pose proof (keeps_this_elim _ _ _ _ _ Hthis eq_refl Hrun) as Ht1.
  destruct Hframe as [Hon _]. destruct st1 as [t1 h1]. simpl in *. subst t1.
  rewrite bind_unfold, New_run. intros [= <-]. simpl.
  exists (length h1), vs. split; [done |].
  split; [by apply only_names_changed_length |].
  split; [apply lookup_app_len |]. rewrite length_app. simpl. lia.
Qed.

Lemma groupedOptions_stores_new_array i18nKey v st st' :
  groupedOptions i18nKey v st = (Normal tt, st') ->
  exists a vs,
    this st' = with_groupedOptions (VRef a) (this st) /\
    length (store st) <= a /\
    store st' !! a = Some (Obj (KArray vs) []) /\
    length (store st') = S a.
Proof.
  unfold groupedOptions. rewrite bind_unfold.
  pose proof (groupedOptions_values_frame i18nKey (store st) v st eq_refl) as Hframe.
  pose proof (keeps_this_groupedOptions_values i18nKey (this st) v) as Hthis.
  destruct (groupedOptions_values i18nKey v st) as [[vs | e |] st1] eqn:Hrun;
    [| done..].
  pose proof (keeps_this_elim _ _ _ _ _ Hthis eq_refl Hrun) as Ht1.
  destruct Hframe as [Hon _]. destruct st1 as [t1 h1]. simpl in *. subst t1.
  rewrite bind_unfold, New_run. intros [= <-]. simpl.
  exists (length h1), vs. split; [done |].
  split; [by apply only_names_changed_length |].
  split; [apply lookup_app_len |]. rewrite length_app. simpl. lia.
Qed.

(** ** What an array argument must be for [groupedOptions] to return *)

Lemma triple_any {A} (m : JS A) :
  triple (fun _ => True) m (fun _ _ => True) (fun _ => True).
Proof. intros st _. by destruct (m st) as [[a | e |] st']. Qed.

Lemma array_group_result i18nKey values group st vs st' :
  groupedOptions_array_group i18nKey values group st = (Normal vs, st') ->
  vs = values ++ [group].
Proof.
  intros Hrun.
  assert (triple (fun _ => True) (groupedOptions_array_group i18nKey values group)
            (fun vs _ => vs = values ++ [group]) (fun _ => True)) as Htriple.
  { unfold groupedOptions_array_group.
    eapply triple_bind; [apply triple_any |]. intros [|]; [| by apply triple_throw].
    repeat (eapply triple_bind; [apply triple_any |]; intros ?).
    by apply triple_ret. }
  specialize (Htriple st I). by rewrite Hrun in Htriple.
Qed.

Lemma array_groups_result i18nKey es :
  forall values st vs st',
    for_acc es values (groupedOptions_array_group i18nKey) st = (Normal vs, st') ->
    vs = values ++ es.
Proof.
  induction es as [| x es IH]; intros values st vs st'.
  - simpl. intros [= <- _]. by rewrite app_nil_r.
  - cbn [for_acc]. rewrite bind_unfold.
    destruct (groupedOptions_array_group i18nKey values x st)
      as [[v1 | e |] st1] eqn:Hx; [| done..].
    intros Hrest. apply IH in Hrest. apply array_group_result in Hx.
    subst. by rewrite <- app_assoc.
Qed.

(** ** Elements [options] rejects *)

Lemma options_array_item_rejects i18nKey values it st vs st' :
  rejected_element it ->
  options_array_item i18nKey values it st <> (Normal vs, st').
Proof.
  intros Hbad. destruct st as [t h]. unfold options_array_item.
  rewrite bind_unfold, instanceof_String_run. cbv beta iota.
  destruct it as [| | b | n | |]; try done; simpl.
  all: rewrite !bind_unfold, ?ret_unfold; simpl; try done.
  all: rewrite bind_unfold, page_headers_run; cbv beta iota.
  all: rewrite bind_unfold; unfold Get at 1; cbv beta iota.
  all: rewrite bind_unfold.
  all: destruct ((if truthy (headers (_page (_section t)))
                  then i18nOptionKey i18nKey VUndef else mret VUndef) (State t h))
         as [[w | e |] st1]; try done.
  all: by rewrite bind_unfold.
Qed.

Lemma options_array_rejects i18nKey bad es :
  bad ∈ es -> rejected_element bad ->
  forall values st vs st',
    for_acc es values (options_array_item i18nKey) st <> (Normal vs, st').
Proof.
  intros Hin Hbad. induction es as [| x es IH]; intros values st vs st'.
  - by apply elem_of_nil in Hin.
  - cbn [for_acc]. rewrite bind_unfold.
    destruct (options_array_item i18nKey values x st) as [[v1 | e |] st1] eqn:Hx;
      [| done..].
    apply elem_of_cons in Hin as [-> | Hin].
    + by destruct (options_array_item_rejects i18nKey values x st v1 st1).
    + by apply IH.
Qed.

(** ** Every call keeps the stored fields well formed *)

Lemma run_call_stored_ok i18nKey translate base_fields c st :
  stored_ok st -> stored_ok (after (run_call i18nKey translate base_fields c) st).
Proof.
  intros Hok. destruct c as [o | v | v | v | v | v | v |]; simpl.
  - destruct st as [t h]. unfold after. rewrite bind_unfold, New_run. simpl.
    eapply stored_ok_only_names_changed; [apply only_names_changed_app | done].
  - by apply setters_stored_ok.
  - by apply setters_stored_ok.
  - by apply setters_stored_ok.
  - by apply setters_stored_ok.
  - unfold after. destruct (options i18nKey v st) as [r st'] eqn:Hrun. simpl.
    assert (r <> Normal tt -> stored_ok st') as Hfail.
    { intros Hr. pose proof (options_failure_this _ _ _ _ _ Hrun Hr) as Hthis.
      destruct (options_outcome _ _ _ _ _ Hrun) as [Hon _].
      destruct st as [t h], st' as [t' h']. simpl in *. subst t'.
      by eapply stored_ok_only_names_changed. }
    destruct r as [[] | e |]; [by eapply options_stored_ok | by apply Hfail..].
  - unfold after. destruct (groupedOptions i18nKey v st) as [r st'] eqn:Hrun. simpl.
    assert (r <> Normal tt -> stored_ok st') as Hfail.
    { intros Hr. pose proof (groupedOptions_failure_this _ _ _ _ _ Hrun Hr) as Hthis.
      destruct (groupedOptions_outcome _ _ _ _ _ Hrun) as [Hon _].
      destruct st as [t h], st' as [t' h']. simpl in *. subst t'.
      by eapply stored_ok_only_names_changed. }
    destruct r as [[] | e |]; [by eapply groupedOptions_stored_ok | by apply Hfail..].
  - pose proof (toJson_stored_ok translate base_fields st Hok) as Hok'.
    unfold after in *. rewrite bind_unfold.
    by destruct (toJson translate base_fields st) as [[d | e |] st'].
Qed.

Lemma after_calls_stored_ok i18nKey translate base_fields cs :
  forall st, stored_ok st ->
    stored_ok (after_calls i18nKey translate base_fields cs st).
Proof.
  induction cs as [| c cs IH]; intros st Hok; [done |].
  simpl. by apply IH, run_call_stored_ok.
Qed.

(** ** Array arguments when names are left as they are *)

Lemma same_objects_rename_id f l h :
  (forall n, f n = n) -> same_objects h (rename f l h).
Proof.
  intros Hf l' o' Hl'. rewrite rename_lookup, Hl'. simpl.
  destruct (decide (l = l')) as [-> |].
  - eexists. split; [done |]. split; [done |].
    intros k. rewrite Hf. apply object_get_put_same.
  - by exists o'.
Qed.

Lemma same_objects_rename_all_id f ls h :
  (forall n, f n = n) -> same_objects h (rename_all f ls h).
Proof.
  intros Hf. revert h. induction ls as [| l ls IH]; intros h.
  - apply same_objects_refl.
  - simpl. eapply same_objects_trans; [by apply same_objects_rename_id | apply IH].
Qed.

Lemma same_objects_localize_group i18nKey t h l :
  localized t = false -> same_objects h (localize_group i18nKey t h l).
Proof.
  intros Hoff. unfold localize_group.
  destruct (h !! l) as [o |]; [| apply same_objects_refl].
  destruct (option_locs h l) as [os |]; [| apply same_objects_refl].
  eapply same_objects_trans.
  - apply (same_objects_rename_id (group_name i18nKey t)).
    intros n. unfold group_name. by rewrite Hoff.
  - apply same_objects_rename_all_id.
    intros n. unfold group_option_name. by rewrite Hoff.
Qed.

Lemma same_objects_localize_groups i18nKey t ls :
  localized t = false ->
  forall h, same_objects h (localize_groups i18nKey t ls h).
Proof.
  intros Hoff. induction ls as [| l ls IH]; intros h.
  - apply same_objects_refl.
  - rewrite localize_groups_cons.
    eapply same_objects_trans; [by apply same_objects_localize_group | apply IH].
Qed.

Lemma group_ok_names_ok t h l :
  localized t = false -> group_ok h l -> group_names_ok t h l.
Proof.
  intros Hoff (os & Hos & Hlt).
  destruct (option_locs_inv _ _ _ Hos) as (o & Ho & _). split.
  - exists o. split; [done |]. by rewrite Hoff.
  - exists os. split; [done |]. eapply Forall_impl; [exact Hlt |].
    intros lo Hlo. destruct (lookup_lt_is_Some_2 h lo Hlo) as [oo Hoo].
    exists oo. split; [done |]. by rewrite Hoff.
Qed.

(** ** The flags of the document *)

Lemma lookup_prop_put_if_eq k v ps :
  lookup_prop k (put_if k v ps)
  = if truthy v then Some v else lookup_prop k ps.
Proof.
  unfold put_if. destruct (truthy v); [| done]. apply lookup_prop_set_prop_eq.
Qed.

Lemma document_fields_flags base_fields t h :
  lookup_prop "multiple" (document_fields base_fields t h)
  = (if truthy (_multiple t) then Some (_multiple t)
     else lookup_prop "multiple" (base_fields t)) /\
  lookup_prop "closeOnSelection" (document_fields base_fields t h)
  = (if truthy (_closeOnSelection t) then Some (_closeOnSelection t)
     else lookup_prop "closeOnSelection" (base_fields t)) /\
  lookup_prop "style" (document_fields base_fields t h)
  = (if truthy (_style t) then Some (_style t)
     else lookup_prop "style" (base_fields t)).
Proof.
  unfold document_fields. repeat split.
  - rewrite lookup_prop_put_if_ne, !lookup_prop_put_array_ne by done.
    rewrite lookup_prop_put_if_ne by done. apply lookup_prop_put_if_eq.
  - rewrite lookup_prop_put_if_ne, !lookup_prop_put_array_ne by done.
    rewrite lookup_prop_put_if_eq.
    destruct (truthy (_closeOnSelection t)); [done |].
    by rewrite lookup_prop_put_if_ne.
  - rewrite lookup_prop_put_if_eq. destruct (truthy (_style t)); [done |].
    rewrite !lookup_prop_put_array_ne by done.
    by rewrite !lookup_prop_put_if_ne.
Qed.

Lemma toJson_no_options translate base_fields t h :
  stored_ok (State t h) ->
  is_array h (_options t) = false ->
  is_array h (_groupedOptions t) = false ->
  toJson translate base_fields (State t h)
  = (Normal (VRef (length h)),
     State t (h ++ [Obj KPlain
                      (put_if "style" (_style t)
                         (put_if "closeOnSelection" (_closeOnSelection t)
                            (put_if "multiple" (_multiple t) (base_fields t))))])).
Proof.
  intros Hok Hf Hg. rewrite toJson_run by done.
  unfold translated, document_fields, put_array.
  by rewrite Hf, Hg, !array_locs_not_array.
Qed.

(** ** Renaming an object as often as it occurs *)

Lemma rename_all_lookup_count f T :
  forall h l o,
    h !! l = Some o ->
    exists o',
      rename_all f T h !! l = Some o' /\
      kind_of o' = kind_of o /\
      (forall k, k <> "name" -> object_get o' k = object_get o k) /\
      object_get o' "name"
      = Nat.iter (count_occ Nat.eq_dec T l) f (object_get o "name").
Proof.
  induction T as [| l0 T IH]; intros h l o Hl.
  - by exists o.
  - cbn [rename_all foldl]. destruct (decide (l0 = l)) as [-> | Hne].
    + destruct (IH (rename f l h) l _ (rename_lookup_eq f l h o Hl))
        as (o' & Ho' & Hkind & Hget & Hname).
      exists o'. split; [exact Ho' |]. split; [by rewrite Hkind |].
      split.
      * intros k Hk. rewrite (Hget k Hk). by apply object_get_put_prop_ne.
      * rewrite Hname, object_get_put_name_eq, count_occ_cons_eq by done.
        by rewrite Nat.iter_succ_r.
    + destruct (IH (rename f l0 h) l o) as (o' & Ho' & Hkind & Hget & Hname).
      { by rewrite rename_lookup_ne. }
      exists o'. rewrite count_occ_cons_neq by done. done.
Qed.

(** ** Values that have a text *)

Lemma printable_convertible h v : printable v -> convertible h v.
Proof. intros Hv. exists (prim_string v). by apply text_printable. Qed.

Lemma printable_value_ok t h v : printable_value h v -> mapping_value_ok t h v.
Proof.
  destruct v as [| | | | | l]; try done. simpl.
  destruct (h !! l) as [[[| es | s] ps] |]; try done; simpl; intros Hall _.
  all: eapply Forall_impl; [exact Hall |]; intros x; apply printable_convertible.
Qed.

Lemma simple_value_ok t h v :
  localized t = false -> simple_value h v -> mapping_value_ok t h v.
Proof.
  intros Hoff. destruct v as [| | | | | l]; try done. simpl.
  destruct (h !! l) as [o |]; [| done]. intros _. by rewrite Hoff.
Qed.

Lemma keyed_options_printable h v :
  printable_value h v -> Forall (fun p => printable p.2) (keyed_options h v).
Proof.
  destruct v as [| | | | | l]; try (intros; constructor). simpl.
  destruct (h !! l) as [[[| es | s] ps] |]; try (intros; constructor); simpl.
  all: intros Hall; apply Forall_fmap; eapply Forall_impl; [exact Hall | done].
Qed.

Lemma mapping_option_name_printable i18nKey t h property name :
  printable name ->
  mapping_option_name i18nKey t h property name
  = if localized t
    then group_option_key i18nKey t (mapping_group_name i18nKey t property) name
    else name.
Proof.
  intros Hname. unfold mapping_option_name, group_option_key_in, group_option_key.
  by rewrite (text_printable h name Hname).
Qed.

(** ** The order of the keys of an object *)

Lemma enumeration_order_indexed ins :
  (indexed_entries ins).*2 ++ filter (fun kv => array_index kv.1 = None) ins ≡ₚ ins.
Proof.
  induction ins as [| kv ins IH]; [done |].
  unfold indexed_entries in *. cbn [omap list_omap].
  rewrite filter_cons.
  destruct (array_index kv.1) as [i |].
  - rewrite decide_False by done. apply perm_skip, IH.
  - rewrite decide_True by done. simpl.
    rewrite <- Permutation_middle. apply perm_skip, IH.
Qed.

Lemma enumeration_order_perm ins : enumeration_order ins ≡ₚ ins.
Proof.
  unfold enumeration_order.
  rewrite (merge_sort_Permutation index_le (indexed_entries ins)).
  apply enumeration_order_indexed.
Qed.

Lemma enumeration_order_plain ins :
  Forall (fun kv => array_index kv.1 = None) ins -> enumeration_order ins = ins.
Proof.
  intros Hall. unfold enumeration_order.
  assert (indexed_entries ins = []) as ->.
  { induction Hall as [| kv ins Hkv _ IH]; [done |].
    unfold indexed_entries in *. cbn [omap list_omap]. by rewrite Hkv. }
  simpl. induction Hall as [| kv ins Hkv _ IH]; [done |].
  rewrite filter_cons, decide_True by done. by rewrite IH.
Qed.

Lemma enumeration_order_NoDup ins :
  NoDup ins.*1 -> NoDup (enumeration_order ins).*1.
Proof. intros Hnd. by rewrite enumeration_order_perm. Qed.

Lemma enumeration_order_Forall (P : string * value -> Prop) ins :
  Forall P ins -> Forall P (enumeration_order ins).
Proof. intros Hall. by rewrite enumeration_order_perm. Qed.

(** * Properties of the class *)

(** C1, as amended: [toJson] makes no copy.  From well-formed stored
    fields it allocates the document and nothing else, the [options] and
    [groupedOptions] fields of the document are the stored arrays
    themselves, and the translations are written into the stored objects:
    after the call every object has the kind and the properties it had,
    except that the name of each group, each option of a group and each
    flat option was translated once for each time the object occurs in the
    stored structures (so replaced by its translation when it occurs
    once). *)
Theorem C1_toJson_translates_in_place (translate : value -> value)
  (base_fields : EnumSetting -> list (string * value)) (st : state) :
  stored_ok st ->
  let T := translated (store st) (this st) in
  let h' := rename_all translate T (store st) in
  exists o,
    toJson translate base_fields st
    = (Normal (VRef (length (store st))), State (this st) (h' ++ [o])) /\
    (is_array (store st) (_options (this st)) = true ->
     object_get o "options" = _options (this st)) /\
    (is_array (store st) (_groupedOptions (this st)) = true ->
     object_get o "groupedOptions" = _groupedOptions (this st)) /\
    length h' = length (store st) /\
    only_names_changed (store st) h' /\
    (forall l, l ∉ T -> h' !! l = store st !! l) /\
    (NoDup T ->
     forall l o0, l ∈ T -> store st !! l = Some o0 ->
       h' !! l = Some (put_prop "name" (translate (object_get o0 "name")) o0)) /\
    (forall l o0, store st !! l = Some o0 ->
       exists o', h' !! l = Some o' /\
                  kind_of o' = kind_of o0 /\
                  (forall k, k <> "name" -> object_get o' k = object_get o0 k) /\
                  object_get o' "name"
                  = Nat.iter (count_occ Nat.eq_dec T l) translate
                      (object_get o0 "name")).
Proof.
  destruct st as [t h]. simpl. intros Hok.
  exists (Obj KPlain (document_fields base_fields t h)).
  split; [by apply toJson_run |].
  split; [intros Hf; by rewrite object_get_plain, document_fields_options |].
  split; [intros Hg; by rewrite object_get_plain, document_fields_groupedOptions |].
  split; [apply length_rename_all |].
  split; [apply only_names_changed_rename_all |].
  split; [intros l Hl; by apply rename_all_lookup_notin |].
  split.
  - intros Hnd l o0 Hl Ho0. by apply rename_all_lookup_in.
  - intros l o0 Ho0. by apply rename_all_lookup_count.
Qed.

Lemma C1_toJson_translates_in_place_witness :
  let st := after (options i18nKey_page (VRef 0)) (fresh_setting (VBool false) heap_bread) in
  store st !! 1 = Some (Obj KPlain [("id", VStr "bread"); ("name", VStr "bread")]) /\
  exists o,
    toJson translate_fr base_id_type st
    = (Normal (VRef 3), State (this st) (rename_all translate_fr [1] (store st) ++ [o])) /\
    object_get o "options" = _options (this st) /\
    rename_all translate_fr [1] (store st) !! 1
    = Some (Obj KPlain [("id", VStr "bread"); ("name", VStr "pain")]).
Proof.
  intros st. split; [reflexivity |].
  assert (stored_ok st) as Hok.
  { apply (options_stored_ok i18nKey_page (VRef 0) (fresh_setting (VBool false) heap_bread));
      [apply stored_ok_new | reflexivity]. }
  destruct (C1_toJson_translates_in_place translate_fr base_id_type st Hok)
    as (o & Hrun & Hoptions & _ & _ & _ & _ & Hnames & _).
  exists o. split; [exact Hrun |]. split; [by apply Hoptions |].
  apply (Hnames ltac:(decide_closed) 1
           (Obj KPlain [("id", VStr "bread"); ("name", VStr "bread")]));
    [decide_closed | reflexivity].
Defined.

Lemma C1_counterexample :
  let st := after (options i18nKey_page (VRef 0)) (fresh_setting (VBool false) heap_bread) in
  let st' := after (toJson translate_fr base_id_type) st in
  outcome (toJson translate_fr base_id_type) st = Normal (VRef 3) /\
  read_options (store st) (_options (this st)) = Some [(VStr "bread", VStr "bread")] /\
  read_options (store st') (_options (this st')) = Some [(VStr "bread", VStr "pain")] /\
  stored st' <> stored st.
Proof.
  split; [reflexivity |]. split; [reflexivity |]. split; [reflexivity |].
  discriminate.
Qed.




(** C3, as amended: from well-formed stored fields two calls of [toJson]
    in a row both return a document.  The two documents have the same
    fields and share the stored arrays, so compared after the second call
    they are structurally equal.  What each document shows when it is
    returned can differ: the second call translates again the names the
    first call wrote.  If the translation is idempotent, the second call
    leaves every object as the first left it. *)
Theorem C3_toJson_twice (translate : value -> value)
  (base_fields : EnumSetting -> list (string * value)) (st : state) :
  stored_ok st ->
  let T := translated (store st) (this st) in
  let d := length (store st) in
  let h1 := rename_all translate T (store st) in
  let h2 := rename_all translate T h1 in
  exists o,
    toJson translate base_fields st
    = (Normal (VRef d), State (this st) (h1 ++ [o])) /\
    toJson translate base_fields (State (this st) (h1 ++ [o]))
    = (Normal (VRef (S d)), State (this st) (h2 ++ [o; o])) /\
    (forall n, reify n (h2 ++ [o; o]) (VRef d) = reify n (h2 ++ [o; o]) (VRef (S d))) /\
    ((forall v, translate (translate v) = translate v) -> h2 = h1).
Proof.
  destruct st as [t h]. simpl. intros Hok.
  set (T := translated h t). set (h1 := rename_all translate T h).
  set (o := Obj KPlain (document_fields base_fields t h)).
  assert (only_names_changed h (h1 ++ [o])) as Hon
    by apply toJson_only_names_changed.
  assert (Forall (fun l => l < length h1) T) as HT.
  { unfold h1. rewrite length_rename_all. by apply translated_lt. }
  exists o. split; [by apply toJson_run |]. split; [| split].
  - rewrite toJson_run by by eapply stored_ok_only_names_changed.
    rewrite (translated_stable t h (h1 ++ [o]) Hok Hon).
    rewrite (document_fields_stable base_fields t h (h1 ++ [o]) Hok Hon).
    fold T o. rewrite (rename_all_app_l _ _ _ _ HT), <- app_assoc.
    rewrite length_app. unfold h1. rewrite length_rename_all. simpl.
    by rewrite Nat.add_1_r.
  - intros n. apply (reify_same_object n _ _ _ o).
    + rewrite <- (length_rename_all translate T h).
      rewrite <- (length_rename_all translate T (rename_all translate T h)).
      apply lookup_app_len.
    + rewrite <- (length_rename_all translate T h).
      rewrite <- (length_rename_all translate T (rename_all translate T h)).
      rewrite <- Nat.add_1_r. apply lookup_app_plus1.
  - intros Hidem. by apply rename_all_idempotent.
Qed.

Lemma C3_toJson_twice_witness :
  let st := after (options i18nKey_page (VRef 0)) (fresh_setting (VBool false) heap_bread) in
  let h1 := rename_all translate_fr [1] (store st) in
  let h2 := rename_all translate_fr [1] h1 in
  exists o,
    toJson translate_fr base_id_type st = (Normal (VRef 3), State (this st) (h1 ++ [o])) /\
    toJson translate_fr base_id_type (State (this st) (h1 ++ [o]))
    = (Normal (VRef 4), State (this st) (h2 ++ [o; o])) /\
    reify 3 (h2 ++ [o; o]) (VRef 3) = reify 3 (h2 ++ [o; o]) (VRef 4).
Proof.
  intros st h1 h2.
  assert (stored_ok st) as Hok.
  { apply (options_stored_ok i18nKey_page (VRef 0) (fresh_setting (VBool false) heap_bread));
      [apply stored_ok_new | reflexivity]. }
  destruct (C3_toJson_twice translate_fr base_id_type st Hok)
    as (o & Hfirst & Hsecond & Hequal & _).
  exists o. split; [exact Hfirst |]. split; [exact Hsecond |]. apply Hequal.
Defined.

Lemma C3_counterexample :
  let st := after (options i18nKey_page (VRef 0)) (fresh_setting (VBool false) heap_bread) in
  let st1 := after (toJson translate_fr base_id_type) st in
  returned_document (toJson translate_fr base_id_type) st
  = Some (TObj [("id", TStr "color"); ("type", TStr "ENUM");
                ("description", TStr "Tap to set");
                ("options", TArr [TObj [("id", TStr "bread"); ("name", TStr "pain")]] [])]) /\
  returned_document (toJson translate_fr base_id_type) st1
  = Some (TObj [("id", TStr "color"); ("type", TStr "ENUM");
                ("description", TStr "Tap to set");
                ("options", TArr [TObj [("id", TStr "bread"); ("name", TStr "douleur")]] [])]) /\
  returned_document (toJson translate_fr base_id_type) st
  <> returned_document (toJson translate_fr base_id_type) st1.
Proof.
  split; [reflexivity |]. split; [reflexivity |]. discriminate.
Qed.

(** C4, as amended: with localization disabled, for every array argument
    of [options] whose elements are strings or objects, a string element
    gives an option whose id and name are both that string, and a record
    element is stored with its own id and its own name: a record that
    carries an id but no name keeps an undefined name (the name does not
    default to the id). *)
Theorem C4_flat_array_options (i18nKey : string -> string) (t : EnumSetting)
  (h : heap) (la : loc) (its : list value) (ps : list (string * value)) :
  localized t = false ->
  h !! la = Some (Obj (KArray its) ps) ->
  Forall (fun it => is_string it = true \/ is_object h it = true) its ->
  exists arr h' os,
    options i18nKey (VRef la) (State t h) = (Normal tt, State (with_options arr t) h') /\
    read_options h' arr = Some os /\
    forall i it, its !! i = Some it ->
      (forall s, it = VStr s -> os !! i = Some (VStr s, VStr s)) /\
      (forall l o, it = VRef l -> h !! l = Some o -> kind_of o = KPlain ->
         os !! i = Some (object_get o "id",
                         default VUndef (lookup_prop "name" (props o)))).
Proof.
  intros Hoff Hla Hits.
  destruct (options_array_plain_run i18nKey t Hoff la its ps h Hla Hits)
    as (arr & h' & Hrun & Hread).
  exists arr, h', (map (flat_option h) its).
  split; [exact Hrun |]. split; [exact Hread |].
  intros i it Hi. rewrite list_lookup_fmap, Hi. simpl. split.
  - by intros s ->.
  - intros l o -> Hl Hkind. unfold flat_option.
    rewrite is_string_ref. simpl. rewrite Hl. simpl. rewrite Hkind.
    destruct o as [kd pso]. simpl in Hkind. subst kd. by rewrite !object_get_plain.
Qed.

Lemma C4_flat_array_options_witness :
  exists arr h' os,
    options i18nKey_page (VRef 1) (fresh_setting (VBool false) heap_mixed)
    = (Normal tt,
       State (with_options arr (this (fresh_setting (VBool false) heap_mixed))) h') /\
    read_options h' arr = Some os /\
    os !! 0 = Some (VStr "x", VStr "x") /\
    os !! 1 = Some (VStr "a", VUndef).
Proof.
  destruct (C4_flat_array_options i18nKey_page
              (new_EnumSetting (page_with (VBool false)) (VStr "color"))
              heap_mixed 1 [VStr "x"; VRef 0] [])
    as (arr & h' & os & Hrun & Hread & Hos).
  - reflexivity.
  - reflexivity.
  - constructor; [by left | constructor; [by right | constructor]].
  - exists arr, h', os. split; [exact Hrun |]. split; [exact Hread |]. split.
    + apply (proj1 (Hos 0 (VStr "x") eq_refl) "x" eq_refl).
    + apply (proj2 (Hos 1 (VRef 0) eq_refl) 0 (Obj KPlain [("id", VStr "a")]));
        reflexivity.
Defined.

Lemma C4_counterexample :
  let st' := after (options i18nKey_page (VRef 1)) (fresh_setting (VBool false) heap_no_name) in
  outcome (options i18nKey_page (VRef 1)) (fresh_setting (VBool false) heap_no_name)
  = Normal tt /\
  read_options (store st') (_options (this st')) = Some [(VStr "a", VUndef)] /\
  read_options (store st') (_options (this st')) <> Some [(VStr "a", VStr "a")].
Proof.
  split; [reflexivity |]. split; [reflexivity | discriminate].
Qed.

(** C5: [options] throws a [TypeError] when its argument is neither an
    array nor an object (so for [42] and ["str"]), and [groupedOptions]
    throws one when its argument is neither an array nor an object, or when
    an element of an array argument is not an object (so for [[1,2,3]]): the
    call never completes normally then, and when the elements before the
    offending one were processed the error is the one the loop raises for
    that element. *)
Theorem C5_type_errors (i18nKey : string -> string) (st : state) :
  (forall v, is_array (store st) v = false -> is_object (store st) v = false ->
     options i18nKey v st
       = (Throw (TypeError (typeof v +:+ " not valid for options")), st) /\
     groupedOptions i18nKey v st
       = (Throw (TypeError (typeof v +:+ " not valid for options group")), st)) /\
  (forall l pre bad post ps vs st1,
     store st !! l = Some (Obj (KArray (pre ++ bad :: post)) ps) ->
     for_acc pre [] (groupedOptions_array_group i18nKey) st = (Normal vs, st1) ->
     is_object (store st1) bad = false ->
     groupedOptions i18nKey (VRef l) st
       = (Throw (TypeError (typeof bad +:+ " not valid for options group item")), st1)) /\
  (forall l es ps bad r st',
     store st !! l = Some (Obj (KArray es) ps) ->
     bad ∈ es -> is_object (store st) bad = false ->
     groupedOptions i18nKey (VRef l) st = (r, st') ->
     r <> Normal tt).
Proof.
  split; [| split].
  - intros v Ha Ho. split.
    + unfold options. rewrite bind_unfold.
      by rewrite options_values_not_object.
    + unfold groupedOptions. rewrite bind_unfold.
      by rewrite groupedOptions_values_not_object.
  - intros l pre bad post ps vs st1 Hl Hpre Hbad.
    unfold groupedOptions. rewrite bind_unfold.
    rewrite (groupedOptions_values_array _ _ _ _ _ Hl).
    rewrite for_acc_app, (bind_normal _ _ _ _ _ Hpre). simpl.
    rewrite bind_unfold.
    by rewrite groupedOptions_array_group_not_object.
  - intros l es ps bad r st' Hl Hin Hbad.
    unfold groupedOptions. rewrite bind_unfold.
    rewrite (groupedOptions_values_array _ _ _ _ _ Hl).
    destruct (for_acc es [] (groupedOptions_array_group i18nKey) st)
      as [[vs | e |] st1] eqn:Hrun.
    + by destruct (groupedOptions_array_never_normal i18nKey bad es Hin [] st vs st1 Hbad).
    + intros [= <- <-]. discriminate.
    + intros [= <- <-]. discriminate.
Qed.

Lemma C5_type_errors_witness :
  let st := fresh_setting (VBool true) heap_numbers in
  options i18nKey_page (VNum 42) st
    = (Throw (TypeError "number not valid for options"), st) /\
  options i18nKey_page (VStr "str") st
    = (Throw (TypeError "string not valid for options"), st) /\
  groupedOptions i18nKey_page (VRef 0) st
    = (Throw (TypeError "number not valid for options group item"), st) /\
  outcome (groupedOptions i18nKey_page (VRef 0)) st <> Normal tt.
Proof.
  intros st.
  pose proof (C5_type_errors i18nKey_page st) as (Htop & Hitem & Hnever).
  split; [| split; [| split]].
  - apply (proj1 (Htop (VNum 42) eq_refl eq_refl)).
  - apply (proj1 (Htop (VStr "str") eq_refl eq_refl)).
  - apply (Hitem 0 [] (VNum 1) [VNum 2; VNum 3] [] [] st); reflexivity.
  - apply (Hnever 0 [VNum 1; VNum 2; VNum 3] [] (VNum 2) _
             (after (groupedOptions i18nKey_page (VRef 0)) st)).
    + reflexivity.
    + apply list_elem_of_In. simpl. auto.
    + reflexivity.
    + unfold outcome, after. by destruct (groupedOptions i18nKey_page (VRef 0) st).
Defined.

(** C6, as amended: when [options] or [groupedOptions] does not return
    (it throws the [TypeError] of the class, or an operation on an element
    throws), the fields of the setting are the values they were, and every
    object that was there is still there, of the same kind and with the
    same value for every property other than [name]; when the argument is
    rejected at top level (it is neither an array nor an object) nothing
    changes at all.  The names of the elements processed before the
    failure may have been rewritten. *)
Theorem C6_failure_frame (i18nKey : string -> string) (v : value)
  (st st' : state) (r : completion unit) :
  r <> Normal tt ->
  options i18nKey v st = (r, st') \/ groupedOptions i18nKey v st = (r, st') ->
  this st' = this st /\
  only_names_changed (store st) (store st') /\
  (is_array (store st) v = false -> is_object (store st) v = false -> st' = st).
Proof.
  intros Hr [Hrun | Hrun].
  - split; [by eapply options_failure_this |].
    split; [by apply (options_outcome _ _ _ _ _ Hrun) |].
    intros Ha Ho. unfold options in Hrun. rewrite bind_unfold in Hrun.
    rewrite options_values_not_object in Hrun by done. by injection Hrun.
  - split; [by eapply groupedOptions_failure_this |].
    split; [by apply (groupedOptions_outcome _ _ _ _ _ Hrun) |].
    intros Ha Ho. unfold groupedOptions in Hrun. rewrite bind_unfold in Hrun.
    rewrite groupedOptions_values_not_object in Hrun by done. by injection Hrun.
Qed.

Lemma C6_failure_frame_witness :
  let t := new_EnumSetting (page_with (VBool true)) (VStr "color") in
  let st := after (groupedOptions i18nKey_page (VRef 3)) (State t heap_group) in
  let st' := after (groupedOptions i18nKey_page (VRef 4)) st in
  groupedOptions i18nKey_page (VRef 4) st
  = (Throw (TypeError "number not valid for options group item"), st') /\
  this st' = this st /\
  only_names_changed (store st) (store st').
Proof.
  intros t st st'.
  assert (groupedOptions i18nKey_page (VRef 4) st
          = (Throw (TypeError "number not valid for options group item"), st'))
    as Hrun by reflexivity.
  split; [exact Hrun |].
  destruct (C6_failure_frame i18nKey_page (VRef 4) st st'
              (Throw (TypeError "number not valid for options group item")))
    as (Hthis & Hframe & _).
  - discriminate.
  - right. exact Hrun.
  - split; [exact Hthis | exact Hframe].
Defined.

Lemma C6_counterexample :
  let t := new_EnumSetting (page_with (VBool true)) (VStr "color") in
  let st := after (groupedOptions i18nKey_page (VRef 3)) (State t heap_group) in
  let st' := after (groupedOptions i18nKey_page (VRef 4)) st in
  outcome (groupedOptions i18nKey_page (VRef 4)) st
  = Throw (TypeError "number not valid for options group item") /\
  read_groups (store st) (_groupedOptions (this st))
  = Some [(VStr "pages.main.settings.color.groups.G.name",
           [(VStr "o", VStr "pages.main.settings.color.groups.G.options.O.name")])] /\
  read_groups (store st') (_groupedOptions (this st'))
  = Some [(VStr "pages.main.settings.color.groups.pages.main.settings.color.groups.G.name.name",
           [(VStr "o",
             VStr "pages.main.settings.color.groups.pages.main.settings.color.groups.G.name.options.pages.main.settings.color.groups.G.options.O.name.name")])] /\
  stored st' <> stored st.
Proof.
  split; [reflexivity |]. split; [reflexivity |]. split; [reflexivity |].
  discriminate.
Qed.




(** C8: when [options] and [groupedOptions] were both called with input
    they accept, in either order, [toJson] returns a document that has
    both an [options] and a [groupedOptions] field, holding the two stored
    arrays; and neither call clears what the other stored: a successful
    [options] leaves [_groupedOptions] the value it was, a successful
    [groupedOptions] leaves [_options] the value it was, and an array
    stored there still holds the same elements. *)
Theorem C8_both_fields_emitted (i18nKey : string -> string)
  (translate : value -> value) (base_fields : EnumSetting -> list (string * value)) :
  (forall st v st',
     options i18nKey v st = (Normal tt, st') ->
     _groupedOptions (this st') = _groupedOptions (this st) /\
     forall gs, read_array (store st) (_groupedOptions (this st)) = Some gs ->
                read_array (store st') (_groupedOptions (this st')) = Some gs) /\
  (forall st v st',
     groupedOptions i18nKey v st = (Normal tt, st') ->
     _options (this st') = _options (this st) /\
     forall os, read_array (store st) (_options (this st)) = Some os ->
                read_array (store st') (_options (this st')) = Some os) /\
  (forall st opts groups st1 st2,
     (options i18nKey opts st = (Normal tt, st1) /\
      groupedOptions i18nKey groups st1 = (Normal tt, st2)) \/
     (groupedOptions i18nKey groups st = (Normal tt, st1) /\
      options i18nKey opts st1 = (Normal tt, st2)) ->
     exists d st3 o,
       toJson translate base_fields st2 = (Normal (VRef d), st3) /\
       store st3 !! d = Some o /\
       object_get o "options" = _options (this st2) /\
       object_get o "groupedOptions" = _groupedOptions (this st2) /\
       is_array (store st3) (object_get o "options") = true /\
       is_array (store st3) (object_get o "groupedOptions") = true).
Proof.
  split; [| split].
  - intros st v st' Hrun.
    destruct (options_outcome _ _ _ _ _ Hrun) as [Hon Hok].
    destruct (Hok eq_refl) as (arr & Ht & _). rewrite Ht. simpl.
    split; [done |]. intros gs. by apply read_array_only_names_changed.
  - intros st v st' Hrun.
    destruct (groupedOptions_outcome _ _ _ _ _ Hrun) as [Hon Hok].
    destruct (Hok eq_refl) as (arr & Ht & _). rewrite Ht. simpl.
    split; [done |]. intros os. by apply read_array_only_names_changed.
  - intros st opts groups st1 st2 [[Hfirst Hsecond] | [Hfirst Hsecond]].
    + destruct (options_outcome _ _ _ _ _ Hfirst) as [_ Hok1].
      destruct (Hok1 eq_refl) as (arr1 & Ht1 & Harr1 & Hflat).
      destruct (groupedOptions_outcome _ _ _ _ _ Hsecond) as [Hon Hok2].
      destruct (Hok2 eq_refl) as (arr2 & Ht2 & Harr2 & Hgrouped).
      apply toJson_both_fields; [split |..]; rewrite Ht2, ?Ht1; simpl.
      * by eapply only_names_changed_flat_ok.
      * done.
      * by eapply only_names_changed_is_array.
      * done.
    + destruct (groupedOptions_outcome _ _ _ _ _ Hfirst) as [_ Hok1].
      destruct (Hok1 eq_refl) as (arr1 & Ht1 & Harr1 & Hgrouped).
      destruct (options_outcome _ _ _ _ _ Hsecond) as [Hon Hok2].
      destruct (Hok2 eq_refl) as (arr2 & Ht2 & Harr2 & Hflat).
      apply toJson_both_fields; [split |..]; rewrite Ht2, ?Ht1; simpl.
      * done.
      * by eapply only_names_changed_grouped_ok.
      * done.
      * by eapply only_names_changed_is_array.
Qed.

Lemma C8_both_fields_emitted_witness :
  let st := fresh_setting (VBool false) heap_colors in
  let st1 := after (options i18nKey_page (VRef 0)) st in
  let st2 := after (groupedOptions i18nKey_page (VRef 1)) st1 in
  _options (this st2) = _options (this st1) /\
  exists d st3 o,
    toJson translate_id base_id_type st2 = (Normal (VRef d), st3) /\
    store st3 !! d = Some o /\
    object_get o "options" = _options (this st2) /\
    object_get o "groupedOptions" = _groupedOptions (this st2) /\
    is_array (store st3) (object_get o "options") = true /\
    is_array (store st3) (object_get o "groupedOptions") = true.
Proof.
  intros st st1 st2.
  pose proof (C8_both_fields_emitted i18nKey_page translate_id base_id_type)
    as (_ & Hkeeps & Hboth).
  split.
  - apply (Hkeeps st1 (VRef 1) st2). reflexivity.
  - apply (Hboth st (VRef 0) (VRef 1) st1 st2). left. split; reflexivity.
Defined.






(** * Further properties of the class *)

(** X1: given a keyed mapping (an object that is not an array), [options]
    returns and stores one option for each own key, in key order, whose id
    is the key and whose name is the value (the key minted from the value
    when localization is enabled); it only adds objects to the heap, so the
    caller's mapping is left as it was.  (When localization is enabled the
    setting's id and the values are primitives that have a text: a string,
    a boolean, [null], [undefined] or an integer of magnitude at most
    2^53 - 1.) *)
Theorem X1_options_mapping (i18nKey : string -> string) (t : EnumSetting)
  (h : heap) (lo : loc) (o : object) :
  h !! lo = Some o ->
  is_array h (VRef lo) = false ->
  (localized t = true ->
   printable (_id t) /\ Forall (fun k => printable (object_get o k)) (own_keys o)) ->
  exists arr ext,
    options i18nKey (VRef lo) (State t h)
    = (Normal tt, State (with_options arr t) (h ++ ext)) /\
    read_options (h ++ ext) arr
    = Some (map (fun k => (VStr k,
                           if localized t then option_key i18nKey t (object_get o k)
                           else object_get o k))
                (own_keys o)).
Proof.
  intros Ho Harr Hprim. eexists _, _. split.
  - apply (options_mapping_run i18nKey t); [| done.. |].
    + intros Hon. by apply Hprim.
    + intros Hon. by apply Hprim.
  - fold (fresh_options_heap i18nKey t h
            (map (fun k => (VStr k, object_get o k)) (own_keys o))).
    rewrite <- (length_map (fun k => (VStr k, object_get o k)) (own_keys o)).
    rewrite read_options_fresh_options. by rewrite map_map.
Qed.

Lemma X1_options_mapping_witness :
  let t := new_EnumSetting (page_with (VBool true)) (VStr "color") in
  exists arr ext,
    options i18nKey_page (VRef 1) (State t heap_numbers)
    = (Normal tt, State (with_options arr t) (heap_numbers ++ ext)) /\
    read_options (heap_numbers ++ ext) arr
    = Some [(VStr "Misc", VStr "pages.main.settings.color.options.7.name");
            (VStr "Other", VStr "pages.main.settings.color.options.x.name")].
Proof.
  intros t.
  apply (X1_options_mapping i18nKey_page t heap_numbers 1
           (Obj KPlain [("Misc", VNum 7); ("Other", VStr "x")])).
  - reflexivity.
  - reflexivity.
  - intros _. split; [exact I | repeat constructor].
Defined.

(** X2: given an array of strings, [options] returns and stores one new
    option for each element, in order, whose id is the string and whose
    name is the string (the key minted from it when localization is
    enabled); it only adds objects to the heap, so the caller's array is
    left as it was.  (When localization is enabled the setting's id is a
    primitive that has a text: a string, a boolean, [null], [undefined] or
    an integer of magnitude at most 2^53 - 1.) *)
Theorem X2_options_strings (i18nKey : string -> string) (t : EnumSetting)
  (h : heap) (la : loc) (ss : list string) (ps : list (string * value)) :
  h !! la = Some (Obj (KArray (map VStr ss)) ps) ->
  (localized t = true -> printable (_id t)) ->
  exists arr ext,
    options i18nKey (VRef la) (State t h)
    = (Normal tt, State (with_options arr t) (h ++ ext)) /\
    read_options (h ++ ext) arr
    = Some (map (fun s => (VStr s,
                           if localized t then option_key i18nKey t (VStr s)
                           else VStr s))
                ss).
Proof.
  intros Hla Hid. eexists _, _. split.
  - by apply (options_strings_run i18nKey t Hid la ss ps).
  - fold (fresh_options_heap i18nKey t h (map (fun s => (VStr s, VStr s)) ss)).
    rewrite <- (length_map (fun s => (VStr s, VStr s)) ss).
    rewrite read_options_fresh_options. by rewrite map_map.
Qed.

Lemma X2_options_strings_witness :
  let t := new_EnumSetting (page_with (VBool true)) (VStr "color") in
  exists arr ext,
    options i18nKey_page (VRef 0) (State t heap_colors)
    = (Normal tt, State (with_options arr t) (heap_colors ++ ext)) /\
    read_options (heap_colors ++ ext) arr
    = Some [(VStr "red", VStr "pages.main.settings.color.options.red.name");
            (VStr "blue", VStr "pages.main.settings.color.options.blue.name")].
Proof.
  intros t.
  apply (X2_options_strings i18nKey_page t heap_colors 0 ["red"; "blue"] []).
  - reflexivity.
  - intros _. exact I.
Defined.



(** X4: when [options] or [groupedOptions] returns, the field it assigned
    holds an array that did not exist before the call (so it is never the
    caller's array), with no property of its own beside its elements. *)
Theorem X4_stored_array_is_new (i18nKey : string -> string) (v : value)
  (st st' : state) :
  (options i18nKey v st = (Normal tt, st') ->
   exists a vs,
     this st' = with_options (VRef a) (this st) /\
     store st !! a = None /\
     store st' !! a = Some (Obj (KArray vs) [])) /\
  (groupedOptions i18nKey v st = (Normal tt, st') ->
   exists a vs,
     this st' = with_groupedOptions (VRef a) (this st) /\
     store st !! a = None /\
     store st' !! a = Some (Obj (KArray vs) [])).
Proof.
  split; intros Hrun.
  - destruct (options_stores_new_array _ _ _ _ Hrun) as (a & vs & Ht & Hge & Ha & Hlen).
    exists a, vs. repeat split; try done. by apply lookup_ge_None.
  - destruct (groupedOptions_stores_new_array _ _ _ _ Hrun)
      as (a & vs & Ht & Hge & Ha & Hlen).
    exists a, vs. repeat split; try done. by apply lookup_ge_None.
Qed.

Lemma X4_stored_array_is_new_witness :
  let st := fresh_setting (VBool false) heap_colors in
  exists a vs,
    this (after (options i18nKey_page (VRef 0)) st) = with_options (VRef a) (this st) /\
    store st !! a = None /\
    store (after (options i18nKey_page (VRef 0)) st) !! a = Some (Obj (KArray vs) []).
Proof.
  intros st.
  apply (proj1 (X4_stored_array_is_new i18nKey_page (VRef 0) st
                  (after (options i18nKey_page (VRef 0)) st))).
  reflexivity.
Defined.

(** X5: when the stored fields are well formed and no stored object is
    reached twice (no group or option occurs twice in the stored
    structures), [toJson] returns a document whose [options] and
    [groupedOptions] are the stored arrays, in which every name is the
    translation of the name that was stored, each translated once, and
    ids, order and grouping are as they were stored. *)
Theorem X5_toJson_translates_each_name_once (translate : value -> value)
  (base_fields : EnumSetting -> list (string * value)) (st : state) :
  stored_ok st ->
  NoDup (translated (store st) (this st)) ->
  exists d o st',
    toJson translate base_fields st = (Normal (VRef d), st') /\
    this st' = this st /\
    store st' !! d = Some o /\
    (forall os, read_options (store st) (_options (this st)) = Some os ->
       object_get o "options" = _options (this st) /\
       read_options (store st') (object_get o "options")
       = Some (map (translate_option translate) os)) /\
    (forall gs, read_groups (store st) (_groupedOptions (this st)) = Some gs ->
       object_get o "groupedOptions" = _groupedOptions (this st) /\
       read_groups (store st') (object_get o "groupedOptions")
       = Some (map (translate_group translate) gs)).
Proof.
  destruct st as [t h]. simpl. intros Hok Hnd.
  destruct (toJson_translates_once translate base_fields t h Hok Hnd)
    as (Hrun & Hflat & Hgrouped).
  eexists _, _, _. split; [exact Hrun |]. split; [done |]. simpl.
  split; [rewrite <- (length_rename_all translate (translated h t) h);
          apply lookup_app_len |].
  split.
  - intros os Hos.
    assert (object_get (Obj KPlain (document_fields base_fields t h)) "options"
            = _options t) as ->.
    { rewrite object_get_plain, document_fields_options; [done |].
      unfold read_options in Hos.
      destruct (read_array h (_options t)) as [es |] eqn:Hes; [| done].
      by eapply read_array_is_array. }
    split; [done | by apply Hflat].
  - intros gs Hgs.
    assert (object_get (Obj KPlain (document_fields base_fields t h)) "groupedOptions"
            = _groupedOptions t) as ->.
    { rewrite object_get_plain, document_fields_groupedOptions; [done |].
      unfold read_groups in Hgs.
      destruct (read_array h (_groupedOptions t)) as [es |] eqn:Hes; [| done].
      by eapply read_array_is_array. }
    split; [done | by apply Hgrouped].
Qed.

Lemma X5_toJson_translates_each_name_once_witness :
  let st0 := fresh_setting (VBool false) heap_bread in
  let st := after (options i18nKey_page (VRef 0)) st0 in
  exists d o st',
    toJson translate_fr base_id_type st = (Normal (VRef d), st') /\
    object_get o "options" = _options (this st) /\
    read_options (store st') (object_get o "options")
    = Some [(VStr "bread", VStr "pain")].
Proof.
  intros st0 st.
  assert (stored_ok st) as Hok.
  { apply (options_stored_ok i18nKey_page (VRef 0) st0);
      [apply stored_ok_new | reflexivity]. }
  destruct (X5_toJson_translates_each_name_once translate_fr base_id_type st Hok)
    as (d & o & st' & Hrun & _ & _ & Hflat & _).
  - decide_closed.
  - exists d, o, st'. split; [exact Hrun |].
    apply (Hflat [(VStr "bread", VStr "bread")]). reflexivity.
Defined.

(** X6: [options] applied to an array of strings or to a keyed mapping,
    followed by [toJson], returns a document whose [options] lists, in
    input order, each id with the translation of its name: the string (or
    the mapping's value), or the key minted from it when localization is
    enabled.  (The fields must be well formed before, and no stored group
    or group option may occur twice; when localization is enabled the
    setting's id and the mapping's values are primitives that have a text:
    a string, a boolean, [null], [undefined] or an integer of magnitude at
    most 2^53 - 1.) *)
Theorem X6_options_then_toJson (i18nKey : string -> string)
  (translate : value -> value) (base_fields : EnumSetting -> list (string * value))
  (t : EnumSetting) (h : heap) (l : loc) :
  stored_ok (State t h) ->
  NoDup (visited h (array_locs h (_groupedOptions t))) ->
  (localized t = true -> printable (_id t)) ->
  (forall ss ps,
     h !! l = Some (Obj (KArray (map VStr ss)) ps) ->
     exists st1 d st2 doc,
       options i18nKey (VRef l) (State t h) = (Normal tt, st1) /\
       toJson translate base_fields st1 = (Normal (VRef d), st2) /\
       store st2 !! d = Some doc /\
       read_options (store st2) (object_get doc "options")
       = Some (map (fun s => (VStr s, translate (flat_name i18nKey t (VStr s)))) ss)) /\
  (forall o,
     h !! l = Some o ->
     is_array h (VRef l) = false ->
     (localized t = true ->
      Forall (fun k => printable (object_get o k)) (own_keys o)) ->
     exists st1 d st2 doc,
       options i18nKey (VRef l) (State t h) = (Normal tt, st1) /\
       toJson translate base_fields st1 = (Normal (VRef d), st2) /\
       store st2 !! d = Some doc /\
       read_options (store st2) (object_get doc "options")
       = Some (map (fun k => (VStr k,
                              translate (flat_name i18nKey t (object_get o k))))
                   (own_keys o))).
Proof.
  intros Hok Hnd Hid. split.
  - intros ss ps Hl.
    pose proof (options_strings_run i18nKey t Hid l ss ps h Hl) as Hrun.
    rewrite <- (length_map (fun s => (VStr s, VStr s)) ss) in Hrun.
    destruct (fresh_options_then_toJson i18nKey translate base_fields t h
                (map (fun s => (VStr s, VStr s)) ss) Hok Hnd)
      as (doc & h' & Hjson & Hdoc & Hfield & Hread).
    eexists _, _, _, doc. split; [exact Hrun |]. split; [exact Hjson |].
    split; [exact Hdoc |]. simpl. rewrite Hfield, Hread. by rewrite map_map.
  - intros o Hl Harr Hprim.
    pose proof (options_mapping_run i18nKey t Hid l o h Hl Harr Hprim) as Hrun.
    rewrite <- (length_map (fun k => (VStr k, object_get o k)) (own_keys o)) in Hrun.
    destruct (fresh_options_then_toJson i18nKey translate base_fields t h
                (map (fun k => (VStr k, object_get o k)) (own_keys o)) Hok Hnd)
      as (doc & h' & Hjson & Hdoc & Hfield & Hread).
    eexists _, _, _, doc. split; [exact Hrun |]. split; [exact Hjson |].
    split; [exact Hdoc |]. simpl. rewrite Hfield, Hread. by rewrite map_map.
Qed.

Lemma X6_options_then_toJson_witness :
  let t := new_EnumSetting (page_with (VBool false)) (VStr "color") in
  exists st1 d st2 doc,
    options i18nKey_page (VRef 0) (State t heap_bread) = (Normal tt, st1) /\
    toJson translate_fr base_id_type st1 = (Normal (VRef d), st2) /\
    store st2 !! d = Some doc /\
    read_options (store st2) (object_get doc "options")
    = Some [(VStr "bread", VStr "pain")].
Proof.
  intros t.
  apply (proj1 (X6_options_then_toJson i18nKey_page translate_fr base_id_type
                  t heap_bread 0 (stored_ok_new _ _ _)
                  ltac:(decide_closed) (fun _ => I))
           ["bread"] []).
  reflexivity.
Defined.

(** X7: on a setting that stores no array of options (neither field holds
    an array), [toJson] changes no object: it only allocates the document,
    whose fields are the inherited ones followed by [multiple],
    [closeOnSelection] and [style], each present only when its value is
    truthy.  For a setting just constructed the document holds the
    inherited fields and nothing else. *)
Theorem X7_toJson_without_options (translate : value -> value)
  (base_fields : EnumSetting -> list (string * value)) :
  (forall t h,
     stored_ok (State t h) ->
     is_array h (_options t) = false ->
     is_array h (_groupedOptions t) = false ->
     toJson translate base_fields (State t h)
     = (Normal (VRef (length h)),
        State t (h ++ [Obj KPlain
                         (put_if "style" (_style t)
                            (put_if "closeOnSelection" (_closeOnSelection t)
                               (put_if "multiple" (_multiple t) (base_fields t))))]))) /\
  (forall section id h,
     toJson translate base_fields (State (new_EnumSetting section id) h)
     = (Normal (VRef (length h)),
        State (new_EnumSetting section id)
              (h ++ [Obj KPlain (base_fields (new_EnumSetting section id))]))).
Proof.
  split.
  - intros t h. apply toJson_no_options.
  - intros section id h.
    by rewrite toJson_no_options by (try done; apply stored_ok_new).
Qed.

Lemma X7_toJson_without_options_witness :
  let st := after (style (VStr "DROPDOWN"))
              (after (closeOnSelection (VBool false))
                 (after (multiple (VBool true)) (fresh_setting (VBool false) heap_bread))) in
  toJson translate_fr base_id_type st
  = (Normal (VRef 1),
     State (this st)
           (heap_bread ++ [Obj KPlain [("id", VStr "color"); ("type", VStr "ENUM");
                                       ("description", VStr "Tap to set");
                                       ("multiple", VBool true);
                                       ("style", VStr "DROPDOWN")]])).
Proof.
  intros st.
  apply (proj1 (X7_toJson_without_options translate_fr base_id_type)
           (this st) heap_bread).
  - split; intros l Hl; discriminate.
  - reflexivity.
  - reflexivity.
Defined.

(** X8: from a setting just constructed, after any sequence of
    allocations and calls of [multiple], [closeOnSelection],
    [submitOnChange], [style], [options], [groupedOptions] and [toJson],
    whichever way each call ended, [toJson] returns a document and leaves
    the fields of the setting as they are, as long as the arguments are
    built from primitives (a number being an integer of magnitude at most
    2^53 - 1), plain objects with ordinary writable properties, [String]
    objects and arrays without holes: no such sequence of calls brings the
    setting into a state [toJson] throws on.  (An array with a hole is
    outside this: given as a group's value in a keyed mapping it is stored
    with its hole.) *)
Theorem X8_toJson_returns_after_any_calls (i18nKey : string -> string)
  (translate : value -> value) (base_fields : EnumSetting -> list (string * value))
  (section : PageSection) (id : value) (h : heap) (cs : list call) :
  exists st',
    toJson translate base_fields
      (after_calls i18nKey translate base_fields cs
         (State (new_EnumSetting section id) h))
    = (Normal (VRef (length (store (after_calls i18nKey translate base_fields cs
                                      (State (new_EnumSetting section id) h))))),
       st') /\
    this st' = this (after_calls i18nKey translate base_fields cs
                       (State (new_EnumSetting section id) h)).
Proof.
  pose proof (after_calls_stored_ok i18nKey translate base_fields cs
                (State (new_EnumSetting section id) h) (stored_ok_new _ _ _)) as Hok.
  destruct (after_calls i18nKey translate base_fields cs
              (State (new_EnumSetting section id) h)) as [t1 h1].
  eexists. split; [by apply toJson_run | done].
Qed.

(** X9: when an element of an array argument is [undefined], [null], a
    boolean or a number, [options] does not return: reading or assigning
    the element's [name] throws (the file is in strict mode), and the
    fields of the setting are left as they were. *)
Theorem X9_options_rejects_primitive_elements (i18nKey : string -> string)
  (la : loc) (es : list value) (ps : list (string * value)) (bad : value)
  (st st' : state) (r : completion unit) :
  store st !! la = Some (Obj (KArray es) ps) ->
  bad ∈ es ->
  rejected_element bad ->
  options i18nKey (VRef la) st = (r, st') ->
  r <> Normal tt /\ this st' = this st.
Proof.
  intros Hla Hin Hbad Hrun.
  assert (r <> Normal tt) as Hr.
  { intros ->. unfold options in Hrun. rewrite bind_unfold in Hrun.
    rewrite (options_values_array i18nKey la es ps st Hla) in Hrun.
    destruct (for_acc es [] (options_array_item i18nKey) st)
      as [[vs | e |] st1] eqn:Hloop; [| done..].
    by destruct (options_array_rejects i18nKey bad es Hin Hbad [] st vs st1). }
  split; [done | by eapply options_failure_this].
Qed.

Lemma X9_options_rejects_primitive_elements_witness :
  let st := fresh_setting (VBool false) heap_numbers in
  outcome (options i18nKey_page (VRef 0)) st <> Normal tt /\
  this (after (options i18nKey_page (VRef 0)) st) = this st.
Proof.
  intros st.
  apply (X9_options_rejects_primitive_elements i18nKey_page 0
           [VNum 1; VNum 2; VNum 3] [] (VNum 2) st).
  - reflexivity.
  - apply list_elem_of_In. simpl. auto.
  - exact I.
  - unfold outcome, after. by destruct (options i18nKey_page (VRef 0) st).
Defined.

(** X10: when [groupedOptions] returns for an array argument, the array it
    stored holds exactly the elements of the argument, in order, and each
    of them is an object whose [options] can be iterated and holds only
    objects: a group without such an [options] makes the call fail.  The
    call allocates the stored array and nothing else. *)
Theorem X10_groupedOptions_array_accepts (i18nKey : string -> string)
  (la : loc) (es : list value) (ps : list (string * value)) (st st' : state) :
  store st !! la = Some (Obj (KArray es) ps) ->
  groupedOptions i18nKey (VRef la) st = (Normal tt, st') ->
  this st' = with_groupedOptions (VRef (length (store st))) (this st) /\
  store st' !! length (store st) = Some (Obj (KArray es) []) /\
  length (store st') = S (length (store st)) /\
  Forall (group_value_ok (store st')) es.
Proof.
  intros Hla. unfold groupedOptions. rewrite bind_unfold.
  rewrite (groupedOptions_values_array i18nKey la es ps st Hla).
  pose proof (keeps_this_groupedOptions_values i18nKey (this st) (VRef la)) as Hthis.
  pose proof (triple_for_acc
                (fun vs st1 =>
                   (only_names_changed (store st) (store st1) /\
                    length (store st1) = length (store st)) /\
                   Forall (group_value_ok (store st1)) vs)
                (fun st1 =>
                   only_names_changed (store st) (store st1) /\
                   length (store st1) = length (store st))
                es (groupedOptions_array_group i18nKey)
                (fun acc x _ => array_group_success i18nKey (store st) acc x)
                [] st) as Hloop.
  specialize (Hloop ltac:(split; [split; [apply only_names_changed_refl | done]
                                 | constructor])).
  destruct (for_acc es [] (groupedOptions_array_group i18nKey) st)
    as [[vs | e |] st1] eqn:Hrun; [| done..].
  pose proof (array_groups_result _ _ _ _ _ _ Hrun) as Hvs. simpl in Hvs. subst vs.
  rewrite <- (groupedOptions_values_array i18nKey la es ps st Hla) in Hrun.
  pose proof (keeps_this_elim _ _ _ _ _ Hthis eq_refl Hrun) as Ht1.
  destruct Hloop as [[Hon Hlen] Hall]. destruct st1 as [t1 h1]. simpl in *. subst t1.
  rewrite bind_unfold, New_run. intros [= <-]. simpl. rewrite <- Hlen.
  split; [done |]. split; [apply lookup_app_len |].
  split; [rewrite length_app; simpl; lia |].
  eapply Forall_impl; [exact Hall |]. intros g.
  apply only_names_changed_group_value_ok, only_names_changed_app.
Qed.

Lemma X10_groupedOptions_array_accepts_witness :
  let st := fresh_setting (VBool true) heap_group in
  let st' := after (groupedOptions i18nKey_page (VRef 3)) st in
  this st' = with_groupedOptions (VRef 5) (this st) /\
  store st' !! 5 = Some (Obj (KArray [VRef 2]) []) /\
  length (store st') = 6 /\
  Forall (group_value_ok (store st')) [VRef 2].
Proof.
  intros st st'.
  apply (X10_groupedOptions_array_accepts i18nKey_page 3 [VRef 2] [] st st');
    reflexivity.
Defined.

(** X11: with localization disabled, a call of [options] on an array of
    strings and objects, or of [groupedOptions] on an array of groups,
    returns and leaves every object that existed with the same kind and
    the same value for every property: the caller's objects read as
    before. *)
Theorem X11_unlocalized_arrays_keep_values (i18nKey : string -> string)
  (t : EnumSetting) (h : heap) (la : loc) :
  localized t = false ->
  (forall its ps,
     h !! la = Some (Obj (KArray its) ps) ->
     Forall (fun it => is_string it = true \/ is_object h it = true) its ->
     exists arr h',
       options i18nKey (VRef la) (State t h)
       = (Normal tt, State (with_options arr t) h') /\
       same_objects h h') /\
  (forall ls ps,
     h !! la = Some (Obj (KArray (map VRef ls)) ps) ->
     Forall (group_ok h) ls ->
     exists h',
       groupedOptions i18nKey (VRef la) (State t h)
       = (Normal tt, State (with_groupedOptions (VRef (length h)) t) h') /\
       same_objects h h').
Proof.
  intros Hoff. split.
  - intros its ps Hla Hits.
    destruct (options_array_plain i18nKey t Hoff its [] h Hits)
      as (vs & h1 & Hloop & Hsame & _).
    exists (VRef (length h1)), (h1 ++ [Obj (KArray vs) []]). split.
    + unfold options. rewrite bind_unfold.
      rewrite (options_values_array i18nKey la its ps (State t h) Hla), Hloop.
      by rewrite bind_unfold, New_run.
    + eapply same_objects_trans; [exact Hsame | apply same_objects_app].
  - intros ls ps Hla Hls. eexists. split.
    + apply (groupedOptions_array_run i18nKey t
               ltac:(rewrite Hoff; discriminate) la ls ps h Hla).
      eapply Forall_impl; [exact Hls |]. intros l. by apply group_ok_names_ok.
    + eapply same_objects_trans; [| apply same_objects_app].
      by apply same_objects_localize_groups.
Qed.

Lemma X11_unlocalized_arrays_keep_values_witness :
  let t := new_EnumSetting (page_with (VBool false)) (VStr "color") in
  (exists arr h',
     options i18nKey_page (VRef 1) (State t heap_mixed)
     = (Normal tt, State (with_options arr t) h') /\
     same_objects heap_mixed h') /\
  (exists h',
     groupedOptions i18nKey_page (VRef 3) (State t heap_group)
     = (Normal tt, State (with_groupedOptions (VRef 5) t) h') /\
     same_objects heap_group h').
Proof.
  intros t. split.
  - apply (proj1 (X11_unlocalized_arrays_keep_values i18nKey_page t heap_mixed 1
                    eq_refl) [VStr "x"; VRef 0] []).
    + reflexivity.
    + constructor; [by left | constructor; [by right | constructor]].
  - apply (proj2 (X11_unlocalized_arrays_keep_values i18nKey_page t heap_group 3
                    eq_refl) [2] []).
    + reflexivity.
    + constructor; [| constructor]. exists [0]. split; [reflexivity |].
      constructor; [simpl; lia | constructor].
Defined.

(** X12: after [multiple(v)], [closeOnSelection(v)] or [style(v)] on a
    well-formed setting, [toJson] returns a document in which the field of
    that name is [v] when [v] is truthy; when [v] is falsy ([false], [0],
    the empty string, [null], [undefined]) the call leaves no trace: the
    field is whatever the inherited fields provide, so
    [closeOnSelection(false)] is not emitted. *)
Theorem X12_flags_in_document (translate : value -> value)
  (base_fields : EnumSetting -> list (string * value)) (st : state) (v : value) :
  stored_ok st ->
  document_field translate base_fields (after (multiple v) st) "multiple"
  = Some (if truthy v then Some v
          else lookup_prop "multiple" (base_fields (with_multiple v (this st)))) /\
  document_field translate base_fields (after (closeOnSelection v) st)
    "closeOnSelection"
  = Some (if truthy v then Some v
          else lookup_prop "closeOnSelection"
                 (base_fields (with_closeOnSelection v (this st)))) /\
  document_field translate base_fields (after (style v) st) "style"
  = Some (if truthy v then Some v
          else lookup_prop "style" (base_fields (with_style v (this st)))).
Proof.
  intros Hok. destruct st as [t h].
  destruct (setters_stored_ok v _ Hok) as (Hm & Hc & _ & Hs).
  unfold document_field, after in *. simpl in *.
  rewrite !toJson_run by done. simpl.
  assert (forall T o, (rename_all translate T h ++ [o]) !! length h = Some o)
    as Hdoc.
  { intros T o. rewrite <- (length_rename_all translate T h).
    apply lookup_app_len. }
  rewrite !Hdoc. simpl.
  split; [| split].
  - apply f_equal, (document_fields_flags base_fields (with_multiple v t) h).
  - apply f_equal, (document_fields_flags base_fields (with_closeOnSelection v t) h).
  - apply f_equal, (document_fields_flags base_fields (with_style v t) h).
Qed.

Lemma X12_flags_in_document_witness :
  let st := fresh_setting (VBool false) heap_bread in
  document_field translate_fr base_id_type (after (multiple (VBool true)) st)
    "multiple" = Some (Some (VBool true)) /\
  document_field translate_fr base_id_type (after (closeOnSelection (VBool false)) st)
    "closeOnSelection" = Some None.
Proof.
  intros st. split.
  - apply (proj1 (X12_flags_in_document translate_fr base_id_type st (VBool true)
                    (stored_ok_new _ _ _))).
  - apply (proj1 (proj2 (X12_flags_in_document translate_fr base_id_type st
                           (VBool false) (stored_ok_new _ _ _)))).
Defined.

(** X13: [toJson] translates the name of a stored object once for each
    time the object occurs in the stored structures (as a group, as an
    option of a group, as a flat option): after the call the object has
    the same kind and the same value for every other property, and its
    name is the translation applied that many times to the name it had.
    An object stored twice, or shared by the flat and the grouped options,
    is translated twice by one call; an object that is not stored keeps
    its name. *)
Theorem X13_toJson_translates_per_occurrence (translate : value -> value)
  (base_fields : EnumSetting -> list (string * value)) (st : state)
  (l : loc) (o : object) :
  stored_ok st ->
  store st !! l = Some o ->
  exists o',
    store (after (toJson translate base_fields) st) !! l = Some o' /\
    kind_of o' = kind_of o /\
    (forall k, k <> "name" -> object_get o' k = object_get o k) /\
    object_get o' "name"
    = Nat.iter (count_occ Nat.eq_dec (translated (store st) (this st)) l)
        translate (object_get o "name").
Proof.
  destruct st as [t h]. simpl. intros Hok Hl.
  unfold after. rewrite toJson_run by done. simpl.
  destruct (rename_all_lookup_count translate (translated h t) h l o Hl)
    as (o' & Ho' & Hrest).
  exists o'. split; [| exact Hrest]. by apply lookup_app_l_Some.
Qed.

Lemma X13_toJson_translates_per_occurrence_witness :
  let st0 := State (new_EnumSetting (page_with (VBool false)) (VStr "color"))
               [Obj KPlain [("id", VStr "b"); ("name", VStr "bread")];
                Obj (KArray [VRef 0; VRef 0]) []] in
  let st := after (options i18nKey_page (VRef 1)) st0 in
  exists o',
    store (after (toJson translate_fr base_id_type) st) !! 0 = Some o' /\
    object_get o' "id" = VStr "b" /\
    object_get o' "name" = VStr "douleur".
Proof.
  intros st0 st.
  assert (stored_ok st) as Hok.
  { apply (options_stored_ok i18nKey_page (VRef 1) st0);
      [apply stored_ok_new | reflexivity]. }
  destruct (X13_toJson_translates_per_occurrence translate_fr base_id_type st 0
              (Obj KPlain [("id", VStr "b"); ("name", VStr "bread")]) Hok eq_refl)
    as (o' & Ho' & _ & Hget & Hname).
  exists o'. split; [exact Ho' |]. split.
  - by rewrite (Hget "id").
  - rewrite Hname. reflexivity.
Defined.
